(** * capa: rule loading, rule sets and the scoped match driver

    A shallow embedding of [capa/rules.py] and of the matching driver of
    [capa/main.py].

    Conventions of the embedding:
    - Python exceptions are values of [exn]; a computation that may raise
      has type [result A].
    - Python [int] is [Z]; [str] is [string] (ASCII text); [None] is
      [YNull] for document values and [None] for optional arguments.
    - a [dict] whose iteration order is observable is an insertion-ordered
      association list ([dict_set], [dict_get]); feature sets, whose order
      is never observed, are [gmap]s to [gset]s.
    - the iteration order of a Python [set] is unspecified: wherever the
      code iterates one, the order is a parameter of the model, constrained
      only to enumerate the set.
    - the recursion limit of the interpreter is the [fuel] argument of the
      recursive closures; running out of it is [RecursionError]. *)

From Stdlib Require Import ZArith Ascii List Lia Permutation.
From Stdlib Require String.
From stdpp Require Import gmap strings list fin_maps relations.

#[local] Set Warnings "-register-all".

Open Scope Z_scope.

(** ** Exceptions and the error monad *)

Inductive exn : Type :=
| InvalidRule (msg : string)
| InvalidRuleWithPath (path msg : string)
| InvalidRuleSet (msg : string)
| ValueError
| TypeError
| AttributeError
| KeyError
| IndexError
| RecursionError
| IOError.

Inductive result (A : Type) : Type :=
| Ok (a : A)
| Raise (e : exn).
Arguments Ok {A} a.
Arguments Raise {A} e.

#[global] Instance result_ret : MRet result := fun A a => Ok a.
#[global] Instance result_bind : MBind result := fun A B k m =>
  match m with
  | Ok a => k a
  | Raise e => Raise e
  end.

(** the computation returns *)
Definition is_Ok {A} (m : result A) : Prop := ∃ a, m = Ok a.

(** [InvalidRuleWithPath] is a subclass of [InvalidRule]. *)
Definition is_InvalidRule (e : exn) : bool :=
  match e with
  | InvalidRule _ | InvalidRuleWithPath _ _ => true
  | _ => false
  end.

Definition is_InvalidRuleSet (e : exn) : bool :=
  match e with
  | InvalidRuleSet _ => true
  | _ => false
  end.

Fixpoint mapM {A B} (f : A -> result B) (l : list A) : result (list B) :=
  match l with
  | [] => Ok []
  | a :: l' => b ← f a; bs ← mapM f l'; Ok (b :: bs)
  end.

(** Run the results of a list comprehension in order. *)
Fixpoint sequence {A} (l : list (result A)) : result (list A) :=
  match l with
  | [] => Ok []
  | m :: l' => a ← m; as_ ← sequence l'; Ok (a :: as_)
  end.

Fixpoint foldM {A S} (f : S -> A -> result S) (l : list A) (s : S) : result S :=
  match l with
  | [] => Ok s
  | a :: l' => s' ← f s a; foldM f l' s'
  end.

(** ** Python strings *)

Module Py.

Definition len (s : string) : nat := String.length s.

Definition startswith (s p : string) : bool := String.prefix p s.

(** [s[n:]] *)
Fixpoint drop (n : nat) (s : string) : string :=
  match n, s with
  | O, _ => s
  | S n', String _ s' => drop n' s'
  | S _, EmptyString => EmptyString
  end.

(** [s[:n]] *)
Fixpoint take (n : nat) (s : string) : string :=
  match n, s with
  | S n', String c s' => String c (take n' s')
  | _, _ => EmptyString
  end.

(** [s[:-n]] for [n > 0] *)
Definition drop_end (n : nat) (s : string) : string :=
  take (len s - n) s.

Definition endswith (s p : string) : bool :=
  (len p <=? len s)%nat && String.eqb (drop (len s - len p) s) p.

(** index of the first occurrence of the non-empty [sep] in [s] *)
Fixpoint find (sep s : string) : option nat :=
  if String.prefix sep s then Some O
  else match s with
       | EmptyString => None
       | String _ s' => S <$> find sep s'
       end.

(** [tag in v] *)
Definition contains (v tag : string) : bool :=
  match find tag v with
  | Some _ => true
  | None => false
  end.

(** [s.partition(sep)]: the head and the tail around the first [sep];
    the whole string and an empty tail when [sep] does not occur. *)
Definition partition (s sep : string) : string * string :=
  match find sep s with
  | Some i => (take i s, drop (i + len sep) s)
  | None => (s, EmptyString)
  end.

(** The head of [s.rpartition("/")]: what precedes the last slash, empty
    when there is none. [rpartition_slash] is [None] without a slash. *)
Fixpoint rpartition_slash (s : string) : option string :=
  match s with
  | EmptyString => None
  | String c s' =>
      match rpartition_slash s' with
      | Some h => Some (String c h)
      | None => if Ascii.eqb c "/"%char then Some EmptyString else None
      end
  end.

Definition rpartition_head (s : string) : string :=
  default EmptyString (rpartition_slash s).

(** whitespace as [str.strip] sees it on ASCII text *)
Definition isspace (c : ascii) : bool :=
  let n := nat_of_ascii c in
  ((9 <=? n) && (n <=? 13) || (28 <=? n) && (n <=? 32))%nat.

(** the blanks that [int] skips around a literal of ASCII text: the
    tabulator to the carriage return, and the space; the separators
    [0x1c] to [0x1f], which [str.strip] takes off, are none of them *)
Definition isblank (c : ascii) : bool :=
  let n := nat_of_ascii c in
  ((9 <=? n) && (n <=? 13) || (n =? 32))%nat.

Fixpoint lskip (s : string) : string :=
  match s with
  | String c s' => if isblank c then lskip s' else s
  | EmptyString => EmptyString
  end.

Fixpoint rskip (s : string) : string :=
  match s with
  | EmptyString => EmptyString
  | String c s' =>
      match rskip s' with
      | EmptyString => if isblank c then EmptyString else String c EmptyString
      | r => String c r
      end
  end.

Fixpoint lstrip (s : string) : string :=
  match s with
  | String c s' => if isspace c then lstrip s' else s
  | EmptyString => EmptyString
  end.

Fixpoint rstrip (s : string) : string :=
  match s with
  | EmptyString => EmptyString
  | String c s' =>
      match rstrip s' with
      | EmptyString => if isspace c then EmptyString else String c EmptyString
      | r => String c r
      end
  end.

Definition strip (s : string) : string := rstrip (lstrip s).

(** [s.isascii()] *)
Fixpoint isascii (s : string) : bool :=
  match s with
  | EmptyString => true
  | String c s' => (nat_of_ascii c <? 128)%nat && isascii s'
  end.

(** [s.replace(" ", "")] *)
Fixpoint remove_spaces (s : string) : string :=
  match s with
  | EmptyString => EmptyString
  | String c s' =>
      if Ascii.eqb c " "%char then remove_spaces s' else String c (remove_spaces s')
  end.

(** value of a digit in a base up to 16 *)
Definition digit_value (base : Z) (c : ascii) : option Z :=
  let n := Z.of_nat (nat_of_ascii c) in
  let v :=
    if (48 <=? n) && (n <=? 57) then Some (n - 48)
    else if (97 <=? n) && (n <=? 102) then Some (n - 87)
    else if (65 <=? n) && (n <=? 70) then Some (n - 55)
    else None in
  match v with
  | Some d => if d <? base then Some d else None
  | None => None
  end.

(** digits with single underscores between them; [prev_us] tells that
    the previous character was an underscore, [acc] is [None] until the
    first digit. *)
Fixpoint digits (base : Z) (prev_us : bool) (acc : option Z) (s : string)
  : option Z :=
  match s with
  | EmptyString => if prev_us then None else acc
  | String c s' =>
      if Ascii.eqb c "_"%char then
        match acc with
        | Some _ => if prev_us then None else digits base true acc s'
        | None => None
        end
      else
        match digit_value base c with
        | Some d => digits base false (Some (default 0 acc * base + d)) s'
        | None => None
        end
  end.

(** The builtin [int(s, base)] on a string, for base 10 and 16: blanks
    around the literal, an optional sign, for base 16 an optional [0x]
    prefix that one underscore may follow, then the digits. *)
Definition int (s : string) (base : Z) : result Z :=
  let s := rskip (lskip s) in
  let '(neg, s) :=
    match s with
    | String "-"%char s' => (true, s')
    | String "+"%char s' => (false, s')
    | _ => (false, s)
    end in
  let s :=
    if (base =? 16) && (String.prefix "0x" s || String.prefix "0X" s) then
      match drop 2 s with
      | String "_"%char s' => s'
      | s' => s'
      end
    else s in
  match digits base false None s with
  | Some n => Ok (if neg then - n else n)
  | None => Raise ValueError
  end.

(** the last character, if any *)
Fixpoint last_char (s : string) : option ascii :=
  match s with
  | EmptyString => None
  | String c EmptyString => Some c
  | String _ s' => last_char s'
  end.

End Py.

(** ** Insertion-ordered dictionaries *)

Section Dict.
Context {V : Type}.

Definition dict := list (string * V).

Fixpoint dict_get (d : dict) (k : string) : option V :=
  match d with
  | [] => None
  | (k', v) :: d' => if String.eqb k' k then Some v else dict_get d' k
  end.

(** [d[k] = v]: an existing key keeps its position. *)
Fixpoint dict_set (d : dict) (k : string) (v : V) : dict :=
  match d with
  | [] => [(k, v)]
  | (k', v') :: d' =>
      if String.eqb k' k then (k', v) :: d' else (k', v') :: dict_set d' k v
  end.

Definition dict_keys (d : dict) : list string := map fst d.
Definition dict_values (d : dict) : list V := map snd d.
Definition dict_contains (d : dict) (k : string) : bool :=
  match dict_get d k with Some _ => true | None => false end.
End Dict.
Arguments dict V : clear implicits.

(** ** Rule documents

    What the YAML loader hands to [Rule.from_dict]: scalars, lists and
    string-keyed mappings. A float is kept as its literal. *)

Inductive YValue : Type :=
| YNull
| YBool (b : bool)
| YInt (n : Z)
| YFloat (repr : string)
| YStr (s : string)
| YBytes (b : string)
| YList (l : list YValue)
| YMap (m : list (string * YValue)).

(** Python truthiness, as in [if not namespace] and [if description]. *)
Definition truthy (v : YValue) : bool :=
  match v with
  | YNull => false
  | YBool b => b
  | YInt n => negb (n =? 0)
  | YFloat r => negb (String.eqb r "0.0" || String.eqb r "-0.0")
  | YStr s => negb (String.eqb s "")
  | YBytes b => negb (String.eqb b "")
  | YList l => match l with [] => false | _ => true end
  | YMap m => match m with [] => false | _ => true end
  end.

(** ** Features

    Modelled from the spec: the feature classes of [capa.features], which
    are not part of this repository's sources at hand. A feature is a
    tagged value, "totally defined by kind+payload" (a description is not
    part of its identity), with the payload types of the spec's table;
    numbers and offsets carry an optional arch tag. *)

Inductive Feature : Type :=
| MatchedRule (value : string)
| API (value : string)
| Number (value : Z) (arch : option string)
| String_ (value : string)
| Regex (value : string)
| Substring (value : string)
| Bytes (value : string)
| Offset (value : Z) (arch : option string)
| Mnemonic (value : string)
| BasicBlock
| Characteristic (value : string)
| Export (value : string)
| Import (value : string)
| Section_ (value : string)
| FunctionName (value : string).

(** the classes, as the entries of [SUPPORTED_FEATURES] name them *)
Inductive FeatureClass : Type :=
| CMatchedRule | CAPI | CNumber | CString | CRegex | CSubstring | CBytes
| COffset | CMnemonic | CBasicBlock | CCharacteristic | CExport | CImport
| CSection | CFunctionName.

Definition class_of (f : Feature) : FeatureClass :=
  match f with
  | MatchedRule _ => CMatchedRule | API _ => CAPI | Number _ _ => CNumber
  | String_ _ => CString | Regex _ => CRegex | Substring _ => CSubstring
  | Bytes _ => CBytes | Offset _ _ => COffset | Mnemonic _ => CMnemonic
  | BasicBlock => CBasicBlock | Characteristic _ => CCharacteristic
  | Export _ => CExport | Import _ => CImport | Section_ _ => CSection
  | FunctionName _ => CFunctionName
  end.

#[global] Instance FeatureClass_eq_dec : EqDecision FeatureClass.
Proof. solve_decision. Defined.
#[global] Instance Feature_eq_dec : EqDecision Feature.
Proof. solve_decision. Defined.

Definition FeatureClass_to_nat (c : FeatureClass) : nat :=
  match c with
  | CMatchedRule => 0 | CAPI => 1 | CNumber => 2 | CString => 3
  | CRegex => 4 | CSubstring => 5 | CBytes => 6 | COffset => 7
  | CMnemonic => 8 | CBasicBlock => 9 | CCharacteristic => 10
  | CExport => 11 | CImport => 12 | CSection => 13 | CFunctionName => 14
  end%nat.

Definition Feature_payload (f : Feature) : string + Z * option string :=
  match f with
  | MatchedRule v | API v | String_ v | Regex v | Substring v | Bytes v
  | Mnemonic v | Characteristic v | Export v | Import v | Section_ v
  | FunctionName v => inl v
  | Number v a | Offset v a => inr (v, a)
  | BasicBlock => inl ""
  end.

Definition Feature_of_payload (c : nat) (p : string + Z * option string)
  : Feature :=
  match c, p with
  | 0, inl v => MatchedRule v
  | 1, inl v => API v
  | 2, inr (v, a) => Number v a
  | 3, inl v => String_ v
  | 4, inl v => Regex v
  | 5, inl v => Substring v
  | 6, inl v => Bytes v
  | 7, inr (v, a) => Offset v a
  | 8, inl v => Mnemonic v
  | 10, inl v => Characteristic v
  | 11, inl v => Export v
  | 12, inl v => Import v
  | 13, inl v => Section_ v
  | 14, inl v => FunctionName v
  | _, _ => BasicBlock
  end%nat.

#[global] Instance Feature_countable : Countable Feature.
Proof.
  apply (inj_countable'
    (fun f => (FeatureClass_to_nat (class_of f), Feature_payload f))
    (fun x => Feature_of_payload x.1 x.2)).
  by intros [].
Defined.

(** [FeatureSet]: from a feature to the addresses where it was seen. *)
Abbreviation FeatureSet := (gmap Feature (gset Z)).

(** ** Statements and rules

    Modelled from the spec: the statement classes of [capa.engine]. The
    children of a node are, in order, its [child] or [children]; the child
    of a [Range] is the counted feature. A feature used as a node is a
    [Leaf] (with its description, which is not part of the feature). *)

Inductive Statement : Type :=
| And (children : list Statement) (description : YValue)
| Or (children : list Statement) (description : YValue)
| Not (child : Statement) (description : YValue)
| Some_ (count : Z) (children : list Statement) (description : YValue)
| Range (child : Statement) (min max : option Z) (description : YValue)
| Subscope (scope : string) (child : Statement)
| Leaf (feature : Feature) (description : YValue).

Definition is_Statement (s : Statement) : bool :=
  match s with Leaf _ _ => false | _ => true end.

Definition is_Subscope (s : Statement) : bool :=
  match s with Subscope _ _ => true | _ => false end.

Definition get_children (s : Statement) : list Statement :=
  match s with
  | And cs _ | Or cs _ | Some_ _ cs _ => cs
  | Not c _ | Range c _ _ _ | Subscope _ c => [c]
  | Leaf _ _ => []
  end.

Record Rule : Type := mkRule {
  name : string;
  scope : string;
  statement : Statement;
  meta : dict YValue;
  definition : string;
}.

Definition FILE_SCOPE := "file".
Definition FUNCTION_SCOPE := "function".
Definition BASIC_BLOCK_SCOPE := "basic block".

Record RuleSet : Type := mkRuleSet {
  file_rules : list Rule;
  function_rules : list Rule;
  basic_block_rules : list Rule;
  rules : dict Rule;
  rules_by_namespace : gmap string (list Rule);
}.

(** ** The scoped match driver ([capa/main.py]) *)

Section Driver.
(** Handles of the extractor are opaque; [int(f)] and [int(bb)] give
    their addresses. [Result] is the evaluation tree of a match. *)
Context {FunctionHandle BBHandle InsnHandle Result : Type}.
Variable int_of_function : FunctionHandle -> Z.
Variable int_of_bb : BBHandle -> Z.

(** [MatchResults]: rule name to the list of [(address, result)]. *)
Abbreviation MatchResults := (gmap string (list (Z * Result))).

(** [capa.engine.match] is not part of the sources at hand: the driver
    is modelled for any matcher. *)
Variable engine_match :
  list Rule -> FeatureSet -> Z -> FeatureSet * MatchResults.

Record FeatureExtractor : Type := mkExtractor {
  extract_file_features : list (Feature * option Z);
  extract_function_features : FunctionHandle -> list (Feature * Z);
  get_basic_blocks : FunctionHandle -> list BBHandle;
  extract_basic_block_features :
    FunctionHandle -> BBHandle -> list (Feature * Z);
  get_instructions : FunctionHandle -> BBHandle -> list InsnHandle;
  extract_insn_features :
    FunctionHandle -> BBHandle -> InsnHandle -> list (Feature * Z);
}.

(** [features[feature].add(va)] on a [defaultdict(set)] *)
Definition add_address (features : FeatureSet) (feature : Feature) (va : Z)
  : FeatureSet :=
  <[feature := {[va]} ∪ features !!! feature]> features.

(** one iteration of the loops that feed both feature sets:
    [bb_features[feature].add(va); function_features[feature].add(va)] *)
Definition add_both (st : FeatureSet * FeatureSet) (item : Feature * Z)
  : FeatureSet * FeatureSet :=
  (add_address st.1 item.1 item.2, add_address st.2 item.1 item.2).

(** the features gathered for one basic block: the pair of
    [bb_features] and the updated [function_features] *)
Definition gather_basic_block (extractor : FeatureExtractor)
    (f : FunctionHandle) (bb : BBHandle) (function_features : FeatureSet)
  : FeatureSet * FeatureSet :=
  let st := fold_left add_both
              (extract_basic_block_features extractor f bb)
              (∅, function_features) in
  fold_left
    (fun st insn =>
       fold_left add_both (extract_insn_features extractor f bb insn) st)
    (get_instructions extractor f bb) st.

(** [for rule_name, res in matches.items(): ...] *)
Definition record_bb_matches (matches : MatchResults)
    (st : FeatureSet * MatchResults) : FeatureSet * MatchResults :=
  fold_left
    (fun st '(rule_name, res) =>
       (fold_left
          (fun ff '(va, _) => add_address ff (MatchedRule rule_name) va)
          res st.1,
        <[rule_name := st.2 !!! rule_name ++ res]> st.2))
    (map_to_list matches) st.

(** the body of [for bb in extractor.get_basic_blocks(f)] *)
Definition basic_block_step (ruleset : RuleSet)
    (extractor : FeatureExtractor) (f : FunctionHandle)
    (st : FeatureSet * MatchResults) (bb : BBHandle)
  : FeatureSet * MatchResults :=
  let '(bb_features, function_features) :=
    gather_basic_block extractor f bb st.1 in
  let '(_, matches) :=
    engine_match (basic_block_rules ruleset) bb_features (int_of_bb bb) in
  record_bb_matches matches (function_features, st.2).

(** [function_features] and [bb_matches] when the loop over the basic
    blocks is done, that is, when the function rules are matched *)
Definition function_features_and_bb_matches (ruleset : RuleSet)
    (extractor : FeatureExtractor) (f : FunctionHandle)
  : FeatureSet * MatchResults :=
  let function_features :=
    fold_left (fun ff '(feature, va) => add_address ff feature va)
      (extract_function_features extractor f) ∅ in
  fold_left (basic_block_step ruleset extractor f)
    (get_basic_blocks extractor f) (function_features, ∅).

Definition find_function_capabilities (ruleset : RuleSet)
    (extractor : FeatureExtractor) (f : FunctionHandle)
  : MatchResults * MatchResults * nat :=
  let '(function_features, bb_matches) :=
    function_features_and_bb_matches ruleset extractor f in
  let '(_, function_matches) :=
    engine_match (function_rules ruleset) function_features
      (int_of_function f) in
  (function_matches, bb_matches, size function_features).

(** the body of [for feature, va in extractor.extract_file_features()] *)
Definition file_feature_step (file_features : FeatureSet)
    (item : Feature * option Z) : FeatureSet :=
  let '(feature, va) := item in
  let truthy_va := match va with Some a => negb (a =? 0) | None => false end in
  if truthy_va then add_address file_features feature (default 0 va)
  else
    match file_features !! feature with
    | None => <[feature := ∅]> file_features
    | Some _ => file_features
    end.

Definition collect_file_features (extractor : FeatureExtractor) : FeatureSet :=
  fold_left file_feature_step (extract_file_features extractor) ∅.

(** [file_features.update(function_features)] overwrites the entries of
    the keys of [function_features]. *)
Definition file_features_at_match (extractor : FeatureExtractor)
    (function_features : FeatureSet) : FeatureSet :=
  function_features ∪ collect_file_features extractor.

Definition find_file_capabilities (ruleset : RuleSet)
    (extractor : FeatureExtractor) (function_features : FeatureSet)
  : MatchResults * nat :=
  let file_features := file_features_at_match extractor function_features in
  let '(_, matches) := engine_match (file_rules ruleset) file_features 0 in
  (matches, size file_features).

(** *** Notions used to state the properties of the driver *)

(** a feature set holds all the addresses of another one *)
Definition fs_sub (a b : FeatureSet) : Prop :=
  ∀ feature va, va ∈ a !!! feature → va ∈ b !!! feature.

(** [features[feature].add(va)] for an item [(feature, va)] *)
Definition add_item (features : FeatureSet) (item : Feature * Z)
  : FeatureSet :=
  add_address features item.1 item.2.

(** everything the extractor reports for a basic block and for its
    instructions *)
Definition basic_block_items (extractor : FeatureExtractor) f bb
  : list (Feature * Z) :=
  extract_basic_block_features extractor f bb
  ++ concat (map (extract_insn_features extractor f bb)
               (get_instructions extractor f bb)).

(** the addresses of the matches of a rule, added under its
    [MatchedRule] feature *)
Definition add_match_addresses (rule_name : string)
    (features : FeatureSet) (res : list (Z * Result)) : FeatureSet :=
  fold_left (fun ff '(va, _) => add_address ff (MatchedRule rule_name) va)
    res features.

(** one iteration of [for rule_name, res in matches.items()] *)
Definition record_step (st : FeatureSet * MatchResults)
    (item : string * list (Z * Result)) :=
  (add_match_addresses item.1 st.1 item.2,
   <[item.1 := st.2 !!! item.1 ++ item.2]> st.2).

End Driver.

(** ** The rule loader ([capa/rules.py]) *)

(** [s] between double quotes *)
Definition quoted (s : string) : string :=
  String "034"%char (s +:+ String "034"%char EmptyString).

(** [SUPPORTED_FEATURES[scope]]: the feature classes and the
    characteristics of a scope. All basic block features are function
    features as well. *)
Definition BASIC_BLOCK_CLASSES : list FeatureClass :=
  [CMatchedRule; CAPI; CNumber; CString; CBytes; COffset; CMnemonic].
Definition BASIC_BLOCK_CHARACTERISTICS : list string :=
  ["nzxor"; "peb access"; "fs access"; "gs access"; "cross section flow";
   "tight loop"; "stack string"; "indirect call"].

Definition SUPPORTED_FEATURES (scope : string)
  : option (list FeatureClass * list string) :=
  if String.eqb scope FILE_SCOPE then
    Some ([CMatchedRule; CExport; CImport; CSection; CFunctionName; CString],
          ["embedded pe"])
  else if String.eqb scope FUNCTION_SCOPE then
    Some (CBasicBlock :: BASIC_BLOCK_CLASSES,
          ["calls from"; "calls to"; "loop"; "recursive call"]
            ++ BASIC_BLOCK_CHARACTERISTICS)
  else if String.eqb scope BASIC_BLOCK_SCOPE then
    Some (BASIC_BLOCK_CLASSES, BASIC_BLOCK_CHARACTERISTICS)
  else None.

(** The message of the code names the feature, as [str(feature)] of
    [capa.features] renders it, and the scope; that rendering is not
    among the sources, and the message stands here without the two. *)
Definition ensure_feature_valid_for_scope (scope : string) (feature : Feature)
  : result unit :=
  match SUPPORTED_FEATURES scope with
  | None => Raise KeyError
  | Some (classes, characteristics) =>
      match feature with
      | Characteristic value =>
          if bool_decide (value ∈ characteristics) then Ok ()
          else Raise (InvalidRule "feature not support for scope")
      | _ =>
          if bool_decide (class_of feature ∈ classes) then Ok ()
          else Raise (InvalidRule "feature not support for scope")
      end
  end.

Definition parse_int (s : string) : result Z :=
  if Py.startswith s "0x" then Py.int s 16 else Py.int s 10.

(** parse a string [(0, 1)] into a range [(min, max)]; [min] and [max] may
    be [None] to indicate an unbound range. *)
Definition parse_range (s : string) : result (option Z * option Z) :=
  if negb (Py.startswith s "(") then
    Raise (InvalidRule ("invalid range: " +:+ s))
  else if negb (Py.endswith s ")") then
    Raise (InvalidRule ("invalid range: " +:+ s))
  else
    let s := Py.drop_end 1 (Py.drop 1 s) in
    let '(min_spec, max_spec) := Py.partition s "," in
    let min_spec := Py.strip min_spec in
    let max_spec := Py.strip max_spec in
    min ← (if String.eqb min_spec "" then Ok None
           else
             min ← parse_int min_spec;
             if min <? 0 then Raise (InvalidRule "range min less than zero")
             else Ok (Some min));
    max ← (if String.eqb max_spec "" then Ok None
           else
             max ← parse_int max_spec;
             if max <? 0 then Raise (InvalidRule "range max less than zero")
             else Ok (Some max));
    match min, max with
    | Some lo, Some hi =>
        if hi <? lo then Raise (InvalidRule "range max less than min")
        else Ok (min, max)
    | _, _ => Ok (min, max)
    end.

(** [parse_feature] returns a constructor: here, the class and the arch
    that [functools.partial] presets. *)
Definition parse_feature (key : string)
  : result (FeatureClass * option string) :=
  if String.eqb key "api" then Ok (CAPI, None)
  else if String.eqb key "string" then Ok (CString, None)
  else if String.eqb key "bytes" then Ok (CBytes, None)
  else if String.eqb key "number" then Ok (CNumber, None)
  else if Py.startswith key "number/" then
    Ok (CNumber, Some (Py.partition key "/").2)
  else if String.eqb key "offset" then Ok (COffset, None)
  else if Py.startswith key "offset/" then
    Ok (COffset, Some (Py.partition key "/").2)
  else if String.eqb key "mnemonic" then Ok (CMnemonic, None)
  else if String.eqb key "basic blocks" then Ok (CBasicBlock, None)
  else if String.eqb key "characteristic" then Ok (CCharacteristic, None)
  else if String.eqb key "export" then Ok (CExport, None)
  else if String.eqb key "import" then Ok (CImport, None)
  else if String.eqb key "section" then Ok (CSection, None)
  else if String.eqb key "match" then Ok (CMatchedRule, None)
  else if String.eqb key "function-name" then Ok (CFunctionName, None)
  else Raise (InvalidRule ("unexpected statement: " +:+ key)).

(** Modelled from the spec: calling a feature constructor, [Feature(value)]
    or [Feature()]. The constructors of [capa.features] are not among the
    sources; the payload has the type the spec's table gives to the kind,
    and a payload of another type is a [ValueError] ("bad types" are a
    malformed rule). [StringFactory] builds a [String_]. *)
Definition construct (ctor : FeatureClass * option string)
    (value : option YValue) : result Feature :=
  let '(cls, arch) := ctor in
  let str (mk : string -> Feature) :=
    match value with
    | Some (YStr s) => Ok (mk s)
    | Some _ => Raise ValueError
    | None => Raise TypeError
    end in
  let num (mk : Z -> option string -> Feature) :=
    match value with
    | Some (YInt n) => Ok (mk n arch)
    | Some (YBool b) => Ok (mk (Z.b2z b) arch)
    | Some _ => Raise ValueError
    | None => Raise TypeError
    end in
  match cls with
  | CMatchedRule => str MatchedRule
  | CAPI => str API
  | CNumber => num Number
  | CString => str String_
  | CRegex => str Regex
  | CSubstring => str Substring
  | CBytes =>
      match value with
      | Some (YBytes b) => Ok (Bytes b)
      | Some _ => Raise ValueError
      | None => Raise TypeError
      end
  | COffset => num Offset
  | CMnemonic => str Mnemonic
  | CBasicBlock =>
      match value with
      | None => Ok BasicBlock
      | Some _ => Raise ValueError
      end
  | CCharacteristic => str Characteristic
  | CExport => str Export
  | CImport => str Import
  | CSection => str Section_
  | CFunctionName => str FunctionName
  end.

Definition DESCRIPTION_SEPARATOR := " = ".

(** Modelled from the spec: [capa.features.common.MAX_BYTES_FEATURE_SIZE],
    a constant defined outside the sources ("Bytes: byte sequence, length
    ≤ 100"). *)
Definition MAX_BYTES_FEATURE_SIZE : nat := 100.

(** [codecs.decode(.., "hex")]: pairs of hexadecimal digits *)
Fixpoint unhexlify (s : string) : option string :=
  match s with
  | EmptyString => Some EmptyString
  | String hi (String lo s') =>
      match Py.digit_value 16 hi, Py.digit_value 16 lo, unhexlify s' with
      | Some h, Some l, Some r =>
          Some (String (ascii_of_nat (Z.to_nat (16 * h + l))) r)
      | _, _, _ => None
      end
  | String _ EmptyString => None
  end.

(** A text that is not ASCII does not reach the decoder: [encode] raises
    [UnicodeEncodeError], which is a [ValueError] and is not caught. *)
Definition parse_bytes (s : string) : result string :=
  if negb (Py.isascii (Py.remove_spaces s)) then Raise ValueError else
  match unhexlify (Py.remove_spaces s) with
  | None =>
      Raise (InvalidRule
               ("unexpected bytes value: must be a valid hex sequence: "
                +:+ quoted s))
  | Some b =>
      if (MAX_BYTES_FEATURE_SIZE <? Py.len b)%nat then
        Raise (InvalidRule
                 "unexpected bytes value: byte sequences must be no larger than 100 bytes")
      else Ok b
  end.

Definition parse_description (s : YValue) (value_type : string)
    (description : YValue) : result (YValue * YValue) :=
  if String.eqb value_type "string" then Ok (s, description)
  else
    match s with
    | YStr str =>
        '(value, description) ←
          (if Py.contains str DESCRIPTION_SEPARATOR then
             if truthy description then
               Raise (InvalidRule
                        ("unexpected value: " +:+ quoted str
                         +:+ ", only one description allowed (inline description with `"
                         +:+ DESCRIPTION_SEPARATOR +:+ "`)"))
             else
               let '(value, description) :=
                 Py.partition str DESCRIPTION_SEPARATOR in
               if String.eqb description "" then
                 Raise (InvalidRule
                          ("unexpected value: " +:+ quoted str
                           +:+ ", description cannot be empty"))
               else Ok (value, YStr description)
           else Ok (str, description));
        if String.eqb value_type "bytes" then
          b ← parse_bytes value; Ok (YBytes b, description)
        else if String.eqb value_type "number"
                || String.eqb value_type "offset"
                || Py.startswith value_type "number/"
                || Py.startswith value_type "offset/" then
          match parse_int value with
          | Ok n => Ok (YInt n, description)
          | Raise ValueError =>
              Raise (InvalidRule
                       ("unexpected value: " +:+ quoted value
                        +:+ ", must begin with numerical value"))
          | Raise e => Raise e
          end
        else Ok (YStr value, description)
    | _ => Ok (s, description)
    end.

(** a child of the form [{"description": <description>}] *)
Definition is_description_entry (c : YValue) : bool :=
  match c with
  | YMap [(k, _)] => String.eqb k "description"
  | _ => false
  end.

Definition description_of_entry (c : YValue) : YValue :=
  match c with
  | YMap [(_, v)] => v
  | _ => YNull
  end.

(** [d.remove(description)]: drop the first description entry *)
Fixpoint remove_description_entry {X} (d : list (YValue * X))
  : list (YValue * X) :=
  match d with
  | [] => []
  | c :: d' =>
      if is_description_entry c.1 then d' else c :: remove_description_entry d'
  end.

(** [pop_statement_description_entry] on a list: the description of the
    statement and the list without its entry. The elements carry along
    what [build_statements] makes of them. *)
Definition pop_statement_description_entry {X} (d : list (YValue * X))
  : result (YValue * list (YValue * X)) :=
  match filter (fun c => is_description_entry c.1) d with
  | [] => Ok (YNull, d)
  | [description] =>
      Ok (description_of_entry description.1, remove_description_entry d)
  | _ => Raise (InvalidRule "statements can only have one description")
  end.

(** iterating a value that is not a list, each element of which would be
    handed to [build_statements]: characters and keys have no [keys()] *)
Definition non_list_children (v : YValue) : result (list Statement) :=
  match v with
  | YStr s | YBytes s =>
      if String.eqb s "" then Ok [] else Raise AttributeError
  | YMap m => match m with [] => Ok [] | _ => Raise AttributeError end
  | _ => Raise TypeError
  end.

(** [len(d[key]) != 1] and then [build_statements(d[key][0], scope)] *)
Definition only_child (v : YValue)
    (remaining : list (YValue * (string -> result Statement)))
    (msg scope : string) : result Statement :=
  match v with
  | YList _ =>
      match remaining with
      | [c] => c.2 scope
      | _ => Raise (InvalidRule msg)
      end
  | YStr s | YBytes s =>
      if (Py.len s =? 1)%nat then Raise AttributeError
      else Raise (InvalidRule msg)
  | YMap m =>
      if (length m =? 1)%nat then Raise KeyError else Raise (InvalidRule msg)
  | _ => Raise TypeError
  end.

(** the feature counted by [count(term)] or [count(term(arg))]: the
    feature, its own description, and the value that the call leaves in
    the variable [description] *)
Definition count_feature (key : string) (description : YValue)
  : result (Feature * YValue * YValue) :=
  let term := Py.drop_end 1 (Py.drop 6 key) in
  let '(term, arg) := Py.partition term "(" in
  ctor ← parse_feature term;
  if negb (String.eqb arg "") then
    let arg := Py.drop_end 1 arg in
    if negb (String.eqb term "string") then
      '(value, description) ← parse_description (YStr arg) term YNull;
      feature ← construct ctor (Some value);
      Ok (feature, description, description)
    else
      feature ← construct ctor (Some (YStr arg));
      Ok (feature, YNull, description)
  else
    feature ← construct ctor None;
    Ok (feature, YNull, description).

(** the right-hand side of a [count] statement *)
Definition count_range (feature : Statement) (count description : YValue)
  : result Statement :=
  let int_count (n : Z) :=
    Ok (Range feature (Some n) (Some n) description) in
  match count with
  | YInt n => int_count n
  | YBool b => int_count (Z.b2z b)
  | YStr count =>
      if Py.endswith count " or more" then
        min ← parse_int (Py.drop_end 8 count);
        Ok (Range feature (Some min) None description)
      else if Py.endswith count " or fewer" then
        max ← parse_int (Py.drop_end 9 count);
        Ok (Range feature None (Some max) description)
      else if Py.startswith count "(" then
        '(min, max) ← parse_range count;
        Ok (Range feature min max description)
      else Raise (InvalidRule ("unexpected range: " +:+ count))
  | YBytes _ => Raise TypeError
  | _ => Raise AttributeError
  end.

Fixpoint build_statements (d : YValue) (scope : string) {struct d}
  : result Statement :=
  match d with
  | YMap m =>
      if (2 <? length m)%nat then Raise (InvalidRule "too many statements")
      else
        match m with
        | [] => Raise IndexError
        | (key, v) :: _ =>
            (* the elements of [d[key]], when it is a list, with what
               [build_statements] makes of each at a given scope *)
            let elements : list (YValue * (string -> result Statement)) :=
              match v with
              | YList l =>
                  (fix go (l : list YValue) :=
                     match l with
                     | [] => []
                     | dd :: l' => (dd, build_statements dd) :: go l'
                     end) l
              | _ => []
              end in
            '(description, remaining) ←
              pop_statement_description_entry elements;
            (* [d[key]] after the description entry was removed *)
            let v' := match v with
                      | YList _ => YList (map fst remaining)
                      | _ => v
                      end in
            (* [[build_statements(dd, scope) for dd in d[key]]] *)
            let children : result (list Statement) :=
              match v with
              | YList _ => sequence (map (fun c => c.2 scope) remaining)
              | _ => non_list_children v
              end in
            if String.eqb key "and" then
              cs ← children; Ok (And cs description)
            else if String.eqb key "or" then
              cs ← children; Ok (Or cs description)
            else if String.eqb key "not" then
              c ← only_child v remaining
                     "not statement must have exactly one child statement"
                     scope;
              Ok (Not c description)
            else if Py.endswith key " or more" then
              count ← Py.int (Py.drop_end 7 key) 10;
              cs ← children; Ok (Some_ count cs description)
            else if String.eqb key "optional" then
              cs ← children; Ok (Some_ 0 cs description)
            else if String.eqb key "function" then
              if negb (String.eqb scope FILE_SCOPE) then
                Raise (InvalidRule
                         "function subscope supported only for file scope")
              else
                c ← only_child v remaining
                       "subscope must have exactly one child statement"
                       FUNCTION_SCOPE;
                Ok (Subscope FUNCTION_SCOPE c)
            else if String.eqb key "basic block" then
              if negb (String.eqb scope FUNCTION_SCOPE) then
                Raise (InvalidRule
                   "basic block subscope supported only for function scope")
              else
                c ← only_child v remaining
                       "subscope must have exactly one child statement"
                       BASIC_BLOCK_SCOPE;
                Ok (Subscope BASIC_BLOCK_SCOPE c)
            else if Py.startswith key "count(" && Py.endswith key ")" then
              '(feature, feature_description, description) ←
                count_feature key description;
              _ ← ensure_feature_valid_for_scope scope feature;
              count_range (Leaf feature feature_description) v' description
            else if String.eqb key "string"
                    && negb (match v' with YStr _ => true | _ => false end)
            then
              (* the message of the code has the value, which is no
                 string, formatted after [value] *)
              Raise (InvalidRule
                 "ambiguous string value, must be defined as explicit string")
            else
              ctor ← parse_feature key;
              '(value, description) ←
                parse_description v' key
                  (default YNull (dict_get m "description"));
              feature ← match construct ctor (Some value) with
                        | Raise ValueError =>
                            (* [InvalidRule(str(e))]: the text is that of
                               the error of [capa.features] *)
                            Raise (InvalidRule "invalid feature value")
                        | r => r
                        end;
              _ ← ensure_feature_valid_for_scope scope feature;
              Ok (Leaf feature description)
        end
  | _ => Raise AttributeError
  end.

(** ** Rules *)

(** [d[k]] on a document value *)
Definition getitem (d : YValue) (k : string) : result YValue :=
  match d with
  | YMap m =>
      match dict_get m k with
      | Some v => Ok v
      | None => Raise KeyError
      end
  | _ => Raise TypeError
  end.

(** [meta.get(k, default)] *)
Definition meta_get (meta : YValue) (k : string) (dflt : YValue)
  : result YValue :=
  match meta with
  | YMap m => Ok (default dflt (dict_get m k))
  | _ => Raise AttributeError
  end.

(** [len(statements) != 1] and [statements[0]] *)
Definition single_statement (statements : YValue) : result YValue :=
  let msg := "rule must begin with a single top level statement" in
  match statements with
  | YList [s] => Ok s
  | YList _ => Raise (InvalidRule msg)
  | YStr s =>
      if (Py.len s =? 1)%nat then Ok (YStr s) else Raise (InvalidRule msg)
  | YBytes b =>
      if (Py.len b =? 1)%nat
      then Ok (YInt (match b with
                     | String c _ => Z.of_nat (nat_of_ascii c)
                     | EmptyString => 0
                     end))
      else Raise (InvalidRule msg)
  | YMap m =>
      if (length m =? 1)%nat then Raise KeyError else Raise (InvalidRule msg)
  | _ => Raise TypeError
  end.

(** [scope not in SUPPORTED_FEATURES.keys()], and the message formatted
    with [{:s}] when it is not *)
Definition check_scope (scope : YValue) : result string :=
  match scope with
  | YStr s =>
      match SUPPORTED_FEATURES s with
      | Some _ => Ok s
      | None => Raise (InvalidRule (s +:+ " is not a supported scope"))
      end
  | YBool _ | YInt _ | YFloat _ => Raise ValueError
  | YNull | YBytes _ | YList _ | YMap _ => Raise TypeError
  end.

Definition is_list (v : YValue) : bool :=
  match v with YList _ => true | _ => false end.

(** [Rule.from_dict]. A document value is never an instance of
    [ceng.Subscope], so that the test on [statements[0]] never fires.
    Rule names are strings: a document with another kind of name is not
    covered, and stands here for a [TypeError]. *)
Definition from_dict (d : YValue) (definition : string) : result Rule :=
  rule ← getitem d "rule";
  meta ← getitem rule "meta";
  name ← getitem meta "name";
  scope ← meta_get meta "scope" (YStr FUNCTION_SCOPE);
  statements ← getitem rule "features";
  statement0 ← single_statement statements;
  let isinstance_Subscope (v : YValue) := false in
  if isinstance_Subscope statement0 then
    Raise (InvalidRule "top level statement may not be a subscope")
  else
    scope ← check_scope scope;
    attck ← meta_get meta "att&ck" (YList []);
    if negb (is_list attck) then
      Raise (InvalidRule "ATT&CK mapping must be a list")
    else
      mbc ← meta_get meta "mbc" (YList []);
      if negb (is_list mbc) then
        Raise (InvalidRule "MBC mapping must be a list")
      else
        statement ← build_statements statement0 scope;
        match name, meta with
        | YStr name, YMap meta => Ok (mkRule name scope statement meta definition)
        | _, _ => Raise TypeError
        end.

Section Rules.
(** [uuid.uuid4().hex]: the identifier of the [n]-th draw *)
Variable uuid4_hex : nat -> string.
(** the order in which a set of names, and a set of rules, is iterated *)
Variable set_order : gset string -> list string.
Variable rule_set_order : list Rule -> list Rule.

(** [Rule.get_dependencies]: the names of the rules this rule relies
    upon; a [match] value that is a namespace stands for the rules of the
    namespace, any other one is taken for a rule name. *)
Fixpoint dependencies_rec (namespaces : gmap string (list Rule))
    (statement : Statement) {struct statement} : gset string :=
  let children :=
    fix children (cs : list Statement) : gset string :=
      match cs with
      | [] => ∅
      | c :: cs' => dependencies_rec namespaces c ∪ children cs'
      end in
  match statement with
  | Leaf (MatchedRule value) _ =>
      match namespaces !! value with
      | Some rs => list_to_set (map name rs)
      | None => {[value]}
      end
  | Leaf _ _ => ∅
  | And cs _ | Or cs _ | Some_ _ cs _ => children cs
  | Not c _ | Range c _ _ _ | Subscope _ c => dependencies_rec namespaces c
  end.

Definition get_dependencies (self : Rule)
    (namespaces : gmap string (list Rule)) : gset string :=
  dependencies_rec namespaces (statement self).

(** the rule made from a subscope statement of the rule [self_name] *)
Definition new_subscope_rule (self_name new_name scope : string)
    (child : Statement) : Rule :=
  mkRule new_name scope child
    [("name", YStr new_name);
     ("scope", YStr scope);
     ("lib", YBool true);
     ("capa/subscope-rule", YBool true);
     ("capa/parent", YStr self_name)]
    "".

(** the first loop of [_extract_subscope_rules_rec]: each child that is
    a subscope is replaced by a [match] of a newly named rule *)
Fixpoint replace_subscopes (self_name : string) (children : list Statement)
    (n : nat) : list Statement * list Rule * nat :=
  match children with
  | [] => ([], [], n)
  | Subscope scope child :: cs =>
      let new_name := self_name +:+ "/" +:+ uuid4_hex n in
      let new_rule := new_subscope_rule self_name new_name scope child in
      let '(cs', new_rules, n') := replace_subscopes self_name cs (S n) in
      (Leaf (MatchedRule new_name) YNull :: cs', new_rule :: new_rules, n')
  | c :: cs =>
      let '(cs', new_rules, n') := replace_subscopes self_name cs n in
      (c :: cs', new_rules, n')
  end.

(** the second loop of [_extract_subscope_rules_rec] on one child: by
    then a child that was a subscope is a feature ([replaced]), into
    which the recursion [rec] does nothing *)
Definition visit_child (rec : Statement -> nat -> Statement * list Rule * nat)
    (c replaced : Statement) (n : nat) : Statement * list Rule * nat :=
  if is_Subscope c then (replaced, [], n) else rec c n.

Definition visit_children
    (rec : Statement -> nat -> Statement * list Rule * nat)
  : list Statement -> list Statement -> nat
    -> list Statement * list Rule * nat :=
  fix recurse (children replaced : list Statement) (n : nat) :=
    match children, replaced with
    | c :: cs, c1 :: cs1 =>
        let '(c2, rs, n1) := visit_child rec c c1 n in
        let '(cs2, rs', n2) := recurse cs cs1 n1 in
        (c2 :: cs2, rs ++ rs', n2)
    | _, _ => ([], [], n)
    end.

(** [_extract_subscope_rules_rec], fully consumed: the statement as it
    is mutated, the rules yielded, and the number of identifiers drawn
    so far. The first loop replaces the children that are subscopes,
    the second one visits the children. *)
Fixpoint _extract_subscope_rules_rec (self_name : string)
    (statement : Statement) (n : nat) {struct statement}
  : Statement * list Rule * nat :=
  let rec := _extract_subscope_rules_rec self_name in
  match statement with
  | Leaf _ _ => (statement, [], n)
  | And cs d =>
      let '(replaced, new_rules, n1) := replace_subscopes self_name cs n in
      let '(cs2, more, n2) := visit_children rec cs replaced n1 in
      (And cs2 d, new_rules ++ more, n2)
  | Or cs d =>
      let '(replaced, new_rules, n1) := replace_subscopes self_name cs n in
      let '(cs2, more, n2) := visit_children rec cs replaced n1 in
      (Or cs2 d, new_rules ++ more, n2)
  | Some_ k cs d =>
      let '(replaced, new_rules, n1) := replace_subscopes self_name cs n in
      let '(cs2, more, n2) := visit_children rec cs replaced n1 in
      (Some_ k cs2 d, new_rules ++ more, n2)
  | Not c d =>
      let '(replaced, new_rules, n1) := replace_subscopes self_name [c] n in
      let '(c2, more, n2) := visit_child rec c (default c (head replaced)) n1 in
      (Not c2 d, new_rules ++ more, n2)
  | Range c lo hi d =>
      let '(replaced, new_rules, n1) := replace_subscopes self_name [c] n in
      let '(c2, more, n2) := visit_child rec c (default c (head replaced)) n1 in
      (Range c2 lo hi d, new_rules ++ more, n2)
  | Subscope sc c =>
      let '(replaced, new_rules, n1) := replace_subscopes self_name [c] n in
      let '(c2, more, n2) := visit_child rec c (default c (head replaced)) n1 in
      (Subscope sc c2, new_rules ++ more, n2)
  end.

(** [Rule.extract_subscope_rules]: the mutated rule and what it yields *)
Definition extract_subscope_rules (self : Rule) (n : nat)
  : Rule * list Rule * nat :=
  let '(statement', new_rules, n') :=
    _extract_subscope_rules_rec (name self) (statement self) n in
  (mkRule (name self) (scope self) statement' (meta self) (definition self),
   new_rules, n').

Definition get_rules_with_scope (rules : list Rule) (scope_ : string)
  : list Rule :=
  List.filter (fun rule => String.eqb (scope rule) scope_) rules.

(** [{rule.name: rule for rule in rules}] *)
Definition rules_by_name (rules : list Rule) : dict Rule :=
  fold_left (fun d rule => dict_set d (name rule) rule) rules [].

(** [while namespace: ...; namespace, _, _ = namespace.rpartition("/")]:
    the keys under which a rule of this namespace is filed *)
Fixpoint namespace_keys (fuel : nat) (namespace : string) : list string :=
  match fuel with
  | O => []
  | S fuel' =>
      if String.eqb namespace "" then []
      else namespace :: namespace_keys fuel' (Py.rpartition_head namespace)
  end.

(** [namespaces[namespace].append(rule)] on a [defaultdict(list)] *)
Definition append_rule (namespaces : gmap string (list Rule))
    (namespace : string) (rule : Rule) : gmap string (list Rule) :=
  <[namespace := namespaces !!! namespace ++ [rule]]> namespaces.

Definition index_rule (namespaces : gmap string (list Rule)) (rule : Rule)
  : result (gmap string (list Rule)) :=
  match dict_get (meta rule) "namespace" with
  | None => Ok namespaces
  | Some namespace =>
      if negb (truthy namespace) then Ok namespaces
      else
        match namespace with
        | YStr s =>
            Ok (fold_left (fun nss key => append_rule nss key rule)
                  (namespace_keys (S (Py.len s)) s) namespaces)
        | YList _ | YMap _ | YBytes _ => Raise TypeError
        | _ => Raise AttributeError
        end
  end.

Definition index_rules_by_namespace (rules : list Rule)
  : result (gmap string (list Rule)) :=
  foldM index_rule rules ∅.

(** the closure [rec] of [get_rules_and_dependencies] *)
Fixpoint wanted_rec (fuel : nat) (namespaces : gmap string (list Rule))
    (by_name : dict Rule) (rule : Rule) (wanted : gset string)
  : result (gset string) :=
  match fuel with
  | O => Raise RecursionError
  | S fuel' =>
      foldM
        (fun wanted dep =>
           match dict_get by_name dep with
           | Some r => wanted_rec fuel' namespaces by_name r wanted
           | None => Raise KeyError
           end)
        (set_order (get_dependencies rule namespaces))
        ({[name rule]} ∪ wanted)
  end.

(** from the given collection of rules, select a rule and its
    dependencies (transitively). *)
Definition get_rules_and_dependencies (fuel : nat) (rules : list Rule)
    (rule_name : string) : result (list Rule) :=
  namespaces ← index_rules_by_namespace rules;
  let by_name := rules_by_name rules in
  match dict_get by_name rule_name with
  | None => Raise KeyError
  | Some rule =>
      wanted ← wanted_rec fuel namespaces by_name rule {[rule_name]};
      Ok (List.filter (fun rule => bool_decide (name rule ∈ wanted))
            (dict_values by_name))
  end.

Definition ensure_rules_are_unique (rules : list Rule) : result unit :=
  _ ← foldM
        (fun (seen : gset string) rule =>
           if bool_decide (name rule ∈ seen)
           then Raise (InvalidRule ("duplicate rule name: " +:+ name rule))
           else Ok ({[name rule]} ∪ seen))
        rules ∅;
  Ok ().

Definition ensure_rule_dependencies_are_met (rules : list Rule)
  : result unit :=
  namespaces ← index_rules_by_namespace rules;
  let by_name := rules_by_name rules in
  _ ← foldM
        (fun _ rule =>
           foldM
             (fun _ dep =>
                if dict_contains by_name dep then Ok ()
                else Raise (InvalidRule
                              ("rule " +:+ quoted (name rule)
                               +:+ " depends on missing rule "
                               +:+ quoted dep)))
             (set_order (get_dependencies rule namespaces)) ())
        (dict_values by_name) ();
  Ok ().

(** the closure [rec] of [topologically_order_rules]; the state is
    [(seen, ret)] *)
Fixpoint order_rec (fuel : nat) (namespaces : gmap string (list Rule))
    (by_name : dict Rule) (rule : Rule) (st : gset string * list Rule)
  : result (gset string * list Rule) :=
  match fuel with
  | O => Raise RecursionError
  | S fuel' =>
      if bool_decide (name rule ∈ st.1) then Ok st
      else
        st' ← foldM
                (fun st dep =>
                   match dict_get by_name dep with
                   | Some r => order_rec fuel' namespaces by_name r st
                   | None => Raise KeyError
                   end)
                (set_order (get_dependencies rule namespaces)) st;
        Ok ({[name rule]} ∪ st'.1, st'.2 ++ [rule])
  end.

(** order the given rules such that dependencies show up before
    dependents. *)
Definition topologically_order_rules (fuel : nat) (rules : list Rule)
  : result (list Rule) :=
  namespaces ← index_rules_by_namespace rules;
  let by_name := rules_by_name rules in
  st ← foldM (fun st rule => order_rec fuel namespaces by_name rule st)
         (dict_values by_name) (∅, []);
  Ok st.2.

(** [scope_rules.update(..)] on a set of rule objects. The rules handed
    to it are values of one [rules_by_name] dictionary, so that two of
    them are the same object exactly when they have the same name. *)
Definition rule_set_update (rule_set new_rules : list Rule) : list Rule :=
  fold_left
    (fun acc rule =>
       if bool_decide (name rule ∈ map name acc) then acc
       else acc ++ [rule])
    new_rules rule_set.

Definition is_subscope_rule (rule : Rule) : bool :=
  truthy (default (YBool false) (dict_get (meta rule) "capa/subscope-rule")).

(** [RuleSet._get_rules_for_scope] *)
Definition _get_rules_for_scope (fuel : nat) (rules : list Rule)
    (scope_ : string) : result (list Rule) :=
  scope_rules ←
    foldM
      (fun scope_rules rule =>
         if is_subscope_rule rule then Ok scope_rules
         else
           selected ← get_rules_and_dependencies fuel rules (name rule);
           Ok (rule_set_update scope_rules selected))
      rules [];
  ordered ← topologically_order_rules fuel (rule_set_order scope_rules);
  Ok (get_rules_with_scope ordered scope_).

Fixpoint count_subscopes (statement : Statement) : nat :=
  let children :=
    fix children (cs : list Statement) : nat :=
      match cs with
      | [] => O
      | c :: cs' => (count_subscopes c + children cs')%nat
      end in
  match statement with
  | Leaf _ _ => O
  | And cs _ | Or cs _ | Some_ _ cs _ => children cs
  | Not c _ | Range c _ _ _ => count_subscopes c
  | Subscope _ c => S (count_subscopes c)
  end.

(** the queue loop of [RuleSet._extract_subscope_rules]; [fuel] bounds
    the number of iterations *)
Fixpoint extract_loop (fuel : nat) (rules done : list Rule) (n : nat)
  : list Rule * nat :=
  match fuel, rules with
  | S fuel', rule :: rules' =>
      let '(rule', subscope_rules, n') := extract_subscope_rules rule n in
      extract_loop fuel' (rules' ++ subscope_rules) (done ++ [rule']) n'
  | _, _ => (done ++ rules, n)
  end.

(** every iteration takes one rule off the queue, and every rule that
    joins the queue takes a subscope off the statements *)
Definition extract_budget (rules : list Rule) : nat :=
  (length rules
   + list_sum (map (fun rule => count_subscopes (statement rule)) rules))%nat.

Definition _extract_subscope_rules (rules : list Rule) (n : nat)
  : list Rule * nat :=
  extract_loop (extract_budget rules) rules [] n.

(** [RuleSet.__init__]; [n] is the number of identifiers drawn so far *)
Definition RuleSet_init (fuel : nat) (rules : list Rule) (n : nat)
  : result RuleSet :=
  _ ← ensure_rules_are_unique rules;
  let rules := (_extract_subscope_rules rules n).1 in
  _ ← ensure_rule_dependencies_are_met rules;
  if (length rules =? 0)%nat then Raise (InvalidRuleSet "no rules selected")
  else
    file_rules ← _get_rules_for_scope fuel rules FILE_SCOPE;
    function_rules ← _get_rules_for_scope fuel rules FUNCTION_SCOPE;
    basic_block_rules ← _get_rules_for_scope fuel rules BASIC_BLOCK_SCOPE;
    rules_by_namespace ← index_rules_by_namespace rules;
    Ok (mkRuleSet file_rules function_rules basic_block_rules
          (rules_by_name rules) rules_by_namespace).

(** [isinstance(v, str) and tag in v] for some item of the meta *)
Definition meta_has_tag (rule : Rule) (tag : string) : bool :=
  existsb
    (fun kv => match kv.2 with
               | YStr v => Py.contains v tag
               | _ => false
               end)
    (meta rule).

(** [RuleSet.filter_rules_by_meta] *)
Definition filter_rules_by_meta (fuel : nat) (self : RuleSet)
    (tag : string) (n : nat) : result RuleSet :=
  let rules := dict_values (rules self) in
  rules_filtered ←
    foldM
      (fun rules_filtered rule =>
         if meta_has_tag rule tag then
           selected ← get_rules_and_dependencies fuel rules (name rule);
           Ok (rule_set_update rules_filtered selected)
         else Ok rules_filtered)
      rules [];
  RuleSet_init fuel (rule_set_order rules_filtered) n.

End Rules.

(** ** Loading rule files ([capa/main.py]) *)

(** What [get_rules] sees of the file system: the tests of [os.path], the
    triples [(root, dirs, files)] of [os.walk], and, for a path, the text
    of the file with the document that the YAML loader makes of it. *)
Record FileSystem : Type := mkFileSystem {
  fs_exists : string -> bool;
  fs_isfile : string -> bool;
  fs_isdir : string -> bool;
  fs_walk : string -> list (string * list string * list string);
  fs_load : string -> result (string * YValue);
}.

(** [str(e)] of an [InvalidRule] *)
Definition exn_str (e : exn) : string :=
  match e with
  | InvalidRule msg => "invalid rule: " +:+ msg
  | InvalidRuleWithPath path msg => "invalid rule: " +:+ path +:+ ": " +:+ msg
  | InvalidRuleSet msg => "invalid rule set: " +:+ msg
  | _ => ""
  end.

(** [Rule.from_yaml_file] *)
Definition from_yaml_file (fs : FileSystem) (path : string) : result Rule :=
  '(text, doc) ← fs_load fs path;
  match from_dict doc text with
  | Ok rule => Ok rule
  | Raise e =>
      if is_InvalidRule e then Raise (InvalidRuleWithPath path (exn_str e))
      else Raise e
  end.

Definition is_nursery_rule_path (path : string) : bool :=
  Py.contains path "nursery".

(** [os.path.join(root, file)] for a file name *)
Definition path_join (root file : string) : string :=
  if Py.endswith root "/" then root +:+ file else root +:+ "/" +:+ file.

(** the paths that [get_rules] collects before it loads anything *)
Definition rule_paths (fs : FileSystem) (rule_path : string) : list string :=
  if fs_isfile fs rule_path then [rule_path]
  else if fs_isdir fs rule_path then
    flat_map
      (fun '(root, dirs, files) =>
         if Py.contains root ".github" then []
         else
           map (path_join root)
             (List.filter (fun file => Py.endswith file ".yml") files))
      (fs_walk fs rule_path)
  else [].

(** the body of the loading loop: [try: .. except InvalidRule: raise
    else: ..] *)
Definition load_rule (fs : FileSystem) (rules : list Rule)
    (rule_path : string) : result (list Rule) :=
  match from_yaml_file fs rule_path with
  | Raise e => Raise e
  | Ok rule =>
      let meta := dict_set (meta rule) "capa/path" (YStr rule_path) in
      let meta :=
        if is_nursery_rule_path rule_path
        then dict_set meta "capa/nursery" (YBool true)
        else meta in
      Ok (rules ++ [mkRule (name rule) (scope rule) (statement rule) meta
                      (definition rule)])
  end.

Definition get_rules (fs : FileSystem) (rule_path : string)
  : result (list Rule) :=
  if negb (fs_exists fs rule_path) then Raise IOError
  else foldM (load_rule fs) (rule_paths fs rule_path) [].

(** ** Range evaluation

    Modelled from the spec: the test of a [Range] node of [capa.engine]
    ("matches iff min ≤ c (when min set) and c ≤ max (when max set)"),
    where [c] is the number of addresses of the feature. *)
Definition range_matches (min max : option Z) (c : Z) : bool :=
  match min with Some lo => lo <=? c | None => true end
  && match max with Some hi => c <=? hi | None => true end.

(** ** Notions used to state the properties of rules *)

(** the values of the [match] features of a statement, in the order of
    the traversal of [get_dependencies] *)
Fixpoint matched_values (statement : Statement) {struct statement}
  : list string :=
  let children :=
    fix children (cs : list Statement) : list string :=
      match cs with
      | [] => []
      | c :: cs' => matched_values c ++ children cs'
      end in
  match statement with
  | Leaf (MatchedRule value) _ => [value]
  | Leaf _ _ => []
  | And cs _ | Or cs _ | Some_ _ cs _ => children cs
  | Not c _ | Range c _ _ _ | Subscope _ c => matched_values c
  end.

(** the nodes of a statement, itself first, and those below its top *)
Fixpoint nodes (statement : Statement) {struct statement} : list Statement :=
  let children :=
    fix children (cs : list Statement) : list Statement :=
      match cs with
      | [] => []
      | c :: cs' => nodes c ++ children cs'
      end in
  statement ::
  match statement with
  | Leaf _ _ => []
  | And cs _ | Or cs _ | Some_ _ cs _ => children cs
  | Not c _ | Range c _ _ _ | Subscope _ c => nodes c
  end.

Definition nodes_below (statement : Statement) : list Statement :=
  concat (map nodes (get_children statement)).

(** what [extract_subscope_rules] yields for the subscope [Subscope
    scope child] of the rule [self_name], with the [k]-th identifier *)
Definition yielded_rule (uuid4_hex : nat -> string) (self_name : string)
    (k : nat) (scope_ : string) (child : Statement) : Rule :=
  new_subscope_rule self_name (self_name +:+ "/" +:+ uuid4_hex k) scope_ child.

(** what [_extract_subscope_rules_rec] makes of the statement [c] from
    the [n]-th identifier on: the kind of the top node stays, no subscope
    is left below it, and every rule yielded comes from a subscope below
    the top of [c] and is matched in the new statement *)
Definition extraction_ok (uuid4_hex : nat -> string) (self_name : string)
    (c : Statement) (n : nat) (res : Statement * list Rule * nat) : Prop :=
  (n <= res.2)%nat
  ∧ is_Subscope res.1.1 = is_Subscope c
  ∧ (is_Statement c = false → res.1.1 = c)
  ∧ Forall (fun x => count_subscopes x = 0%nat) (get_children res.1.1)
  ∧ ∀ R, R ∈ res.1.2 →
      ∃ k sc child, (n <= k < res.2)%nat
                    ∧ R = yielded_rule uuid4_hex self_name k sc child
                    ∧ Subscope sc child ∈ nodes_below c
                    ∧ name R ∈ matched_values res.1.1.

(** what a list of rules adds to the budget of the queue loop on top of
    its length *)
Definition subscope_weight (rules : list Rule) : nat :=
  list_sum (map (fun rule => S (count_subscopes (statement rule))) rules).

(** [key] is the namespace [namespace] or one of its ancestors: a
    non-empty prefix of it that ends where a path component ends *)
Definition namespace_prefix (key namespace : string) : Prop :=
  key ≠ "" ∧ (key = namespace ∨ ∃ rest, namespace = key +:+ "/" +:+ rest).

(** the rule is in the namespace [key] or below it *)
Definition in_namespace (key : string) (rule : Rule) : Prop :=
  ∃ namespace, dict_get (meta rule) "namespace" = Some (YStr namespace)
               ∧ namespace_prefix key namespace.

(** what the index holds once the rules [rules] are filed *)
Definition indexed (rules : list Rule)
    (namespaces : gmap string (list Rule)) : Prop :=
  (∀ v, namespaces !! v ≠ Some [])
  ∧ ∀ v r, r ∈ namespaces !!! v ↔ r ∈ rules ∧ in_namespace v r.

(** how a [match] value resolves: to the names of the rules of the
    namespace when it is one, to itself otherwise *)
Definition resolves (namespaces : gmap string (list Rule))
    (v dep : string) : Prop :=
  match namespaces !! v with
  | Some rs => dep ∈ map name rs
  | None => dep = v
  end.

(** ** Notions used to state the order of the rules *)

(** [D] occurs in the list before every occurrence of [R] *)
Definition occurs_before (l : list Rule) (D R : Rule) : Prop :=
  ∀ i, l !! i = Some R → ∃ j, (j < i)%nat ∧ l !! j = Some D.

(** [R] depends on [D]: a name that [R.get_dependencies(namespaces)]
    yields is the name of [D] in the dictionary of the rules *)
Definition depends_on (namespaces : gmap string (list Rule))
    (by_name : dict Rule) (R D : Rule) : Prop :=
  name D ∈ get_dependencies R namespaces
  ∧ dict_get by_name (name D) = Some D.

(** the state [(seen, ret)] of [topologically_order_rules]: a name that
    was seen has its rule in [ret], and a rule in [ret] is a rule of the
    dictionary and comes after the rules of all its dependencies *)
Definition order_invariant (namespaces : gmap string (list Rule))
    (by_name : dict Rule) (st : gset string * list Rule) : Prop :=
  (∀ x, x ∈ st.1 → ∃ R, dict_get by_name x = Some R ∧ R ∈ st.2)
  ∧ ∀ i r, st.2 !! i = Some r →
      dict_get by_name (name r) = Some r
      ∧ ∀ d, d ∈ get_dependencies r namespaces →
          ∃ j D, (j < i)%nat ∧ st.2 !! j = Some D
                 ∧ dict_get by_name d = Some D.

(** the names [wanted] hold all the dependencies of the rule of the
    name [x], and each of them has a rule *)
Definition closed_at (namespaces : gmap string (list Rule))
    (by_name : dict Rule) (wanted : gset string) (x : string) : Prop :=
  ∀ R, dict_get by_name x = Some R →
    ∀ d, d ∈ get_dependencies R namespaces →
      d ∈ wanted ∧ is_Some (dict_get by_name d).

(** a collection of rules of the dictionary that holds the rules of all
    the dependencies of its rules *)
Definition closed_rules (namespaces : gmap string (list Rule))
    (by_name : dict Rule) (selected : list Rule) : Prop :=
  (∀ r, r ∈ selected → r ∈ dict_values by_name)
  ∧ ∀ r, r ∈ selected → ∀ d, d ∈ get_dependencies r namespaces →
      ∃ D, dict_get by_name d = Some D ∧ D ∈ selected.

(** ** Notions used in the proofs about the recursive closures *)

(** a child of a node after the replacement: a subscope has become the
    [match] of a rule of [yielded] that has the scope and the child of
    the subscope; any other child is related by [rel] *)
Definition replaced_child (yielded : list Rule)
    (rel : Statement -> Statement -> Prop) (c c' : Statement) : Prop :=
  match c with
  | Subscope sc body =>
      ∃ R, R ∈ yielded ∧ scope R = sc ∧ statement R = body
           ∧ c' = Leaf (MatchedRule (name R)) YNull
  | _ => rel c c'
  end.

Definition replaced_children (yielded : list Rule)
    (rel : Statement -> Statement -> Prop)
  : list Statement -> list Statement -> Prop :=
  fix children (cs cs' : list Statement) : Prop :=
    match cs, cs' with
    | [], [] => True
    | c :: cs, c' :: cs' => replaced_child yielded rel c c' ∧ children cs cs'
    | _, _ => False
    end.

(** the statement [new] is the statement [old] with the subscopes that
    are children of its nodes replaced where they stand: every node keeps
    its kind, its count or its bounds, its description and the number and
    the order of its children, a feature stays as it is, and each child
    that is a subscope has become the [match] of a rule of [yielded] made
    of that subscope. What was below a replaced subscope is left to its
    rule. *)
Fixpoint replaced_in_place (yielded : list Rule) (old new : Statement)
    {struct old} : Prop :=
  let rel := replaced_in_place yielded in
  match old, new with
  | And cs d, And cs' d' => d' = d ∧ replaced_children yielded rel cs cs'
  | Or cs d, Or cs' d' => d' = d ∧ replaced_children yielded rel cs cs'
  | Some_ k cs d, Some_ k' cs' d' =>
      k' = k ∧ d' = d ∧ replaced_children yielded rel cs cs'
  | Not c d, Not c' d' => d' = d ∧ replaced_child yielded rel c c'
  | Range c lo hi d, Range c' lo' hi' d' =>
      lo' = lo ∧ hi' = hi ∧ d' = d ∧ replaced_child yielded rel c c'
  | Subscope sc c, Subscope sc' c' =>
      sc' = sc ∧ replaced_child yielded rel c c'
  | Leaf feature d, Leaf feature' d' => feature' = feature ∧ d' = d
  | _, _ => False
  end.

(** the subscopes of a statement are those that the extraction leaves
    and, for every rule it yields, one more than those of its statement *)
Definition subscopes_counted (uuid4_hex : nat -> string) (self_name : string)
    (c : Statement) : Prop :=
  ∀ n,
    count_subscopes c
    = (count_subscopes (_extract_subscope_rules_rec uuid4_hex self_name c n).1.1
       + subscope_weight
           (_extract_subscope_rules_rec uuid4_hex self_name c n).1.2)%nat.

(** the body of [for dep in rule.get_dependencies(namespaces)] in
    [topologically_order_rules] *)
Definition order_step (set_order : gset string -> list string) (fuel : nat)
    (namespaces : gmap string (list Rule)) (by_name : dict Rule)
    (st : gset string * list Rule) (dep : string)
  : result (gset string * list Rule) :=
  match dict_get by_name dep with
  | Some r => order_rec set_order fuel namespaces by_name r st
  | None => Raise KeyError
  end.

(** the state after a call of the closure: the invariant holds, [ret]
    has grown at its end and [seen] has grown *)
Definition order_post (namespaces : gmap string (list Rule))
    (by_name : dict Rule) (st st' : gset string * list Rule) : Prop :=
  order_invariant namespaces by_name st'
  ∧ (∃ more, st'.2 = st.2 ++ more) ∧ st.1 ⊆ st'.1.

(** the body of [for dep in rule.get_dependencies(namespaces)] in
    [get_rules_and_dependencies] *)
Definition wanted_step (set_order : gset string -> list string) (fuel : nat)
    (namespaces : gmap string (list Rule)) (by_name : dict Rule)
    (wanted : gset string) (dep : string) : result (gset string) :=
  match dict_get by_name dep with
  | Some r => wanted_rec set_order fuel namespaces by_name r wanted
  | None => Raise KeyError
  end.

(** the dependencies are met and there is no cycle among them: every
    dependency of a rule has a rule, of a lower rank *)
Definition ranked (namespaces : gmap string (list Rule))
    (by_name : dict Rule) (rank : string -> nat) : Prop :=
  ∀ x R, dict_get by_name x = Some R →
    ∀ d, d ∈ get_dependencies R namespaces →
      is_Some (dict_get by_name d) ∧ (rank d < rank x)%nat.

(** ** Reading the bounds of a parenthesized range *)

(** the two sides of [(min, max)], as [parse_range] cuts them *)
Definition range_specs (s : string) : string * string :=
  let specs := Py.partition (Py.drop_end 1 (Py.drop 1 s)) "," in
  (Py.strip specs.1, Py.strip specs.2).

(** a side that is empty is no bound; any other side is the integer that
    [parse_int] reads *)
Definition bound_of (spec : string) (bound : option Z) : Prop :=
  (spec = "" ∧ bound = None)
  ∨ (spec ≠ "" ∧ ∃ x, parse_int spec = Ok x ∧ bound = Some x).

(** no negative bound, and [min <= max] when both are set *)
Definition bounds_ok (min max : option Z) : Prop :=
  (∀ x, min = Some x → 0 ≤ x)
  ∧ (∀ y, max = Some y → 0 ≤ y)
  ∧ (∀ x y, min = Some x → max = Some y → x ≤ y).

(** every entry files a rule under its own name *)
Definition keyed (d : dict Rule) : Prop :=
  NoDup (dict_keys d) ∧ ∀ k rule, (k, rule) ∈ d → name rule = k.

(** ** Sample inputs *)

(** a file-scope rule whose only top-level statement is a [function]
    subscope *)
Definition top_level_subscope_document : YValue :=
  YMap [("rule",
         YMap [("meta", YMap [("name", YStr "x"); ("scope", YStr "file")]);
               ("features",
                YList [YMap [("function",
                              YList [YMap [("mnemonic", YStr "mov")]])]])])].

(** [count(mnemonic(mov)):] with nothing after the colon *)
Definition count_without_value : YValue :=
  YMap [("count(mnemonic(mov))", YNull)].

(** a rule of the name [n] that matches the rule or namespace [target] *)
Definition match_rule (n scope_ target : string) (meta_ : dict YValue) : Rule :=
  mkRule n scope_ (Leaf (MatchedRule target) YNull) meta_ "".

(** a rule of the name [n] on one mnemonic *)
Definition mnemonic_rule (n scope_ : string) (meta_ : dict YValue) : Rule :=
  mkRule n scope_ (Leaf (Mnemonic "mov") YNull) meta_ "".

(** a source of identifiers and, for the order of a set, the order of its
    elements as [elements] lists them and the order of insertion *)
Definition sample_uuid4_hex (n : nat) : string :=
  "0000000000000000000000000000000" +:+ String (ascii_of_nat (48 + n mod 10)) "".
Definition sample_set_order (names : gset string) : list string :=
  elements names.
Definition sample_rule_set_order (rule_set : list Rule) : list Rule :=
  rule_set.

(** a rule set of one rule *)
Definition sample_rule_set : RuleSet :=
  let rule := mnemonic_rule "move" FUNCTION_SCOPE
                [("name", YStr "move"); ("namespace", YStr "data/copy")] in
  mkRuleSet [] [rule] [] [("move", rule)]
    {["data/copy" := [rule]; "data" := [rule]]}.

(** a directory of three rule files, the second of which has a feature
    that does not exist *)
Definition sample_rule_document (n feature : string) : YValue :=
  YMap [("rule",
         YMap [("meta", YMap [("name", YStr n)]);
               ("features", YList [YMap [(feature, YStr "mov")]])])].

Definition sample_file_system : FileSystem :=
  mkFileSystem
    (fun path => String.eqb path "rules")
    (fun path => false)
    (fun path => String.eqb path "rules")
    (fun path => [("rules", [], ["first.yml"; "second.yml"; "third.yml";
                                 "README.md"])])
    (fun path =>
       if String.eqb path "rules/first.yml"
       then Ok ("", sample_rule_document "first" "mnemonic")
       else if String.eqb path "rules/second.yml"
       then Ok ("", sample_rule_document "second" "opcode")
       else if String.eqb path "rules/third.yml"
       then Ok ("", sample_rule_document "third" "mnemonic")
       else Raise IOError).

(** what [get_rules] makes of a loaded rule *)
Definition loaded_from (fs : FileSystem) (path : string) (rule : Rule) : Prop :=
  ∃ r, from_yaml_file fs path = Ok r
       ∧ name rule = name r ∧ scope rule = scope r
       ∧ statement rule = statement r
       ∧ dict_get (meta rule) "capa/path" = Some (YStr path).

(** the rules of the docstring of [index_rules_by_namespace], and a rule
    that matches the namespace [c2] *)
Definition sample_c2_rules : list Rule :=
  [mnemonic_rule "create reverse shell" FUNCTION_SCOPE
     [("name", YStr "create reverse shell"); ("namespace", YStr "c2/shell")];
   mnemonic_rule "download and write a file" FUNCTION_SCOPE
     [("name", YStr "download and write a file");
      ("namespace", YStr "c2/file-transfer")];
   match_rule "command and control" FUNCTION_SCOPE "c2"
     [("name", YStr "command and control")]].

Definition sample_c2_namespaces : gmap string (list Rule) :=
  match index_rules_by_namespace sample_c2_rules with
  | Ok namespaces => namespaces
  | Raise _ => ∅
  end.

(** a file rule with a function subscope that has a basic block subscope *)
Definition sample_nested_rule : Rule :=
  mkRule "packed" FILE_SCOPE
    (And [Leaf (Section_ ".upx") YNull;
          Subscope FUNCTION_SCOPE
            (Or [Leaf (API "VirtualAlloc") YNull;
                 Subscope BASIC_BLOCK_SCOPE (Leaf (Mnemonic "mov") YNull)]
                YNull)]
         YNull)
    [("name", YStr "packed"); ("scope", YStr "file")] "".

(** a function rule that matches another function rule, listed first *)
Definition sample_chain_rules : list Rule :=
  [match_rule "start" FUNCTION_SCOPE "launch" [("name", YStr "start")];
   mnemonic_rule "launch" FUNCTION_SCOPE [("name", YStr "launch")]].

Definition sample_chain_rule_set : RuleSet :=
  match RuleSet_init sample_uuid4_hex sample_set_order sample_rule_set_order
          10 sample_chain_rules 0 with
  | Ok rule_set => rule_set
  | Raise _ => mkRuleSet [] [] [] [] ∅
  end.

(** an extractor of one function of one basic block of two instructions;
    the handles are the addresses *)
Definition sample_extractor : @FeatureExtractor Z Z Z :=
  mkExtractor
    [(Export "run", None); (Export "run", Some 0);
     (Section_ ".text", Some 4096); (Section_ ".text", None)]
    (fun f => [(Characteristic "loop", f)])
    (fun f => [f])
    (fun f bb => [(Characteristic "tight loop", bb)])
    (fun f bb => [bb; bb + 2])
    (fun f bb insn => [(Mnemonic "mov", insn)]).

(** a matcher that matches the rules made of one feature that is there *)
Definition sample_engine_match (rules : list Rule) (features : FeatureSet)
    (va : Z) : FeatureSet * gmap string (list (Z * unit)) :=
  (features,
   list_to_map
     (omap (fun rule =>
              match statement rule with
              | Leaf feature _ =>
                  match features !! feature with
                  | Some _ => Some (name rule, [(va, ())])
                  | None => None
                  end
              | _ => None
              end)
        rules)).


(** ** Notions used to state the properties of the loader *)

(** the features of a statement are valid where they stand: a leaf for
    the scope around it, and a subscope only as a [function] below the
    file scope or as a [basic block] below the function scope *)
Fixpoint well_scoped (scope_ : string) (statement : Statement) {struct statement}
  : Prop :=
  let children :=
    fix children (cs : list Statement) : Prop :=
      match cs with
      | [] => True
      | c :: cs' => well_scoped scope_ c ∧ children cs'
      end in
  match statement with
  | Leaf feature _ => ensure_feature_valid_for_scope scope_ feature = Ok ()
  | And cs _ | Or cs _ | Some_ _ cs _ => children cs
  | Not c _ | Range c _ _ _ => well_scoped scope_ c
  | Subscope sc c =>
      ((scope_ = FILE_SCOPE ∧ sc = FUNCTION_SCOPE)
       ∨ (scope_ = FUNCTION_SCOPE ∧ sc = BASIC_BLOCK_SCOPE))
      ∧ well_scoped sc c
  end.

(** the characters of a string *)
Definition chars (s : string) : list ascii := String.list_ascii_of_string s.

(** whatever [build_statements] makes of the document, at whatever scope,
    is well scoped *)
Definition builds_well_scoped (dd : YValue) : Prop :=
  ∀ scope_ statement,
    build_statements dd scope_ = Ok statement → well_scoped scope_ statement.

(** ** Notions used to state the properties of rule sets *)

(** the keys under which [index_rules_by_namespace] files a rule: its
    namespace and the ancestors of it *)
Definition filed_under (rule : Rule) : list string :=
  match dict_get (meta rule) "namespace" with
  | Some (YStr s) => namespace_keys (S (Py.len s)) s
  | _ => []
  end.

(** the rule of the name [x] depends on the name [d] *)
Definition depends_on_name (namespaces : gmap string (list Rule))
    (by_name : dict Rule) (x d : string) : Prop :=
  ∃ R, dict_get by_name x = Some R ∧ d ∈ get_dependencies R namespaces.

(** every dependency of a rule has a rule *)
Definition dependencies_met (namespaces : gmap string (list Rule))
    (by_name : dict Rule) : Prop :=
  ∀ x d, depends_on_name namespaces by_name x d → is_Some (dict_get by_name d).

(** names each of which depends on one of them: from each a chain of
    dependencies goes on for ever *)
Definition cyclic (namespaces : gmap string (list Rule))
    (by_name : dict Rule) (names : gset string) : Prop :=
  ∀ x, x ∈ names → ∃ d, depends_on_name namespaces by_name x d ∧ d ∈ names.

(** two rules that match each other *)
Definition sample_cyclic_rules : list Rule :=
  [match_rule "ping" FUNCTION_SCOPE "pong" [("name", YStr "ping")];
   match_rule "pong" FUNCTION_SCOPE "ping" [("name", YStr "pong")]].

(** the rule [r'] is the rule [r] but for its statement *)
Definition same_but_statement (r r' : Rule) : Prop :=
  name r' = name r ∧ scope r' = scope r ∧ meta r' = meta r
  ∧ definition r' = definition r.

(** no subscope is left below the top of the statement of the rule *)
Definition no_subscope_below (r : Rule) : Prop :=
  Forall (fun c => count_subscopes c = 0%nat) (get_children (statement r)).

(** the rule was made from a subscope of a rule of the list, with one of
    the identifiers from the [n]-th to the one before the [n']-th: it is
    marked as a subscope rule, names its parent, and its parent matches
    it *)
Definition derived_rule (uuid4_hex : nat -> string) (n n' : nat)
    (out : list Rule) (r : Rule) : Prop :=
  is_subscope_rule r = true
  ∧ ∃ parent k,
      parent ∈ out ∧ (n <= k < n')%nat
      ∧ name r = name parent +:+ "/" +:+ uuid4_hex k
      ∧ dict_get (meta r) "capa/parent" = Some (YStr (name parent))
      ∧ name r ∈ matched_values (statement parent).

(** [len(ruleset)], [ruleset[rulename]] and [rulename in ruleset] *)
Definition RuleSet_len (self : RuleSet) : nat := length (rules self).

Definition RuleSet_getitem (self : RuleSet) (rulename : string) : result Rule :=
  match dict_get (rules self) rulename with
  | Some rule => Ok rule
  | None => Raise KeyError
  end.

Definition RuleSet_contains (self : RuleSet) (rulename : string) : bool :=
  dict_contains (rules self) rulename.

(** ** Internal rules and file limitations ([capa/main.py]) *)

(** [rule.meta.get("namespace", "")] and
    [rule.meta.get("description", "")] *)
Definition meta_namespace (rule : Rule) : YValue :=
  default (YStr "") (dict_get (meta rule) "namespace").

Definition meta_description (rule : Rule) : YValue :=
  default (YStr "") (dict_get (meta rule) "description").

(** [rule.meta.get("namespace", "").startswith("internal/")]: a value
    that is no string has no such method, and that of bytes takes no
    string *)
Definition is_internal_rule (rule : Rule) : result bool :=
  match meta_namespace rule with
  | YStr s => Ok (Py.startswith s "internal/")
  | YBytes _ => Raise TypeError
  | _ => Raise AttributeError
  end.

Definition is_file_limitation_rule (rule : Rule) : bool :=
  match meta_namespace rule with
  | YStr s => String.eqb s "internal/limitation/file"
  | _ => false
  end.

(** [s.split("\n")] *)
Fixpoint split_lines (s : string) : list string :=
  match s with
  | EmptyString => [EmptyString]
  | String c s' =>
      if Ascii.eqb c "010" then EmptyString :: split_lines s'
      else
        match split_lines s' with
        | line :: lines => String c line :: lines
        | [] => [String c EmptyString]
        end
  end.

(** ["-" * 80] *)
Definition dashes : string :=
  Eval cbv in String.concat "" (repeat "-" 80%nat).

(** the warnings of [has_file_limitation] for a rule *)
Definition limitation_warnings (rule_name description : string)
    (is_standalone : bool) : list string :=
  [dashes]
  ++ map (fun line => " " +:+ line) (split_lines description)
  ++ [" Identified via rule: " +:+ rule_name]
  ++ (if is_standalone then
        [" ";
         " Use -v or -vv if you really want to see the capabilities identified by capa."]
      else [])
  ++ [dashes].

(** the loop of [has_file_limitation] over the file limitation rules;
    the first component is what is logged as warnings *)
Fixpoint file_limitation_loop {V} (file_limitation_rules : list Rule)
    (capabilities : gmap string V) (is_standalone : bool)
  : list string * result bool :=
  match file_limitation_rules with
  | [] => ([], Ok false)
  | file_limitation_rule :: rest =>
      match capabilities !! name file_limitation_rule with
      | None => file_limitation_loop rest capabilities is_standalone
      | Some _ =>
          match meta_description file_limitation_rule with
          | YStr description =>
              (limitation_warnings (name file_limitation_rule) description
                 is_standalone,
               Ok true)
          | YBytes _ => ([dashes], Raise TypeError)
          | _ => ([dashes], Raise AttributeError)
          end
      end
  end.

Definition has_file_limitation {V} (rules_ : RuleSet)
    (capabilities : gmap string V) (is_standalone : bool)
  : list string * result bool :=
  let file_limitation_rules :=
    List.filter is_file_limitation_rule (dict_values (rules rules_)) in
  file_limitation_loop file_limitation_rules capabilities is_standalone.

(** ** The driver of a whole program ([capa/main.py]) *)

Section Capabilities.
Context {FunctionHandle BBHandle InsnHandle Result : Type}.
Variable int_of_function : FunctionHandle -> Z.
Variable int_of_bb : BBHandle -> Z.
Variable engine_match :
  list Rule -> FeatureSet -> Z -> FeatureSet * gmap string (list (Z * Result)).

Abbreviation Matches := (gmap string (list (Z * Result))).

(** what [find_capabilities] asks of the extractor on top of the
    features: the functions, and which of them are library functions,
    by their address *)
Record ProgramExtractor : Type := mkProgram {
  program_features : @FeatureExtractor FunctionHandle BBHandle InsnHandle;
  get_functions : list FunctionHandle;
  is_library_function : Z -> bool;
  get_function_name : Z -> string;
}.

(** the dictionary [meta] that [find_capabilities] returns *)
Record CapabilitiesMeta : Type := mkCapabilitiesMeta {
  feature_counts_file : nat;
  feature_counts_functions : gmap Z nat;
  library_functions : gmap Z string;
}.

(** [for rule_name, res in matches.items(): all[rule_name].extend(res)]
    on a [defaultdict(list)] *)
Definition extend_matches (all matches : Matches) : Matches :=
  fold_left
    (fun all '(rule_name, res) => <[rule_name := all !!! rule_name ++ res]> all)
    (map_to_list matches) all.

(** the body of [for f in pb]; the state is [all_function_matches],
    [all_bb_matches] and the two dictionaries of [meta] *)
Definition function_step (ruleset : RuleSet) (extractor : ProgramExtractor)
    (st : Matches * Matches * gmap Z nat * gmap Z string)
    (f : FunctionHandle) : Matches * Matches * gmap Z nat * gmap Z string :=
  let '(all_function_matches, all_bb_matches, counts, libraries) := st in
  let function_address := int_of_function f in
  if is_library_function extractor function_address then
    let function_name := get_function_name extractor function_address in
    (all_function_matches, all_bb_matches, counts,
     <[function_address := function_name]> libraries)
  else
    let '(function_matches, bb_matches, feature_count) :=
      find_function_capabilities int_of_function int_of_bb engine_match
        ruleset (program_features extractor) f in
    (extend_matches all_function_matches function_matches,
     extend_matches all_bb_matches bb_matches,
     <[function_address := feature_count]> counts,
     libraries).

(** the state when the loop over the functions is done *)
Definition analyze_functions (ruleset : RuleSet)
    (extractor : ProgramExtractor)
  : Matches * Matches * gmap Z nat * gmap Z string :=
  fold_left (function_step ruleset extractor) (get_functions extractor)
    (∅, ∅, ∅, ∅).

(** [{MatchedRule(rule_name): set(map(lambda p: p[0], results)) for
    rule_name, results in items}]: a later item of a name replaces an
    earlier one *)
Definition matched_rule_features (items : list (string * list (Z * Result)))
  : FeatureSet :=
  fold_left
    (fun features '(rule_name, results) =>
       <[MatchedRule rule_name := list_to_set (map fst results)]> features)
    items ∅.

Definition function_and_lower_features (all_function_matches
    all_bb_matches : Matches) : FeatureSet :=
  matched_rule_features
    (map_to_list all_function_matches ++ map_to_list all_bb_matches).

(** [{rule_name: results for rule_name, results in items}] *)
Definition merge_matches (items : list (string * list (Z * Result)))
  : Matches :=
  fold_left (fun matches '(rule_name, results) =>
               <[rule_name := results]> matches) items ∅.

Definition find_capabilities (ruleset : RuleSet)
    (extractor : ProgramExtractor) : Matches * CapabilitiesMeta :=
  let '(all_function_matches, all_bb_matches, counts, libraries) :=
    analyze_functions ruleset extractor in
  let '(all_file_matches, feature_count) :=
    find_file_capabilities engine_match ruleset
      (program_features extractor)
      (function_and_lower_features all_function_matches all_bb_matches) in
  (merge_matches (map_to_list all_bb_matches
                  ++ map_to_list all_function_matches
                  ++ map_to_list all_file_matches),
   mkCapabilitiesMeta feature_count counts libraries).

(** the functions that are analyzed: those that are no library
    functions *)
Definition analyzed_functions (extractor : ProgramExtractor)
  : list FunctionHandle :=
  List.filter
    (fun f => negb (is_library_function extractor (int_of_function f)))
    (get_functions extractor).
End Capabilities.


(** * Properties of the match driver *)

Section DriverFacts.
Context {FunctionHandle BBHandle InsnHandle Result : Type}.
Variable int_of_function : FunctionHandle -> Z.
Variable int_of_bb : BBHandle -> Z.
Variable engine_match :
  list Rule -> FeatureSet -> Z -> FeatureSet * gmap string (list (Z * Result)).

Abbreviation Extractor :=
  (@FeatureExtractor FunctionHandle BBHandle InsnHandle).

Lemma add_address_total (features : FeatureSet) feature va feature' :
  add_address features feature va !!! feature'
  = if decide (feature = feature')
    then {[va]} ∪ features !!! feature
    else features !!! feature'.
Proof.
  unfold add_address. rewrite !lookup_total_alt, lookup_insert.
  case_decide; subst; reflexivity.
Qed.

Lemma add_address_is_Some (features : FeatureSet) feature va feature' :
  is_Some (add_address features feature va !! feature')
  ↔ feature = feature' ∨ is_Some (features !! feature').
Proof.
  unfold add_address. rewrite lookup_insert. case_decide; subst.
  - split; eauto.
  - split; [eauto | intros [? | ?]; [congruence | done]].
Qed.

Lemma file_feature_step_is_Some (features : FeatureSet) f va feature :
  is_Some (file_feature_step features (f, va) !! feature)
  ↔ is_Some (features !! feature) ∨ f = feature.
Proof.
  unfold file_feature_step.
  destruct (match va with Some a => negb (a =? 0) | None => false end).
  - rewrite add_address_is_Some. tauto.
  - destruct (features !! f) eqn:Hf.
    + split; [tauto |]. intros [H | <-]; [done |]. rewrite Hf. eauto.
    + rewrite lookup_insert. case_decide; subst.
      * split; eauto.
      * split; [tauto |]. intros [H' | H']; [done | congruence].
Qed.

Lemma file_feature_step_total (features : FeatureSet) f va feature va' :
  va' ∈ file_feature_step features (f, va) !!! feature
  ↔ va' ∈ features !!! feature ∨ (f = feature ∧ va = Some va' ∧ va' ≠ 0).
Proof.
  unfold file_feature_step.
  destruct va as [a |]; cbn [default].
  - destruct (a =? 0) eqn:Ha; cbn [negb].
    + apply Z.eqb_eq in Ha. subst a.
      destruct (features !! f) eqn:Hf.
      * split; [tauto |]. intros [H' | (_ & [= <-] & H')]; [done | lia].
      * rewrite !lookup_total_alt, lookup_insert. case_decide; subst.
        -- rewrite Hf. cbn. split; [set_solver |].
           intros [H' | (_ & [= <-] & H')]; [set_solver | lia].
        -- split; [tauto |]. intros [H' | (? & _)]; [done | congruence].
    + apply Z.eqb_neq in Ha. rewrite add_address_total.
      case_decide; subst.
      * rewrite elem_of_union, elem_of_singleton.
        split; [intros [-> | H']; eauto | intros [H' | (_ & [= <-] & _)]; eauto].
      * split; [tauto |]. intros [H' | (? & _)]; [done | congruence].
  - destruct (features !! f) eqn:Hf.
    + split; [tauto |]. intros [H' | (_ & [=] & _)]; done.
    + rewrite !lookup_total_alt, lookup_insert. case_decide; subst.
      * rewrite Hf. cbn. split; [set_solver |].
        intros [H' | (_ & [=] & _)]; set_solver.
      * split; [tauto |]. intros [H' | (? & _)]; [done | congruence].
Qed.

(** what the loop over the file features has recorded after the items
    [items], started from [features] *)
Lemma file_feature_fold (items : list (Feature * option Z))
    (features : FeatureSet) (feature : Feature) :
  let features' := fold_left file_feature_step items features in
  (is_Some (features' !! feature)
   ↔ is_Some (features !! feature) ∨ feature ∈ map fst items)
  ∧ (∀ va, va ∈ features' !!! feature
           ↔ va ∈ features !!! feature
             ∨ (va ≠ 0 ∧ (feature, Some va) ∈ items)).
Proof.
  revert features. induction items as [| [f va] items IH]; intros features.
  - simpl. split; [| intros va']; split; eauto.
    + intros [H | H]; [done | inversion H].
    + intros [H | [_ H]]; [done | inversion H].
  - cbn [fold_left map fst].
    specialize (IH (file_feature_step features (f, va))).
    cbv zeta in IH. destruct IH as [IH1 IH2]. split.
    + rewrite IH1, file_feature_step_is_Some, elem_of_cons. naive_solver.
    + intros va'.
      rewrite IH2, file_feature_step_total, elem_of_cons. naive_solver.
Qed.

(** ** Feature sets only grow *)

Lemma fs_sub_refl a : fs_sub a a.
Proof. by intros ? ?. Qed.

Lemma fs_sub_trans a b c : fs_sub a b → fs_sub b c → fs_sub a c.
Proof. intros Hab Hbc ? ? ?. eauto. Qed.

Lemma add_address_sub features feature va :
  fs_sub features (add_address features feature va).
Proof.
  intros f' va' H. rewrite add_address_total.
  case_decide; subst; [set_solver | done].
Qed.

Lemma add_address_elem features feature va :
  va ∈ add_address features feature va !!! feature.
Proof. rewrite add_address_total. rewrite decide_True by done. set_solver. Qed.

Lemma add_items_sub items features :
  fs_sub features (fold_left add_item items features).
Proof.
  revert features. induction items as [| item items IH]; intros features.
  - apply fs_sub_refl.
  - simpl. eapply fs_sub_trans; [apply add_address_sub | apply IH].
Qed.

Lemma add_items_elem items features feature va :
  (feature, va) ∈ items → va ∈ fold_left add_item items features !!! feature.
Proof.
  revert features. induction items as [| item items IH]; intros features H.
  - inversion H.
  - simpl. apply elem_of_cons in H as [<- | H]; [| by apply IH].
    apply add_items_sub. apply add_address_elem.
Qed.

Lemma add_both_fold items (a b : FeatureSet) :
  fold_left add_both items (a, b)
  = (fold_left add_item items a, fold_left add_item items b).
Proof.
  revert a b. induction items as [| item items IH]; intros a b; [done |].
  simpl. unfold add_both at 2. simpl. apply IH.
Qed.

Lemma gather_basic_block_items (extractor : Extractor) f bb features :
  gather_basic_block extractor f bb features
  = (fold_left add_item (basic_block_items extractor f bb) ∅,
     fold_left add_item (basic_block_items extractor f bb) features).
Proof.
  unfold gather_basic_block, basic_block_items.
  rewrite add_both_fold, !fold_left_app.
  generalize (fold_left add_item
                (extract_basic_block_features extractor f bb) ∅).
  generalize (fold_left add_item
                (extract_basic_block_features extractor f bb) features).
  induction (get_instructions extractor f bb) as [| insn insns IH];
    intros a b; [done |].
  simpl. rewrite add_both_fold, !fold_left_app. apply IH.
Qed.

Lemma basic_block_items_elem (extractor : Extractor) f bb feature va :
  (feature, va) ∈ extract_basic_block_features extractor f bb
  ∨ (∃ insn, insn ∈ get_instructions extractor f bb
             ∧ (feature, va) ∈ extract_insn_features extractor f bb insn)
  → (feature, va) ∈ basic_block_items extractor f bb.
Proof.
  unfold basic_block_items. rewrite elem_of_app.
  intros [H | (insn & Hinsn & H)]; [by left | right].
  apply list_elem_of_In, in_concat.
  exists (extract_insn_features extractor f bb insn).
  split; [apply in_map; by apply list_elem_of_In | by apply list_elem_of_In].
Qed.

Lemma add_match_addresses_sub rule_name (res : list (Z * Result)) features :
  fs_sub features (add_match_addresses rule_name features res).
Proof.
  unfold add_match_addresses. revert features.
  induction res as [| [va r] res IH]; intros features.
  - apply fs_sub_refl.
  - simpl. eapply fs_sub_trans; [apply add_address_sub | apply IH].
Qed.

Lemma add_match_addresses_elem rule_name (res : list (Z * Result)) features va r :
  (va, r) ∈ res
  → va ∈ add_match_addresses rule_name features res !!! MatchedRule rule_name.
Proof.
  unfold add_match_addresses. revert features.
  induction res as [| [va' r'] res IH]; intros features H.
  - inversion H.
  - simpl. apply elem_of_cons in H as [[= <- <-] | H]; [| by apply IH].
    apply (add_match_addresses_sub rule_name res). apply add_address_elem.
Qed.

Lemma record_fold_sub (items : list (string * list (Z * Result))) st :
  fs_sub st.1 (fold_left record_step items st).1.
Proof.
  revert st. induction items as [| item items IH]; intros st.
  - apply fs_sub_refl.
  - simpl. eapply fs_sub_trans; [| apply IH].
    apply add_match_addresses_sub.
Qed.

Lemma record_fold_elem (items : list (string * list (Z * Result))) st rule_name res va r :
  (rule_name, res) ∈ items → (va, r) ∈ res
  → va ∈ (fold_left record_step items st).1 !!! MatchedRule rule_name.
Proof.
  revert st. induction items as [| item items IH]; intros st H Hres.
  - inversion H.
  - simpl. apply elem_of_cons in H as [<- | H]; [| by apply IH].
    apply record_fold_sub. simpl. by eapply add_match_addresses_elem.
Qed.

Lemma record_bb_matches_fold (matches : gmap string (list (Z * Result))) st :
  record_bb_matches matches st
  = fold_left record_step (map_to_list matches) st.
Proof.
  unfold record_bb_matches. revert st.
  induction (map_to_list matches) as [| [rule_name res] items IH];
    intros st; [done |].
  simpl. rewrite IH. reflexivity.
Qed.

Lemma basic_block_step_spec ruleset (extractor : Extractor) f st bb :
  let items := basic_block_items extractor f bb in
  let bb_features := fold_left add_item items ∅ in
  let matches :=
    (engine_match (basic_block_rules ruleset) bb_features (int_of_bb bb)).2 in
  basic_block_step int_of_bb engine_match ruleset extractor f st bb
  = fold_left record_step (map_to_list matches)
      (fold_left add_item items st.1, st.2).
Proof.
  intros items bb_features matches.
  unfold basic_block_step. rewrite gather_basic_block_items.
  fold items. fold bb_features.
  subst matches. destruct (engine_match _ bb_features _) as [? matches].
  apply record_bb_matches_fold.
Qed.

Lemma basic_block_step_sub ruleset (extractor : Extractor) f st bb :
  fs_sub st.1
    (basic_block_step int_of_bb engine_match ruleset extractor f st bb).1.
Proof.
  rewrite basic_block_step_spec.
  eapply fs_sub_trans; [| apply record_fold_sub]. apply add_items_sub.
Qed.

Lemma basic_block_fold_sub ruleset (extractor : Extractor) f bbs st :
  fs_sub st.1
    (fold_left (basic_block_step int_of_bb engine_match ruleset extractor f)
       bbs st).1.
Proof.
  revert st. induction bbs as [| bb bbs IH]; intros st.
  - apply fs_sub_refl.
  - simpl. eapply fs_sub_trans; [apply basic_block_step_sub | apply IH].
Qed.

Lemma basic_block_fold_elem ruleset (extractor : Extractor) f bbs bb st :
  bb ∈ bbs →
  let final :=
    fold_left (basic_block_step int_of_bb engine_match ruleset extractor f)
      bbs st in
  let bb_features := fold_left add_item (basic_block_items extractor f bb) ∅ in
  (∀ feature va, (feature, va) ∈ basic_block_items extractor f bb
                 → va ∈ final.1 !!! feature)
  ∧ (∀ rule_name res va r,
       (engine_match (basic_block_rules ruleset) bb_features (int_of_bb bb)).2
         !! rule_name = Some res
       → (va, r) ∈ res → va ∈ final.1 !!! MatchedRule rule_name).
Proof.
  revert st. induction bbs as [| bb' bbs IH]; intros st Hbb.
  - inversion Hbb.
  - apply elem_of_cons in Hbb as [<- | Hbb]; [| by apply IH].
    cbn [fold_left]. split.
    + intros feature va Hin. apply basic_block_fold_sub.
      rewrite basic_block_step_spec. apply record_fold_sub. simpl.
      by apply add_items_elem.
    + intros rule_name res va r Hres Hin. apply basic_block_fold_sub.
      rewrite basic_block_step_spec.
      eapply record_fold_elem; [| exact Hin].
      by apply elem_of_map_to_list.
Qed.

(** C2: in [find_function_capabilities], whatever the extractor reports
    for a basic block or for one of its instructions is in the feature
    set of the basic block and in the feature set of the function, and
    for every rule matched on a basic block the addresses of its matches
    are in the function's feature set under [MatchedRule(rule_name)],
    all this in the very feature set that the function rules are matched
    against. *)
Theorem find_function_capabilities_features ruleset (extractor : Extractor)
    (f : FunctionHandle) :
  let st :=
    function_features_and_bb_matches int_of_bb engine_match ruleset
      extractor f in
  find_function_capabilities int_of_function int_of_bb engine_match
    ruleset extractor f
  = ((engine_match (function_rules ruleset) st.1 (int_of_function f)).2,
     st.2, size st.1)
  ∧ ∀ bb, bb ∈ get_basic_blocks extractor f →
      ∃ bb_features : FeatureSet,
        (∀ function_features,
           (gather_basic_block extractor f bb function_features).1
           = bb_features)
        ∧ (∀ feature va,
             (feature, va) ∈ extract_basic_block_features extractor f bb
             ∨ (∃ insn, insn ∈ get_instructions extractor f bb
                        ∧ (feature, va)
                            ∈ extract_insn_features extractor f bb insn)
             → va ∈ bb_features !!! feature ∧ va ∈ st.1 !!! feature)
        ∧ (∀ rule_name res va r,
             (engine_match (basic_block_rules ruleset) bb_features
                (int_of_bb bb)).2 !! rule_name = Some res
             → (va, r) ∈ res → va ∈ st.1 !!! MatchedRule rule_name).
Proof.
  intros st. split.
  - unfold find_function_capabilities. fold st.
    destruct st as [function_features bb_matches]. simpl.
    by destruct (engine_match _ function_features _).
  - intros bb Hbb.
    exists (fold_left add_item (basic_block_items extractor f bb) ∅).
    split; [intros ff; by rewrite gather_basic_block_items |].
    pose proof (basic_block_fold_elem ruleset extractor f _ bb
                  (fold_left
                     (fun ff '(feature, va) => add_address ff feature va)
                     (extract_function_features extractor f) ∅, ∅) Hbb)
      as [Hitems Hmatches].
    split.
    + intros feature va Hin. apply basic_block_items_elem in Hin.
      split; [by apply add_items_elem | by apply Hitems].
    + intros rule_name res va r Hres Hin. by eapply Hmatches.
Qed.

(** C9: in [find_file_capabilities], a feature that the extractor
    reports is recorded, with exactly the nonzero addresses it is
    reported with: an address [None] or [0] only makes the feature show
    up, with an empty set when it has no other address. The features
    that are matched are these, under the entries promoted from the
    functions. *)
Theorem find_file_capabilities_addresses ruleset (extractor : Extractor)
    (function_features : FeatureSet) (feature : Feature) :
  let items := extract_file_features extractor in
  let collected := collect_file_features extractor in
  (is_Some (collected !! feature) ↔ ∃ va, (feature, va) ∈ items)
  ∧ (∀ va, va ∈ collected !!! feature ↔ va ≠ 0 ∧ (feature, Some va) ∈ items)
  ∧ ((∃ va, (feature, va) ∈ items)
     → (∀ va, (feature, va) ∈ items → va = None ∨ va = Some 0)
     → collected !! feature = Some ∅)
  ∧ find_file_capabilities engine_match ruleset extractor function_features
    = ((engine_match (file_rules ruleset)
          (function_features ∪ collected) 0).2,
       size (function_features ∪ collected))
  ∧ (function_features !! feature = None
     → (function_features ∪ collected) !! feature = collected !! feature).
Proof.
  intros items collected.
  pose proof (file_feature_fold items ∅ feature) as [Hsome Htotal].
  change (fold_left file_feature_step items ∅) with collected in Hsome, Htotal.
  assert (Hdom : is_Some (collected !! feature) ↔ ∃ va, (feature, va) ∈ items).
  { rewrite Hsome, lookup_empty. split.
    - intros [[? [=]] | Hin]. apply list_elem_of_fmap in Hin as ([f va] & -> & Hin).
      by exists va.
    - intros [va Hin]. right. apply list_elem_of_fmap. by exists (feature, va). }
  assert (Hmem : ∀ va, va ∈ collected !!! feature
                       ↔ va ≠ 0 ∧ (feature, Some va) ∈ items).
  { intros va. rewrite Htotal, lookup_total_empty. set_solver. }
  split; [exact Hdom |]. split; [exact Hmem |]. split; [| split].
  - intros Hreported Hzero. apply Hdom in Hreported as [addresses Hlook].
    rewrite Hlook. f_equal. apply set_eq. intros va.
    specialize (Hmem va). rewrite lookup_total_alt, Hlook in Hmem. simpl in Hmem.
    rewrite Hmem. split; [| set_solver].
    intros [Hne Hin]. apply Hzero in Hin as [[=] | [= ->]]. done.
  - unfold find_file_capabilities, file_features_at_match. fold collected.
    by destruct (engine_match _ _ _).
  - intros Hnone. by rewrite lookup_union_r.
Qed.

End DriverFacts.

(** the file features of [sample_extractor]: the export, reported without
    an address and at the address 0, has no address *)
Example collect_file_features_sample :
  collect_file_features sample_extractor
  = {[Export "run" := ∅; Section_ ".text" := {[4096]}]}.
Proof. vm_compute. reflexivity. Qed.

(** the features of the function at 4096 of [sample_extractor] when the
    function rules are matched, with the match of the rule [move] on its
    basic block *)
Example function_features_sample :
  (function_features_and_bb_matches (fun bb => bb) sample_engine_match
     (mkRuleSet [] [] [mnemonic_rule "move" BASIC_BLOCK_SCOPE []] [] ∅)
     sample_extractor 4096).1
  = {[Characteristic "loop" := {[4096]};
      Characteristic "tight loop" := {[4096]};
      Mnemonic "mov" := {[4096; 4098]};
      MatchedRule "move" := {[4096]}]}.
Proof. vm_compute. reflexivity. Qed.


(** * Properties of the string operations *)

Module PyFacts.

Lemma prefix_spec (p s : string) :
  String.prefix p s = true ↔ ∃ post, s = p +:+ post.
Proof.
  revert p. induction s as [| b s IH]; intros [| a p]; simpl.
  - split; [by exists "" | done].
  - split; [done | by intros [post [=]]].
  - split; [by eexists | done].
  - destruct (ascii_dec a b) as [-> | Hne].
    + rewrite IH. split; intros [post H]; exists post; simpl in *; [by rewrite H | by injection H].
    + split; [done | intros [post H]; simpl in H; injection H as H1 H2; by destruct Hne].
Qed.

Lemma find_nil (tag : string) :
  Py.find tag "" = if String.prefix tag "" then Some O else None.
Proof. reflexivity. Qed.

Lemma find_cons (tag : string) (c : ascii) (v : string) :
  Py.find tag (String c v)
  = if String.prefix tag (String c v) then Some O else S <$> Py.find tag v.
Proof. reflexivity. Qed.

Lemma find_Some (tag v : string) (i : nat) :
  Py.find tag v = Some i → ∃ pre post, v = pre +:+ tag +:+ post.
Proof.
  revert i. induction v as [| c v IH]; intros i.
  - rewrite find_nil. destruct (String.prefix tag "") eqn:Hp; [| done].
    intros _. apply prefix_spec in Hp as [post Hp]. by exists "", post.
  - rewrite find_cons. destruct (String.prefix tag (String c v)) eqn:Hp.
    + intros _. apply prefix_spec in Hp as [post ->]. by exists "", post.
    + destruct (Py.find tag v) as [j |]; [| done]. intros _.
      destruct (IH j eq_refl) as (pre & post & ->).
      by exists (String c pre), post.
Qed.

Lemma find_None (tag v pre post : string) :
  Py.find tag v = None → v ≠ pre +:+ tag +:+ post.
Proof.
  revert pre. induction v as [| c v IH]; intros pre.
  - rewrite find_nil. destruct (String.prefix tag "") eqn:Hp; [done |].
    intros _ Heq. destruct pre; [| done]. simpl in Heq.
    assert (String.prefix tag "" = true); [| congruence].
    apply prefix_spec. by exists post.
  - rewrite find_cons.
    destruct (String.prefix tag (String c v)) eqn:Hp; [done |].
    destruct (Py.find tag v) eqn:Hf; [done |]. intros _ Heq.
    destruct pre as [| c' pre]; simpl in Heq.
    + assert (String.prefix tag (String c v) = true); [| congruence].
      apply prefix_spec. by exists post.
    + injection Heq as -> ->. by eapply IH.
Qed.

(** [tag in v] holds exactly when [tag] is a substring of [v] *)
Lemma contains_spec (v tag : string) :
  Py.contains v tag = true ↔ ∃ pre post, v = pre +:+ tag +:+ post.
Proof.
  unfold Py.contains. destruct (Py.find tag v) eqn:Hf.
  - split; [intros _; by eapply find_Some | done].
  - split; [done | intros (pre & post & H)]. by eapply find_None in Hf.
Qed.

Lemma last_char_drop (k : nat) (s : string) :
  Py.drop k s ≠ "" → Py.last_char (Py.drop k s) = Py.last_char s.
Proof.
  revert s. induction k as [| k IH]; intros s; [done |].
  destruct s as [| c s]; simpl; [done |]. intros H.
  rewrite IH by done. destruct s; [by destruct k | done].
Qed.

Lemma endswith_last_char (s p : string) :
  Py.endswith s p = true → p ≠ "" → Py.last_char s = Py.last_char p.
Proof.
  unfold Py.endswith. intros [_ H]%andb_prop Hp.
  apply String.eqb_eq in H.
  transitivity (Py.last_char (Py.drop (Py.len s - Py.len p) s)); [| by rewrite H].
  symmetry. apply last_char_drop. by rewrite H.
Qed.

End PyFacts.

(** * Properties of the rule loader *)

(** C6: a file-scope document whose single top-level statement is a
    [function] subscope is loaded, by [Rule.from_dict], into a rule whose
    statement is that subscope: the test that should reject it looks at
    the document, which is never a [Subscope]. *)
Theorem from_dict_top_level_subscope :
  from_dict top_level_subscope_document ""
  = Ok (mkRule "x" "file"
          (Subscope "function" (Leaf (Mnemonic "mov") YNull))
          [("name", YStr "x"); ("scope", YStr "file")] "").
Proof. reflexivity. Qed.

Lemma count_key_dispatch (key : string) :
  Py.startswith key "count(" = true → Py.endswith key ")" = true →
  String.eqb key "and" = false ∧ String.eqb key "or" = false
  ∧ String.eqb key "not" = false ∧ Py.endswith key " or more" = false
  ∧ String.eqb key "optional" = false ∧ String.eqb key "function" = false
  ∧ String.eqb key "basic block" = false.
Proof.
  intros Hstart Hend.
  assert (Py.endswith key " or more" = false) as Hmore.
  { destruct (Py.endswith key " or more") eqn:H; [| done].
    apply PyFacts.endswith_last_char in H; [| done].
    apply PyFacts.endswith_last_char in Hend; [| done].
    rewrite Hend in H. discriminate. }
  apply PyFacts.prefix_spec in Hstart as [rest ->].
  repeat split; done.
Qed.

Lemma build_statements_count (key : string) (rhs : YValue)
    (rest : list (string * YValue)) (scope : string) :
  Py.startswith key "count(" = true → Py.endswith key ")" = true →
  (length rest ≤ 1)%nat → is_list rhs = false →
  build_statements (YMap ((key, rhs) :: rest)) scope
  = '(feature, feature_description, description) ← count_feature key YNull;
    _ ← ensure_feature_valid_for_scope scope feature;
    count_range (Leaf feature feature_description) rhs description.
Proof.
  intros Hstart Hend Hrest Hrhs.
  destruct (count_key_dispatch key Hstart Hend)
    as (Hand & Hor & Hnot & Hmore & Hopt & Hfun & Hbb).
  assert ((2 <? length ((key, rhs) :: rest))%nat = false) as Hlen.
  { apply Nat.ltb_ge. simpl. lia. }
  destruct rhs; try discriminate Hrhs;
    cbn -[count_feature count_range ensure_feature_valid_for_scope
          Py.endswith Py.startswith String.eqb Nat.ltb length];
    rewrite Hlen, Hand, Hor, Hnot, Hmore, Hopt, Hfun, Hbb, Hstart, Hend;
    reflexivity.
Qed.

Lemma parse_range_unclosed (s : string) :
  Py.startswith s "(" = false ∨ Py.endswith s ")" = false →
  parse_range s = Raise (InvalidRule ("invalid range: " +:+ s)).
Proof.
  unfold parse_range. intros [-> | H]; [done |].
  destruct (Py.startswith s "("); [| done]. by rewrite H.
Qed.

Lemma parse_range_bounds (s : string) (lo hi : option Z) :
  Py.startswith s "(" = true → Py.endswith s ")" = true →
  bound_of (range_specs s).1 lo → bound_of (range_specs s).2 hi →
  (bounds_ok lo hi → parse_range s = Ok (lo, hi))
  ∧ (¬ bounds_ok lo hi → ∃ msg, parse_range s = Raise (InvalidRule msg)).
Proof.
  intros Hstart Hend Hlo Hhi. unfold parse_range. rewrite Hstart, Hend.
  cbn [negb]. unfold range_specs in Hlo, Hhi. cbn [fst snd] in Hlo, Hhi.
  destruct (Py.partition (Py.drop_end 1 (Py.drop 1 s)) ",")
    as [min_spec max_spec]. cbn [fst snd] in Hlo, Hhi.
  unfold bounds_ok.
  destruct Hlo as [[-> ->] | (Hlo & x & -> & ->)];
    destruct Hhi as [[-> ->] | (Hhi & y & -> & ->)]; cbn.
  - split; [done |]. intros H. destruct H. repeat split; done.
  - apply String.eqb_neq in Hhi. rewrite Hhi. cbn.
    destruct (y <? 0) eqn:Hy; cbn.
    + apply Z.ltb_lt in Hy. split; [| by eauto].
      intros (_ & H & _). specialize (H y eq_refl). lia.
    + apply Z.ltb_ge in Hy. split; [done |].
      intros H. destruct H. repeat split; intros; simplify_eq; done.
  - apply String.eqb_neq in Hlo. rewrite Hlo. cbn.
    destruct (x <? 0) eqn:Hx; cbn.
    + apply Z.ltb_lt in Hx. split; [| by eauto].
      intros (H & _). specialize (H x eq_refl). lia.
    + apply Z.ltb_ge in Hx. split; [done |].
      intros H. destruct H. repeat split; intros; simplify_eq; done.
  - apply String.eqb_neq in Hlo, Hhi. rewrite Hlo, Hhi. cbn.
    destruct (x <? 0) eqn:Hx; cbn.
    { apply Z.ltb_lt in Hx. split; [| by eauto].
      intros (H & _). specialize (H x eq_refl). lia. }
    destruct (y <? 0) eqn:Hy; cbn.
    { apply Z.ltb_lt in Hy. split; [| by eauto].
      intros (_ & H & _). specialize (H y eq_refl). lia. }
    apply Z.ltb_ge in Hx, Hy.
    destruct (y <? x) eqn:Hyx; cbn.
    + apply Z.ltb_lt in Hyx. split; [| by eauto].
      intros (_ & _ & H). specialize (H x y eq_refl eq_refl). lia.
    + apply Z.ltb_ge in Hyx. split; [done |].
      intros H. destruct H. repeat split; intros; simplify_eq; done.
Qed.



(** C5: a right-hand side that the [count] branch does not provide for
    does not reach the [InvalidRule] that the last case of the branch
    raises. For [count(mnemonic(mov)):] with nothing after the colon the
    value is [None], which has no [endswith]: [build_statements] raises
    [AttributeError], not [InvalidRule], and builds no range. A numeral
    that does not read, as in [many or more], leaves as the [ValueError]
    of [int], which [parse_description] turns into an [InvalidRule] for
    the value of a feature; and the negative bound of [-1 or more], which
    [parse_range] refuses in [(-1, )], makes a range. *)
Theorem build_statements_count_null :
  build_statements count_without_value "function" = Raise AttributeError
  ∧ ¬ (∃ msg, build_statements count_without_value "function"
              = Raise (InvalidRule msg))
  ∧ ¬ (∃ statement, build_statements count_without_value "function"
                    = Ok statement)
  ∧ build_statements (YMap [("count(mnemonic(mov))", YStr "many or more")])
      "function"
    = Raise ValueError
  ∧ (∃ msg, parse_description (YStr "many") "number" YNull
            = Raise (InvalidRule msg))
  ∧ build_statements (YMap [("count(mnemonic(mov))", YStr "-1 or more")])
      "function"
    = Ok (Range (Leaf (Mnemonic "mov") YNull) (Some (-1)) None YNull)
  ∧ build_statements (YMap [("count(mnemonic(mov))", YStr "(-1, )")])
      "function"
    = Raise (InvalidRule "range min less than zero").
Proof.
  split; [reflexivity |].
  split; [intros [msg H]; vm_compute in H; discriminate |].
  split; [intros [statement H]; vm_compute in H; discriminate |].
  split; [reflexivity |]. split; [eexists; reflexivity |].
  split; reflexivity.
Qed.


(** * Dictionaries and monadic folds *)

Lemma bind_Ok {A B} (m : result A) (k : A → result B) (b : B) :
  m ≫= k = Ok b → ∃ a, m = Ok a ∧ k a = Ok b.
Proof. destruct m as [a | e]; [by exists a | done]. Qed.

Lemma foldM_app {A S} (f : S → A → result S) (l1 l2 : list A) (s : S) :
  foldM f (l1 ++ l2) s = foldM f l1 s ≫= foldM f l2.
Proof.
  revert s. induction l1 as [| a l1 IH]; intros s; [done |].
  simpl. destruct (f s a) as [s' | e]; [apply IH | done].
Qed.

(** a loop whose body checks every element and keeps no state *)
Lemma foldM_check {A} (g : A → result unit) (l : list A) :
  (foldM (fun _ a => g a) l () = Ok () ∧ ∀ a, a ∈ l → g a = Ok ())
  ∨ (∃ a e, a ∈ l ∧ g a = Raise e ∧ foldM (fun _ a => g a) l () = Raise e).
Proof.
  induction l as [| a l IH].
  - left. split; [done | by intros a ?%elem_of_nil].
  - simpl. destruct (g a) as [[] | e] eqn:Ha.
    + destruct IH as [[IH1 IH2] | (a' & e & Hin & Ha' & IH)].
      * left. split; [done |]. by intros a' [-> | ?]%elem_of_cons; eauto.
      * right. exists a', e. by rewrite elem_of_cons; eauto.
    + right. exists a, e. by rewrite elem_of_cons; eauto.
Qed.

Section DictFacts.
Context {V : Type}.
Implicit Types (d : dict V) (k : string) (v : V).

Lemma dict_get_set d k v k' :
  dict_get (dict_set d k v) k' = if decide (k = k') then Some v else dict_get d k'.
Proof.
  induction d as [| [k0 v0] d IH]; simpl.
  - case_decide; subst; [by rewrite String.eqb_refl |].
    by apply String.eqb_neq in H as ->.
  - destruct (String.eqb k0 k) eqn:Hk; simpl.
    + apply String.eqb_eq in Hk as ->.
      case_decide; subst; [by rewrite String.eqb_refl |].
      by apply String.eqb_neq in H as ->.
    + destruct (String.eqb k0 k') eqn:Hk'; [| exact IH].
      apply String.eqb_eq in Hk' as ->. apply String.eqb_neq in Hk.
      by rewrite decide_False by congruence.
Qed.

Lemma dict_get_None d k : dict_get d k = None ↔ k ∉ dict_keys d.
Proof.
  induction d as [| [k0 v0] d IH]; simpl.
  - split; [intros _ ?%elem_of_nil; done | done].
  - rewrite not_elem_of_cons. destruct (String.eqb k0 k) eqn:Hk.
    + apply String.eqb_eq in Hk as ->. split; [done | by intros []].
    + apply String.eqb_neq in Hk. rewrite IH. split; [by split | by intros []].
Qed.

Lemma dict_set_fresh d k v :
  dict_get d k = None → dict_set d k v = d ++ [(k, v)].
Proof.
  induction d as [| [k0 v0] d IH]; simpl; [done |].
  destruct (String.eqb k0 k); [done |]. intros H. by rewrite IH.
Qed.

Lemma dict_get_Some_elem d k v : dict_get d k = Some v → (k, v) ∈ d.
Proof.
  induction d as [| [k0 v0] d IH]; simpl; [done |].
  destruct (String.eqb k0 k) eqn:Hk.
  - apply String.eqb_eq in Hk as ->. intros [= ->]. apply list_elem_of_here.
  - intros H. apply list_elem_of_further. by apply IH.
Qed.

Lemma dict_get_elem d k v :
  NoDup (dict_keys d) → (k, v) ∈ d → dict_get d k = Some v.
Proof.
  induction d as [| [k0 v0] d IH]; simpl.
  - by intros _ ?%elem_of_nil.
  - intros [Hk0 Hd]%NoDup_cons [[= -> ->] | Hin]%elem_of_cons.
    + by rewrite String.eqb_refl.
    + destruct (String.eqb k0 k) eqn:Hk; [| by apply IH].
      apply String.eqb_eq in Hk as ->. destruct Hk0.
      apply list_elem_of_fmap. by exists (k, v).
Qed.

Lemma dict_keys_set d k v :
  dict_keys (dict_set d k v)
  = if bool_decide (k ∈ dict_keys d) then dict_keys d else dict_keys d ++ [k].
Proof.
  induction d as [| [k0 v0] d IH]; simpl; [done |].
  destruct (String.eqb k0 k) eqn:Hk; simpl.
  - apply String.eqb_eq in Hk as ->.
    by rewrite bool_decide_true by apply list_elem_of_here.
  - apply String.eqb_neq in Hk. rewrite IH.
    destruct (bool_decide (k ∈ dict_keys d)) eqn:Hin.
    + apply bool_decide_eq_true in Hin.
      by rewrite bool_decide_true by by apply list_elem_of_further.
    + apply bool_decide_eq_false in Hin.
      rewrite bool_decide_false; [done |].
      rewrite elem_of_cons. by intros [-> | ?].
Qed.

Lemma dict_set_NoDup d k v :
  NoDup (dict_keys d) → NoDup (dict_keys (dict_set d k v)).
Proof.
  intros Hd. rewrite dict_keys_set. case_bool_decide; [done |].
  apply NoDup_app. split; [done |]. split; [| apply NoDup_singleton].
  by intros k' Hk' ->%list_elem_of_singleton.
Qed.
End DictFacts.

(** ** The dictionary of the rules by name *)

Lemma rules_by_name_fold_keyed (rules : list Rule) (d : dict Rule) :
  keyed d → keyed (fold_left (fun d rule => dict_set d (name rule) rule) rules d).
Proof.
  revert d. induction rules as [| rule rules IH]; intros d Hd; [done |].
  simpl. apply IH. destruct Hd as [Hnd Hd]. split; [by apply dict_set_NoDup |].
  intros k rule' Hin.
  assert (dict_get (dict_set d (name rule) rule) k = Some rule') as Hget.
  { apply dict_get_elem; [by apply dict_set_NoDup | done]. }
  rewrite dict_get_set in Hget. case_decide; [congruence |].
  by apply Hd, dict_get_Some_elem.
Qed.

Lemma rules_by_name_keyed (rules : list Rule) : keyed (rules_by_name rules).
Proof.
  apply rules_by_name_fold_keyed. split; [apply NoDup_nil_2 |].
  by intros ? ? ?%elem_of_nil.
Qed.

Lemma keyed_get_name (d : dict Rule) (k : string) (rule : Rule) :
  keyed d → dict_get d k = Some rule → name rule = k.
Proof. intros [_ Hd] H. by apply Hd, dict_get_Some_elem. Qed.

Lemma keyed_get_value (d : dict Rule) (rule : Rule) :
  keyed d → rule ∈ dict_values d → dict_get d (name rule) = Some rule.
Proof.
  intros [Hnd Hd] ([k r] & -> & Hin)%list_elem_of_fmap. simpl.
  rewrite (Hd _ _ Hin). by apply dict_get_elem.
Qed.

Lemma dict_get_value {V} (d : dict V) (k : string) (v : V) :
  dict_get d k = Some v → v ∈ dict_values d.
Proof.
  intros H%dict_get_Some_elem. apply list_elem_of_fmap. by exists (k, v).
Qed.

Lemma rules_by_name_fold_elem (rules : list Rule) (d : dict Rule) rule :
  rule ∈ dict_values (fold_left (fun d rule => dict_set d (name rule) rule) rules d)
  → rule ∈ dict_values d ∨ rule ∈ rules.
Proof.
  revert d. induction rules as [| r rules IH]; intros d; [by left |].
  simpl. intros [H | H]%IH; [| right; by apply list_elem_of_further].
  apply list_elem_of_fmap in H as ([k v] & -> & Hin). simpl.
  assert (keyed_or : (k, v) ∈ d ∨ v = r).
  { clear IH. induction d as [| [k0 v0] d IHd]; simpl in Hin.
    - apply list_elem_of_singleton in Hin as [= _ ->]. by right.
    - destruct (String.eqb k0 (name r)).
      + apply elem_of_cons in Hin as [[= -> ->] | Hin]; [by right |].
        left. by apply list_elem_of_further.
      + apply elem_of_cons in Hin as [[= -> ->] | Hin];
          [left; apply list_elem_of_here |].
        destruct (IHd Hin) as [? | ?]; [left | by right].
        by apply list_elem_of_further. }
  destruct keyed_or as [Hin' | ->].
  - left. apply list_elem_of_fmap. by exists (k, v).
  - right. apply list_elem_of_here.
Qed.

Lemma rules_by_name_elem (rules : list Rule) (rule : Rule) :
  rule ∈ dict_values (rules_by_name rules) → rule ∈ rules.
Proof.
  intros [H | H]%rules_by_name_fold_elem; [| done]. by apply elem_of_nil in H.
Qed.

(** without two rules of one name, the dictionary lists the rules *)
Lemma rules_by_name_NoDup (rules : list Rule) :
  NoDup (map name rules) →
  rules_by_name rules = map (fun rule => (name rule, rule)) rules.
Proof.
  unfold rules_by_name.
  assert (∀ d : dict Rule,
            NoDup (dict_keys d ++ map name rules) →
            fold_left (fun d rule => dict_set d (name rule) rule) rules d
            = d ++ map (fun rule => (name rule, rule)) rules) as Hgen.
  { induction rules as [| rule rules IH]; intros d Hd; simpl.
    - by rewrite app_nil_r.
    - rewrite IH.
      + rewrite dict_set_fresh; [by rewrite <- app_assoc |].
        apply dict_get_None. simpl in Hd.
        apply NoDup_app in Hd as (_ & Hd & _). intros Hin.
        apply (Hd _ Hin). apply list_elem_of_here.
      + rewrite dict_set_fresh.
        * unfold dict_keys. rewrite map_app. simpl. rewrite <- app_assoc.
          exact Hd.
        * apply dict_get_None. simpl in Hd.
          apply NoDup_app in Hd as (_ & Hd & _). intros Hin.
          apply (Hd _ Hin). apply list_elem_of_here. }
  intros Hnd. by apply (Hgen []).
Qed.

Lemma rules_by_name_values (rules : list Rule) :
  NoDup (map name rules) → dict_values (rules_by_name rules) = rules.
Proof.
  intros H. rewrite rules_by_name_NoDup by done.
  unfold dict_values. rewrite map_map. simpl. apply map_id.
Qed.

Lemma rules_by_name_get (rules : list Rule) (rule : Rule) :
  NoDup (map name rules) → rule ∈ rules →
  dict_get (rules_by_name rules) (name rule) = Some rule.
Proof.
  intros Hnd Hin. apply keyed_get_value; [apply rules_by_name_keyed |].
  by rewrite rules_by_name_values.
Qed.

Lemma rules_by_name_keys (rules : list Rule) (k : string) :
  k ∈ dict_keys (rules_by_name rules) ↔ k ∈ map name rules.
Proof.
  unfold rules_by_name.
  assert (∀ d : dict Rule,
            k ∈ dict_keys
                  (fold_left (fun d rule => dict_set d (name rule) rule) rules d)
            ↔ k ∈ dict_keys d ∨ k ∈ map name rules) as Hgen.
  { induction rules as [| rule rules IH]; intros d; simpl.
    - rewrite elem_of_nil. tauto.
    - rewrite IH, dict_keys_set, elem_of_cons. case_bool_decide.
      + split; [tauto |]. intros [? | [-> | ?]]; tauto.
      + rewrite elem_of_app, list_elem_of_singleton. tauto. }
  rewrite Hgen. simpl. rewrite elem_of_nil. tauto.
Qed.


(** * Properties of rule sets *)

Section UniqueNames.
Lemma ensure_rules_are_unique_fold (rules : list Rule) (seen : gset string) :
  let loop :=
    foldM (fun (seen : gset string) rule =>
             if bool_decide (name rule ∈ seen)
             then Raise (InvalidRule ("duplicate rule name: " +:+ name rule))
             else Ok ({[name rule]} ∪ seen)) rules seen in
  (NoDup (map name rules) ∧ (∀ n, n ∈ map name rules → n ∉ seen)
   → ∃ seen', loop = Ok seen')
  ∧ (¬ (NoDup (map name rules) ∧ (∀ n, n ∈ map name rules → n ∉ seen))
     → ∃ rule, rule ∈ rules
               ∧ loop = Raise (InvalidRule
                                 ("duplicate rule name: " +:+ name rule))).
Proof.
  revert seen. induction rules as [| rule rules IH]; intros seen; simpl.
  - split; [by eauto |]. intros H. destruct H.
    split; [apply NoDup_nil_2 | by intros n ?%elem_of_nil].
  - case_bool_decide as Hseen; simpl.
    + split.
      * intros [_ H]. destruct (H (name rule)); [| done].
        apply list_elem_of_here.
      * intros _. exists rule. split; [apply list_elem_of_here | done].
    + destruct (IH ({[name rule]} ∪ seen)) as [IH1 IH2]. split.
      * intros [[Hnew Hnd]%NoDup_cons Hfresh]. apply IH1. split; [done |].
        intros n Hn. rewrite not_elem_of_union, not_elem_of_singleton.
        split; [by intros -> | apply Hfresh; by apply list_elem_of_further].
      * intros Hbad. destruct IH2 as (r & Hr & ->);
          [| exists r; split; [by apply list_elem_of_further | done]].
        intros [Hnd Hfresh]. apply Hbad. split.
        -- apply NoDup_cons. split; [| done]. intros Hin.
           apply (Hfresh _ Hin). set_solver.
        -- intros n [-> | Hn]%elem_of_cons; [done |].
           specialize (Hfresh _ Hn). set_solver.
Qed.

Lemma ensure_rules_are_unique_spec (rules : list Rule) :
  (NoDup (map name rules) → ensure_rules_are_unique rules = Ok ())
  ∧ (¬ NoDup (map name rules)
     → ∃ rule, rule ∈ rules
               ∧ ensure_rules_are_unique rules
                 = Raise (InvalidRule
                            ("duplicate rule name: " +:+ name rule))).
Proof.
  unfold ensure_rules_are_unique.
  destruct (ensure_rules_are_unique_fold rules ∅) as [H1 H2].
  cbv zeta in H1, H2. split.
  - intros Hnd. destruct H1 as [seen' ->]; [| done].
    split; [done | set_solver].
  - intros Hbad. destruct H2 as (rule & Hrule & ->); [by intros [? _] |].
    by exists rule.
Qed.

Lemma meta_has_tag_false (rule : Rule) (tag : string) :
  (∀ k v, (k, YStr v) ∈ meta rule → ¬ ∃ pre post, v = pre +:+ tag +:+ post)
  → meta_has_tag rule tag = false.
Proof.
  unfold meta_has_tag. generalize (meta rule). intros m.
  induction m as [| [k v] m IH]; intros H; [done |].
  cbn [existsb snd]. rewrite IH.
  - rewrite orb_false_r. destruct v as [| | | | s | | |]; try done.
    destruct (Py.contains s tag) eqn:Hc; [| done].
    apply PyFacts.contains_spec in Hc.
    destruct (H k s (list_elem_of_here _ _) Hc).
  - intros k' v' Hin. apply (H k' v'). by apply list_elem_of_further.
Qed.

End UniqueNames.

Section RuleSetFacts.
Variable uuid4_hex : nat → string.
Variable set_order : gset string → list string.
Variable rule_set_order : list Rule → list Rule.
(** whatever the order, iterating a set visits its elements *)
Hypothesis set_order_perm : ∀ names, set_order names ≡ₚ elements names.
Hypothesis rule_set_order_perm : ∀ rule_set, rule_set_order rule_set ≡ₚ rule_set.

Lemma set_order_elem (names : gset string) (n : string) :
  n ∈ set_order names ↔ n ∈ names.
Proof. by rewrite set_order_perm, elem_of_elements. Qed.

(** the loop of [filter_rules_by_meta] keeps nothing when no rule has
    the tag *)
Lemma filter_loop_no_tag (fuel : nat) (all rules acc : list Rule) (tag : string) :
  (∀ rule, rule ∈ rules → meta_has_tag rule tag = false) →
  foldM
    (fun rules_filtered rule =>
       if meta_has_tag rule tag then
         selected ← get_rules_and_dependencies set_order fuel all (name rule);
         Ok (rule_set_update rules_filtered selected)
       else Ok rules_filtered)
    rules acc = Ok acc.
Proof.
  induction rules as [| rule rules IH]; intros Htag; [done |].
  simpl. rewrite Htag by apply list_elem_of_here. simpl.
  apply IH. intros r Hr. apply Htag. by apply list_elem_of_further.
Qed.

Lemma RuleSet_init_empty (fuel n : nat) :
  RuleSet_init uuid4_hex set_order rule_set_order fuel [] n
  = Raise (InvalidRuleSet "no rules selected").
Proof. reflexivity. Qed.

(** C10: when the tag occurs in no string-valued field of the meta of
    any rule of the set, [filter_rules_by_meta] does not return an
    empty rule set: it raises [InvalidRuleSet], the selection being
    empty. *)
Theorem filter_rules_by_meta_no_match (fuel : nat) (self : RuleSet)
    (tag : string) (n : nat) :
  (∀ rule k v, rule ∈ dict_values (rules self) → (k, YStr v) ∈ meta rule →
               ¬ ∃ pre post, v = pre +:+ tag +:+ post) →
  filter_rules_by_meta uuid4_hex set_order rule_set_order fuel self tag n
  = Raise (InvalidRuleSet "no rules selected").
Proof.
  intros Htag. unfold filter_rules_by_meta.
  rewrite filter_loop_no_tag.
  - simpl. specialize (rule_set_order_perm []).
    apply Permutation_nil_r in rule_set_order_perm as ->.
    apply RuleSet_init_empty.
  - intros rule Hrule. apply meta_has_tag_false. intros k v. by apply (Htag rule k v).
Qed.

Lemma ensure_rule_dependencies_missing (rules : list Rule)
    (namespaces : gmap string (list Rule)) (rule : Rule) (dep : string) :
  NoDup (map name rules) →
  index_rules_by_namespace rules = Ok namespaces →
  rule ∈ rules → dep ∈ get_dependencies rule namespaces →
  dep ∉ map name rules →
  ∃ msg, ensure_rule_dependencies_are_met set_order rules
         = Raise (InvalidRule msg).
Proof.
  intros Hnd Hindex Hrule Hdep Hmissing.
  unfold ensure_rule_dependencies_are_met. rewrite Hindex. cbn.
  rewrite rules_by_name_values by done.
  set (check_dep := fun (rule : Rule) (dep : string) =>
         if dict_contains (rules_by_name rules) dep then Ok ()
         else Raise (InvalidRule
                       ("rule " +:+ quoted (name rule)
                        +:+ " depends on missing rule " +:+ quoted dep))).
  set (check_rule := fun rule : Rule =>
         foldM (fun _ dep => check_dep rule dep)
           (set_order (get_dependencies rule namespaces)) ()).
  change (∃ msg, foldM (fun _ rule => check_rule rule) rules ()
                   ≫= (fun _ => Ok ())
                 = Raise (InvalidRule msg)).
  assert (Hinner : ∀ r e, check_rule r = Raise e → ∃ msg, e = InvalidRule msg).
  { intros r e He. unfold check_rule in He.
    destruct (foldM_check (check_dep r)
                (set_order (get_dependencies r namespaces)))
      as [[Hok _] | (d & e' & _ & Hd & Hraise)]; [congruence |].
    rewrite Hraise in He. injection He as <-.
    unfold check_dep in Hd. destruct (dict_contains _ d); simplify_eq.
    by eauto. }
  destruct (foldM_check check_rule rules)
    as [[_ Hall] | (r & e & _ & Hr & ->)].
  - specialize (Hall rule Hrule). unfold check_rule in Hall.
    destruct (foldM_check (check_dep rule)
                (set_order (get_dependencies rule namespaces)))
      as [[_ Hdeps] | (d & e' & _ & _ & Hraise)]; [| congruence].
    specialize (Hdeps dep). rewrite set_order_elem in Hdeps.
    specialize (Hdeps Hdep). unfold check_dep, dict_contains in Hdeps.
    destruct (dict_get (rules_by_name rules) dep) eqn:Hget; [| done].
    destruct Hmissing. apply rules_by_name_keys.
    apply dec_stable. intros Hnot. apply dict_get_None in Hnot. congruence.
  - destruct (Hinner r e Hr) as [msg ->]. by exists msg.
Qed.

(** C8, as the code has it: constructing a rule set from no rule raises
    [InvalidRuleSet]; two rules of one name raise [InvalidRule]; and so
    does, once the subscopes are extracted and the namespaces indexed, a
    rule that depends on a name for which there is no rule. *)
Theorem RuleSet_init_errors (fuel n : nat) :
  RuleSet_init uuid4_hex set_order rule_set_order fuel [] n
  = Raise (InvalidRuleSet "no rules selected")
  ∧ (∀ rules, ¬ NoDup (map name rules) →
       ∃ rule, rule ∈ rules
               ∧ RuleSet_init uuid4_hex set_order rule_set_order fuel rules n
                 = Raise (InvalidRule
                            ("duplicate rule name: " +:+ name rule)))
  ∧ (∀ rules namespaces rule dep,
       let extracted := (_extract_subscope_rules uuid4_hex rules n).1 in
       NoDup (map name extracted) →
       index_rules_by_namespace extracted = Ok namespaces →
       rule ∈ extracted → dep ∈ get_dependencies rule namespaces →
       dep ∉ map name extracted →
       ∃ msg, RuleSet_init uuid4_hex set_order rule_set_order fuel rules n
              = Raise (InvalidRule msg)).
Proof.
  split; [apply RuleSet_init_empty |]. split.
  - intros rules Hdup. unfold RuleSet_init.
    destruct (proj2 (ensure_rules_are_unique_spec rules) Hdup)
      as (rule & Hrule & ->).
    by exists rule.
  - intros rules namespaces rule dep extracted Hnd Hindex Hrule Hdep Hmissing.
    unfold RuleSet_init.
    destruct (decide (NoDup (map name rules))) as [Hunique | Hdup].
    + rewrite (proj1 (ensure_rules_are_unique_spec rules) Hunique).
      cbn. fold extracted.
      destruct (ensure_rule_dependencies_missing extracted namespaces rule
                  dep) as [msg ->]; [done .. |].
      by eauto.
    + destruct (proj2 (ensure_rules_are_unique_spec rules) Hdup)
        as (r & _ & ->).
      by eauto.
Qed.

End RuleSetFacts.

(** no field of the meta of the rule of [sample_rule_set] holds [zzz] *)
Lemma filter_rules_by_meta_no_match_witness :
  filter_rules_by_meta sample_uuid4_hex sample_set_order sample_rule_set_order
    5%nat sample_rule_set "zzz" 0%nat
  = Raise (InvalidRuleSet "no rules selected").
Proof.
  apply (filter_rules_by_meta_no_match sample_uuid4_hex sample_set_order
           sample_rule_set_order (fun rule_set => Permutation_refl rule_set)).
  intros rule k v Hrule Hmeta (pre & post & Hv).
  cbn in Hrule. apply list_elem_of_singleton in Hrule. subst rule.
  assert (Py.contains v "zzz" = true) as Hc
    by (apply PyFacts.contains_spec; eauto).
  cbn in Hmeta.
  apply elem_of_cons in Hmeta as [Hmeta | Hmeta];
    [| apply list_elem_of_singleton in Hmeta];
    injection Hmeta as _ Hmeta; subst v; vm_compute in Hc; discriminate Hc.
Defined.

(** a rule that matches [launch], of which there is no rule *)
Lemma RuleSet_init_errors_witness :
  ∃ msg,
    RuleSet_init sample_uuid4_hex sample_set_order sample_rule_set_order 5%nat
      [match_rule "start" FUNCTION_SCOPE "launch" []] 0%nat
    = Raise (InvalidRule msg).
Proof.
  pose proof (RuleSet_init_errors sample_uuid4_hex sample_set_order
                sample_rule_set_order
                (fun names => Permutation_refl (elements names)) 5%nat 0%nat)
    as (_ & _ & H).
  apply (H [match_rule "start" FUNCTION_SCOPE "launch" []] ∅
           (match_rule "start" FUNCTION_SCOPE "launch" []) "launch").
  - apply NoDup_singleton.
  - reflexivity.
  - apply list_elem_of_here.
  - apply elem_of_singleton. reflexivity.
  - intros Hin. apply list_elem_of_singleton in Hin. discriminate Hin.
Defined.

(** C8, as stated, fails for two rules of one name: the error is an
    [InvalidRule], not an [InvalidRuleSet]. *)
Lemma RuleSet_init_duplicate_name :
  let rules := [mnemonic_rule "move" FUNCTION_SCOPE [];
                mnemonic_rule "move" FUNCTION_SCOPE []] in
  RuleSet_init sample_uuid4_hex sample_set_order sample_rule_set_order 5%nat
    rules 0%nat
  = Raise (InvalidRule "duplicate rule name: move")
  ∧ ¬ (∃ msg, RuleSet_init sample_uuid4_hex sample_set_order
                sample_rule_set_order 5%nat rules 0%nat
              = Raise (InvalidRuleSet msg)).
Proof.
  split; [reflexivity |]. intros [msg H]. vm_compute in H. discriminate H.
Qed.


(** * Properties of [get_rules] *)

Lemma load_rule_Ok (fs : FileSystem) (rules : list Rule) (path : string) (r : Rule) :
  from_yaml_file fs path = Ok r →
  ∃ rule, load_rule fs rules path = Ok (rules ++ [rule])
          ∧ loaded_from fs path rule.
Proof.
  intros Hr. unfold load_rule. rewrite Hr. eexists. split; [reflexivity |].
  exists r. split; [done |]. cbn. repeat split.
  destruct (is_nursery_rule_path path).
  - rewrite !dict_get_set. by rewrite decide_False, decide_True.
  - rewrite dict_get_set. by rewrite decide_True.
Qed.

Lemma load_rules_Ok (fs : FileSystem) (paths : list string) (acc : list Rule) :
  (∀ p, p ∈ paths → ∃ r, from_yaml_file fs p = Ok r) →
  ∃ rules, foldM (load_rule fs) paths acc = Ok (acc ++ rules)
           ∧ Forall2 (loaded_from fs) paths rules.
Proof.
  revert acc. induction paths as [| p paths IH]; intros acc Hall.
  - exists []. by rewrite app_nil_r.
  - destruct (Hall p (list_elem_of_here _ _)) as [r Hr].
    destruct (load_rule_Ok fs acc p r Hr) as (rule & Hload & Hrule).
    destruct (IH (acc ++ [rule])) as (rules & Hfold & Hrules).
    { intros p' Hp'. apply Hall. by apply list_elem_of_further. }
    exists (rule :: rules). simpl. rewrite Hload. simpl.
    rewrite Hfold, <- app_assoc. split; [done | by constructor].
Qed.

(** C7, as the code has it: [get_rules] hands on the error of the first
    file that does not load, an [InvalidRule] with the path of the file
    when its rule is invalid, and returns no list then; it returns the
    rules of the files, in the order of the walk, only when every file
    loads. *)
Theorem get_rules_all_or_nothing (fs : FileSystem) (rule_path : string) :
  fs_exists fs rule_path = true →
  (∀ before path after e,
     rule_paths fs rule_path = before ++ path :: after →
     (∀ p, p ∈ before → ∃ r, from_yaml_file fs p = Ok r) →
     from_yaml_file fs path = Raise e →
     get_rules fs rule_path = Raise e)
  ∧ (∀ path text doc e,
       fs_load fs path = Ok (text, doc) → from_dict doc text = Raise e →
       is_InvalidRule e = true →
       from_yaml_file fs path = Raise (InvalidRuleWithPath path (exn_str e)))
  ∧ ((∀ p, p ∈ rule_paths fs rule_path → ∃ r, from_yaml_file fs p = Ok r) →
     ∃ rules, get_rules fs rule_path = Ok rules
              ∧ Forall2 (loaded_from fs) (rule_paths fs rule_path) rules).
Proof.
  intros Hexists. unfold get_rules. rewrite Hexists. cbn [negb].
  split; [| split].
  - intros before path after e Hpaths Hbefore Hpath.
    rewrite Hpaths, foldM_app.
    destruct (load_rules_Ok fs before [] Hbefore) as (rules & -> & _).
    cbn. unfold load_rule. by rewrite Hpath.
  - intros path text doc e Hload Hdoc He.
    unfold from_yaml_file. rewrite Hload. cbn. by rewrite Hdoc, He.
  - intros Hall.
    destruct (load_rules_Ok fs (rule_paths fs rule_path) [] Hall)
      as (rules & Hfold & Hrules).
    by exists rules.
Qed.

(** the second file of [sample_file_system] has an invalid rule *)
Lemma get_rules_all_or_nothing_witness :
  get_rules sample_file_system "rules"
  = Raise (InvalidRuleWithPath "rules/second.yml"
             "invalid rule: unexpected statement: opcode").
Proof.
  pose proof (get_rules_all_or_nothing sample_file_system "rules" eq_refl)
    as (H & _ & _).
  apply (H ["rules/first.yml"] "rules/second.yml" ["rules/third.yml"]).
  - reflexivity.
  - intros p Hp. apply list_elem_of_singleton in Hp. subst p.
    eexists. reflexivity.
  - reflexivity.
Defined.

(** C7, as stated, fails: with one invalid file among three, [get_rules]
    returns no list at all, although the first and the third file load. *)
Lemma get_rules_invalid_file :
  rule_paths sample_file_system "rules"
  = ["rules/first.yml"; "rules/second.yml"; "rules/third.yml"]
  ∧ (∃ r, from_yaml_file sample_file_system "rules/first.yml" = Ok r)
  ∧ (∃ r, from_yaml_file sample_file_system "rules/third.yml" = Ok r)
  ∧ (∃ msg, from_yaml_file sample_file_system "rules/second.yml"
            = Raise (InvalidRuleWithPath "rules/second.yml" msg))
  ∧ ¬ (∃ rules, get_rules sample_file_system "rules" = Ok rules).
Proof.
  split; [reflexivity |].
  split; [eexists; reflexivity |].
  split; [eexists; reflexivity |].
  split; [eexists; reflexivity |].
  intros [rules H]. vm_compute in H. discriminate H.
Qed.


(** * Namespaces and dependencies *)

Module NamespaceFacts.

Lemma append_cons (x : ascii) (a b : string) :
  String x a +:+ b = String x (a +:+ b).
Proof. reflexivity. Qed.

Lemma append_assoc (a b c : string) : (a +:+ b) +:+ c = a +:+ b +:+ c.
Proof.
  induction a as [| x a IH]; [done |]. by rewrite !append_cons, IH.
Qed.

Lemma length_append (a b : string) :
  String.length (a +:+ b) = (String.length a + String.length b)%nat.
Proof.
  induction a as [| x a IH]; [done |]. rewrite append_cons. simpl.
  by rewrite IH.
Qed.

Lemma rpartition_slash_cons (x : ascii) (s : string) :
  Py.rpartition_slash (String x s)
  = match Py.rpartition_slash s with
    | Some h => Some (String x h)
    | None => if Ascii.eqb x "/" then Some "" else None
    end.
Proof. reflexivity. Qed.

Lemma rpartition_slash_app (h t : string) :
  Py.rpartition_slash (h +:+ "/" +:+ t)
  = match Py.rpartition_slash t with
    | Some h' => Some (h +:+ "/" +:+ h')
    | None => Some h
    end.
Proof.
  induction h as [| x h IH].
  - change ("" +:+ "/" +:+ t) with (String "/" t).
    rewrite rpartition_slash_cons. by destruct (Py.rpartition_slash t).
  - rewrite append_cons, rpartition_slash_cons, IH.
    by destruct (Py.rpartition_slash t).
Qed.

Lemma rpartition_slash_Some (s h : string) :
  Py.rpartition_slash s = Some h →
  ∃ t, s = h +:+ "/" +:+ t ∧ Py.rpartition_slash t = None.
Proof.
  revert h. induction s as [| x s IH]; intros h; [done |].
  rewrite rpartition_slash_cons.
  destruct (Py.rpartition_slash s) as [h' |] eqn:Hs.
  - intros [= <-]. destruct (IH h' eq_refl) as (t & -> & Ht).
    by exists t.
  - destruct (Ascii.eqb x "/") eqn:Hx; [| done].
    apply Ascii.eqb_eq in Hx as ->. intros [= <-]. by exists s.
Qed.

Lemma rpartition_slash_None (s a b : string) :
  Py.rpartition_slash s = None → s ≠ a +:+ "/" +:+ b.
Proof.
  intros Hs ->. rewrite rpartition_slash_app in Hs.
  by destruct (Py.rpartition_slash b).
Qed.

Lemma rpartition_head_length (s : string) :
  s ≠ "" → (Py.len (Py.rpartition_head s) < Py.len s)%nat.
Proof.
  unfold Py.rpartition_head, Py.len. intros Hs.
  destruct (Py.rpartition_slash s) as [h |] eqn:Hh; simpl.
  - apply rpartition_slash_Some in Hh as (t & -> & _).
    rewrite !length_append. simpl. lia.
  - destruct s; [done | simpl; lia].
Qed.

Lemma namespace_prefix_empty (key : string) : ¬ namespace_prefix key "".
Proof.
  intros [Hkey [-> | [rest Hrest]]]; [done |]. by destruct key.
Qed.

(** the ancestors of a namespace are the namespace before its last
    slash and the ancestors of that *)
Lemma namespace_prefix_step (key s : string) :
  s ≠ "" →
  namespace_prefix key s
  ↔ key = s ∨ namespace_prefix key (Py.rpartition_head s).
Proof.
  intros Hs. unfold namespace_prefix, Py.rpartition_head.
  destruct (Py.rpartition_slash s) as [h |] eqn:Hh; simpl.
  - apply rpartition_slash_Some in Hh as (t & -> & Ht). split.
    + intros [Hkey [-> | [rest Hrest]]]; [by left |].
      assert (Py.rpartition_slash (h +:+ "/" +:+ t)
              = Py.rpartition_slash (key +:+ "/" +:+ rest)) as Heq
        by by rewrite Hrest.
      rewrite !rpartition_slash_app, Ht in Heq.
      destruct (Py.rpartition_slash rest) as [r |]; injection Heq as ->;
        right; split; eauto.
    + intros [-> | [Hkey [-> | [rest ->]]]].
      * split; [done | by left].
      * split; [done |]. right. by exists t.
      * split; [done |]. right. exists (rest +:+ "/" +:+ t).
        by rewrite !append_assoc.
  - split.
    + intros [Hkey [-> | [rest ->]]]; [by left |].
      by apply (rpartition_slash_None _ key rest) in Hh.
    + intros [-> | Hempty]; [split; [done | by left] |].
      by apply namespace_prefix_empty in Hempty.
Qed.

(** the keys under which the loop files a rule are the namespace and
    its ancestors *)
Lemma namespace_keys_spec (fuel : nat) (s key : string) :
  (Py.len s < fuel)%nat →
  key ∈ namespace_keys fuel s ↔ namespace_prefix key s.
Proof.
  revert s. induction fuel as [| fuel IH]; intros s Hfuel; [lia |].
  simpl. destruct (String.eqb s "") eqn:Hs.
  - apply String.eqb_eq in Hs as ->. rewrite elem_of_nil.
    split; [done | apply namespace_prefix_empty].
  - apply String.eqb_neq in Hs.
    rewrite namespace_prefix_step, elem_of_cons by done.
    rewrite IH; [done |].
    pose proof (rpartition_head_length s Hs). lia.
Qed.

End NamespaceFacts.

(** induction on statements, through the lists of children *)
Section StatementInduction.
Variable P : Statement → Prop.
Hypothesis P_And : ∀ cs d, Forall P cs → P (And cs d).
Hypothesis P_Or : ∀ cs d, Forall P cs → P (Or cs d).
Hypothesis P_Not : ∀ c d, P c → P (Not c d).
Hypothesis P_Some : ∀ k cs d, Forall P cs → P (Some_ k cs d).
Hypothesis P_Range : ∀ c lo hi d, P c → P (Range c lo hi d).
Hypothesis P_Subscope : ∀ sc c, P c → P (Subscope sc c).
Hypothesis P_Leaf : ∀ f d, P (Leaf f d).

Fixpoint Statement_children_ind (statement : Statement) : P statement :=
  let children :=
    fix children (cs : list Statement) : Forall P cs :=
      match cs with
      | [] => Forall_nil_2 P
      | c :: cs' => Forall_cons_2 P c cs' (Statement_children_ind c) (children cs')
      end in
  match statement with
  | And cs d => P_And cs d (children cs)
  | Or cs d => P_Or cs d (children cs)
  | Not c d => P_Not c d (Statement_children_ind c)
  | Some_ k cs d => P_Some k cs d (children cs)
  | Range c lo hi d => P_Range c lo hi d (Statement_children_ind c)
  | Subscope sc c => P_Subscope sc c (Statement_children_ind c)
  | Leaf f d => P_Leaf f d
  end.
End StatementInduction.

Section DependencyFacts.
Implicit Types (namespaces : gmap string (list Rule)) (rule : Rule).

Lemma append_rule_lookup namespaces key rule v r :
  r ∈ append_rule namespaces key rule !!! v
  ↔ r ∈ namespaces !!! v ∨ (v = key ∧ r = rule).
Proof.
  unfold append_rule. rewrite !lookup_total_alt, lookup_insert.
  case_decide as Hk; subst; simpl.
  - rewrite elem_of_app, list_elem_of_singleton. naive_solver.
  - naive_solver.
Qed.

Lemma append_rule_nonempty namespaces key rule v :
  namespaces !! v ≠ Some [] → append_rule namespaces key rule !! v ≠ Some [].
Proof.
  unfold append_rule. rewrite lookup_insert. case_decide; [| done].
  intros _ [= Hnil]. by apply app_nil in Hnil as [_ [=]].
Qed.

Lemma append_rules_lookup (keys : list string) namespaces rule v r :
  r ∈ fold_left (fun nss key => append_rule nss key rule) keys namespaces !!! v
  ↔ r ∈ namespaces !!! v ∨ (v ∈ keys ∧ r = rule).
Proof.
  revert namespaces. induction keys as [| key keys IH]; intros namespaces.
  - simpl. rewrite elem_of_nil. naive_solver.
  - simpl. rewrite IH, append_rule_lookup, elem_of_cons. naive_solver.
Qed.

Lemma append_rules_nonempty (keys : list string) namespaces rule v :
  namespaces !! v ≠ Some [] →
  fold_left (fun nss key => append_rule nss key rule) keys namespaces !! v
  ≠ Some [].
Proof.
  revert namespaces. induction keys as [| key keys IH]; intros namespaces H;
    [done |].
  simpl. by apply IH, append_rule_nonempty.
Qed.

Lemma index_rule_indexed (done : list Rule) namespaces rule namespaces' :
  indexed done namespaces → index_rule namespaces rule = Ok namespaces' →
  indexed (done ++ [rule]) namespaces'.
Proof.
  intros [Hne Hidx] Hrule. unfold index_rule in Hrule.
  assert (Hskip : (∀ v, ¬ in_namespace v rule) → indexed (done ++ [rule]) namespaces).
  { intros Hnot. split; [done |]. intros v r.
    rewrite Hidx, elem_of_app, list_elem_of_singleton. naive_solver. }
  destruct (dict_get (meta rule) "namespace") as [namespace |] eqn:Hmeta.
  - destruct (truthy namespace) eqn:Htruthy; cbn [negb] in Hrule.
    + destruct namespace as [| | | | s | | |]; try done.
      assert (Hkeys : ∀ key, key ∈ namespace_keys (S (Py.len s)) s
                             ↔ namespace_prefix key s).
      { intros key. apply NamespaceFacts.namespace_keys_spec. lia. }
      remember (namespace_keys (S (Py.len s)) s) as keys eqn:Ekeys.
      clear Ekeys. injection Hrule as <-.
      split; [intros v; by apply append_rules_nonempty |].
      intros v r.
      rewrite append_rules_lookup, Hidx, elem_of_app, list_elem_of_singleton.
      rewrite Hkeys. unfold in_namespace. split.
      * intros [[? ?] | [? ->]]; [by eauto |].
        split; [by right |]. by eauto.
      * intros [[? | ->] (ns & Hns & Hpre)]; [left; by eauto |].
        rewrite Hmeta in Hns. injection Hns as <-. by right.
    + injection Hrule as <-. apply Hskip.
      intros v (ns & Hns & Hpre). rewrite Hmeta in Hns. injection Hns as ->.
      simpl in Htruthy. apply negb_false_iff, String.eqb_eq in Htruthy as ->.
      by apply NamespaceFacts.namespace_prefix_empty in Hpre.
  - injection Hrule as <-. apply Hskip.
    intros v (ns & Hns & _). by rewrite Hmeta in Hns.
Qed.

Lemma index_rules_indexed (rules done : list Rule) namespaces namespaces' :
  indexed done namespaces → foldM index_rule rules namespaces = Ok namespaces' →
  indexed (done ++ rules) namespaces'.
Proof.
  revert done namespaces. induction rules as [| rule rules IH];
    intros done namespaces Hidx Hfold.
  - injection Hfold as <-. by rewrite app_nil_r.
  - simpl in Hfold. apply bind_Ok in Hfold as (namespaces1 & Hrule & Hfold).
    replace (done ++ rule :: rules) with ((done ++ [rule]) ++ rules)
      by by rewrite <- app_assoc.
    eapply IH; [| exact Hfold]. by eapply index_rule_indexed.
Qed.

Lemma index_rules_by_namespace_indexed (rules : list Rule) namespaces :
  index_rules_by_namespace rules = Ok namespaces → indexed rules namespaces.
Proof.
  intros H. apply (index_rules_indexed rules [] ∅); [| done].
  split; [intros v; by rewrite lookup_empty |].
  intros v r. rewrite lookup_total_empty, !elem_of_nil. naive_solver.
Qed.

Lemma indexed_is_Some (rules : list Rule) namespaces v :
  indexed rules namespaces →
  is_Some (namespaces !! v) ↔ ∃ r, r ∈ rules ∧ in_namespace v r.
Proof.
  intros [Hne Hidx]. split.
  - intros [rs Hrs]. destruct rs as [| r rs]; [by destruct (Hne v) |].
    exists r. apply Hidx. rewrite lookup_total_alt, Hrs. apply list_elem_of_here.
  - intros (r & Hr). apply Hidx in Hr. rewrite lookup_total_alt in Hr.
    destruct (namespaces !! v); [by eauto | by apply elem_of_nil in Hr].
Qed.

Lemma dependencies_rec_spec namespaces (statement : Statement) (dep : string) :
  dep ∈ dependencies_rec namespaces statement
  ↔ ∃ v, v ∈ matched_values statement ∧ resolves namespaces v dep.
Proof.
  induction statement as [cs d IH | cs d IH | c d IH | k cs d IH
                          | c lo hi d IH | sc c IH | f d]
    using Statement_children_ind.
  1, 2, 4:
    cbn [dependencies_rec matched_values];
    induction IH as [| c cs Hc _ IHcs];
    [ rewrite elem_of_empty; split; [done | by intros (v & ?%elem_of_nil & _)]
    | rewrite elem_of_union, Hc, IHcs;
      setoid_rewrite elem_of_app; naive_solver ].
  1, 2, 3: exact IH.
  destruct f; cbn [dependencies_rec matched_values];
    try (rewrite elem_of_empty; split; [done | by intros (v & ?%elem_of_nil & _)]).
  unfold resolves. split.
  - intros Hdep. exists value. split; [apply list_elem_of_here |].
    destruct (namespaces !! value); [| by apply elem_of_singleton in Hdep].
    by apply elem_of_list_to_set in Hdep.
  - intros (v & ->%list_elem_of_singleton & Hv).
    destruct (namespaces !! value);
      [by apply elem_of_list_to_set | by apply elem_of_singleton].
Qed.

(** C4: over the index that [index_rules_by_namespace] builds, a value
    is a key exactly when it is the namespace of some rule or an
    ancestor of it, and [Rule.get_dependencies] yields, for every
    [match] value of the rule that is such a key, the names of all the
    rules in that namespace or below it, whether or not a rule has the
    value for its name, and for any other value the value itself. *)
Theorem get_dependencies_resolution (rules : list Rule) namespaces rule :
  index_rules_by_namespace rules = Ok namespaces →
  (∀ v, is_Some (namespaces !! v) ↔ ∃ r, r ∈ rules ∧ in_namespace v r)
  ∧ (∀ dep,
       dep ∈ get_dependencies rule namespaces
       ↔ ∃ v, v ∈ matched_values (statement rule)
              ∧ ((is_Some (namespaces !! v)
                  ∧ ∃ r, r ∈ rules ∧ in_namespace v r ∧ dep = name r)
                 ∨ (namespaces !! v = None ∧ dep = v))).
Proof.
  intros Hindex%index_rules_by_namespace_indexed.
  split; [intros v; by apply indexed_is_Some |].
  intros dep. unfold get_dependencies. rewrite dependencies_rec_spec.
  destruct Hindex as [Hne Hidx].
  split; intros (v & Hv & Hres); exists v; (split; [done |]);
    unfold resolves in *.
  - destruct (namespaces !! v) as [rs |] eqn:Hrs; [left | by right].
    split; [by eauto |].
    apply list_elem_of_fmap in Hres as (r & -> & Hr).
    exists r. specialize (Hidx v r). rewrite lookup_total_alt, Hrs in Hidx.
    apply Hidx in Hr as [? ?]. done.
  - destruct Hres as [[[rs Hrs] (r & Hr & Hin & ->)] | [-> ->]]; [| done].
    rewrite Hrs. apply list_elem_of_fmap. exists r. split; [done |].
    specialize (Hidx v r). rewrite lookup_total_alt, Hrs in Hidx.
    by apply Hidx.
Qed.

End DependencyFacts.

(** the rule that matches [c2] depends on the rule filed under
    [c2/shell] *)
Lemma get_dependencies_resolution_witness :
  "create reverse shell"
  ∈ get_dependencies
      (match_rule "command and control" FUNCTION_SCOPE "c2"
         [("name", YStr "command and control")])
      sample_c2_namespaces.
Proof.
  pose proof (get_dependencies_resolution sample_c2_rules sample_c2_namespaces
                (match_rule "command and control" FUNCTION_SCOPE "c2"
                   [("name", YStr "command and control")])
                eq_refl) as [_ H].
  apply H. exists "c2". split; [apply list_elem_of_here |]. left.
  split; [by eexists |].
  eexists. split; [apply list_elem_of_here |]. split; [| reflexivity].
  exists "c2/shell". split; [reflexivity |].
  split; [done |]. right. by exists "shell".
Defined.


(** * Subscope extraction *)

Section ExtractionFacts.
Variable uuid4_hex : nat → string.
Variable self_name : string.

Lemma matched_values_children (cs : list Statement) (d : YValue) :
  matched_values (And cs d) = concat (map matched_values cs).
Proof.
  cbn [matched_values]. induction cs as [| c cs IH]; [done |].
  cbn [map concat]. by rewrite IH.
Qed.

Lemma matched_values_get_children (statement c : Statement) (v : string) :
  c ∈ get_children statement → v ∈ matched_values c →
  v ∈ matched_values statement.
Proof.
  intros Hc Hv.
  assert (∀ cs, c ∈ cs → v ∈ concat (map matched_values cs)) as Hlist.
  { intros cs Hcs. apply list_elem_of_In, in_concat. exists (matched_values c).
    split; [apply in_map; by apply list_elem_of_In | by apply list_elem_of_In]. }
  destruct statement as [cs d | cs d | c' d | k cs d | c' lo hi d | sc c' | f d];
    cbn [get_children] in Hc.
  1, 2, 4: change (v ∈ matched_values (And cs YNull));
           rewrite matched_values_children; by apply Hlist.
  1, 2, 3: apply list_elem_of_singleton in Hc as ->; exact Hv.
  by apply elem_of_nil in Hc.
Qed.

Lemma nodes_self (statement : Statement) : statement ∈ nodes statement.
Proof. destruct statement; apply list_elem_of_here. Qed.

Lemma nodes_below_nodes (statement x : Statement) :
  x ∈ nodes_below statement → x ∈ nodes statement.
Proof.
  unfold nodes_below. intros Hx.
  assert (∀ cs, (fix children (cs : list Statement) : list Statement :=
                   match cs with
                   | [] => []
                   | c :: cs' => nodes c ++ children cs'
                   end) cs = concat (map nodes cs)) as Hlist.
  { induction cs as [| c cs IH]; [done |]. cbn [map concat]. by rewrite IH. }
  destruct statement as [cs d | cs d | c' d | k cs d | c' lo hi d | sc c' | f d];
    cbn [get_children map concat] in Hx; cbn [nodes];
    apply list_elem_of_further; rewrite ?Hlist, ?app_nil_r in *; done.
Qed.

Lemma nodes_below_child (statement c x : Statement) :
  c ∈ get_children statement → x ∈ nodes c → x ∈ nodes_below statement.
Proof.
  intros Hc Hx. unfold nodes_below. apply list_elem_of_In, in_concat.
  exists (nodes c).
  split; [apply in_map; by apply list_elem_of_In | by apply list_elem_of_In].
Qed.

Lemma count_subscopes_children (cs : list Statement) (d : YValue) :
  count_subscopes (And cs d) = list_sum (map count_subscopes cs).
Proof.
  cbn [count_subscopes]. induction cs as [| c cs IH]; [done |].
  cbn [map list_sum]. by rewrite IH.
Qed.

Lemma list_sum_zero (l : list nat) :
  Forall (fun x => x = 0%nat) l → list_sum l = 0%nat.
Proof. induction 1 as [| x l -> _ IH]; [done | exact IH]. Qed.

(** a statement that is no subscope and has none below has none *)
Lemma count_subscopes_zero (statement : Statement) :
  is_Subscope statement = false →
  Forall (fun c => count_subscopes c = 0%nat) (get_children statement) →
  count_subscopes statement = 0%nat.
Proof.
  intros Htop Hbelow.
  destruct statement as [cs d | cs d | c' d | k cs d | c' lo hi d | sc c' | f d];
    try done; cbn [get_children] in Hbelow.
  1, 2, 4: change (count_subscopes (And cs YNull) = 0%nat);
           rewrite count_subscopes_children;
           apply list_sum_zero, Forall_fmap; exact Hbelow.
  1, 2: rewrite Forall_singleton in Hbelow; exact Hbelow.
Qed.

(** the first loop: what replaces the children and what it yields *)
Lemma replace_subscopes_spec (cs : list Statement) (n : nat)
    (cs1 : list Statement) (rs : list Rule) (n1 : nat) :
  replace_subscopes uuid4_hex self_name cs n = (cs1, rs, n1) →
  (n ≤ n1)%nat
  ∧ Forall2 (fun c c1 => if is_Subscope c
                         then is_Statement c1 = false ∧ count_subscopes c1 = 0%nat
                         else c1 = c) cs cs1
  ∧ ∀ R, R ∈ rs →
      ∃ k sc child, (n ≤ k < n1)%nat
                    ∧ R = yielded_rule uuid4_hex self_name k sc child
                    ∧ Subscope sc child ∈ cs
                    ∧ Leaf (MatchedRule (name R)) YNull ∈ cs1.
Proof.
  revert n cs1 rs n1. induction cs as [| c cs IH]; intros n cs1 rs n1 H.
  - injection H as <- <- <-. split; [done |]. split; [constructor |].
    by intros R ?%elem_of_nil.
  - assert (Hkeep : is_Subscope c = false →
              ∃ cs1' , replace_subscopes uuid4_hex self_name cs n
                       = (cs1', rs, n1) ∧ cs1 = c :: cs1').
    { intros Hc. destruct c; try discriminate Hc;
        cbn [replace_subscopes] in H;
        destruct (replace_subscopes uuid4_hex self_name cs n)
          as [[cs1' rs'] n1'];
        injection H as <- <- <-; by eexists. }
    destruct (is_Subscope c) eqn:Hc.
    + destruct c as [| | | | | sc child |]; try discriminate Hc.
      cbn [replace_subscopes] in H.
      destruct (replace_subscopes uuid4_hex self_name cs (S n))
        as [[cs1' rs'] n1'] eqn:Hrest.
      injection H as <- <- <-.
      destruct (IH _ _ _ _ Hrest) as (Hle & Hall & Hrules).
      split; [lia |]. split; [by constructor |].
      intros R [-> | HR]%elem_of_cons.
      * exists n, sc, child. split; [lia |]. split; [done |].
        split; apply list_elem_of_here.
      * destruct (Hrules R HR) as (k & sc' & child' & Hk & -> & Hin & Hleaf).
        exists k, sc', child'. split; [lia |]. split; [done |].
        split; by apply list_elem_of_further.
    + destruct (Hkeep eq_refl) as (cs1' & Hrest & ->).
      destruct (IH _ _ _ _ Hrest) as (Hle & Hall & Hrules).
      split; [done |]. split; [constructor; [by rewrite Hc | done] |].
      intros R HR.
      destruct (Hrules R HR) as (k & sc' & child' & Hk & -> & Hin & Hleaf).
      exists k, sc', child'. split; [done |]. split; [done |].
      split; by apply list_elem_of_further.
Qed.

Abbreviation rec := (_extract_subscope_rules_rec uuid4_hex self_name).
Abbreviation ok := (extraction_ok uuid4_hex self_name).

Lemma visit_child_spec (c c1 : Statement) (n : nat) :
  ok c n (rec c n) →
  (if is_Subscope c
   then is_Statement c1 = false ∧ count_subscopes c1 = 0%nat
   else c1 = c) →
  let res := visit_child rec c c1 n in
  (n ≤ res.2)%nat
  ∧ count_subscopes res.1.1 = 0%nat
  ∧ (is_Statement c1 = false → res.1.1 = c1)
  ∧ ∀ R, R ∈ res.1.2 →
      ∃ k sc child, (n ≤ k < res.2)%nat
                    ∧ R = yielded_rule uuid4_hex self_name k sc child
                    ∧ Subscope sc child ∈ nodes_below c
                    ∧ name R ∈ matched_values res.1.1.
Proof.
  intros (Hle & Htop & Hleaf & Hbelow & Hrules) Hrel. unfold visit_child.
  destruct (is_Subscope c) eqn:Hc; cbn [fst snd].
  - destruct Hrel as [_ Hzero]. repeat split; [done .. |].
    by intros R ?%elem_of_nil.
  - subst c1. split; [done |]. split; [by apply count_subscopes_zero |].
    split; [done |]. exact Hrules.
Qed.

Lemma visit_children_spec (cs cs1 : list Statement) (n : nat) :
  Forall (fun c => ∀ n, ok c n (rec c n)) cs →
  Forall2 (fun c c1 => if is_Subscope c
                       then is_Statement c1 = false
                            ∧ count_subscopes c1 = 0%nat
                       else c1 = c) cs cs1 →
  let res := visit_children rec cs cs1 n in
  (n ≤ res.2)%nat
  ∧ Forall (fun x => count_subscopes x = 0%nat) res.1.1
  ∧ (∀ x, is_Statement x = false → x ∈ cs1 → x ∈ res.1.1)
  ∧ ∀ R, R ∈ res.1.2 →
      ∃ k sc child c c2,
        (n ≤ k < res.2)%nat
        ∧ R = yielded_rule uuid4_hex self_name k sc child
        ∧ c ∈ cs ∧ Subscope sc child ∈ nodes_below c
        ∧ c2 ∈ res.1.1 ∧ name R ∈ matched_values c2.
Proof.
  intros Hok Hrel. revert n.
  induction Hrel as [| c c1 cs cs1 Hc Hrel IH]; intros n.
  - cbn. split; [done |]. split; [constructor |].
    split; [done | by intros R ?%elem_of_nil].
  - apply Forall_cons in Hok as [Hokc Hok]. specialize (IH Hok).
    cbn [visit_children].
    pose proof (visit_child_spec c c1 n (Hokc n) Hc) as Hvisit.
    cbv zeta in Hvisit.
    destruct (visit_child rec c c1 n) as [[c2 rs] n1]. cbn [fst snd] in Hvisit.
    destruct Hvisit as (Hle & Hzero & Hkeep & Hrules).
    specialize (IH n1). cbv zeta in IH.
    destruct (visit_children rec cs cs1 n1) as [[cs2 rs'] n2].
    cbn [fst snd] in IH |- *.
    destruct IH as (Hle' & Hzeros & Hkeeps & Hrules').
    split; [lia |]. split; [by constructor |]. split.
    + intros x Hx [-> | Hin]%elem_of_cons.
      * rewrite Hkeep by done. apply list_elem_of_here.
      * apply list_elem_of_further. by apply Hkeeps.
    + intros R [HR | HR]%elem_of_app.
      * destruct (Hrules R HR) as (k & sc & child & Hk & -> & Hnode & Hval).
        exists k, sc, child, c, c2. split; [lia |]. split; [done |].
        split; [apply list_elem_of_here |]. split; [done |].
        split; [apply list_elem_of_here | done].
      * destruct (Hrules' R HR)
          as (k & sc & child & c' & c2' & Hk & -> & Hc' & Hnode & Hc2' & Hval).
        exists k, sc, child, c', c2'. split; [lia |]. split; [done |].
        split; [by apply list_elem_of_further |]. split; [done |].
        split; [by apply list_elem_of_further | done].
Qed.

(** the two shapes of a node: a list of children, or one child *)
Lemma extraction_ok_children (mk : list Statement → Statement)
    (cs : list Statement) (n : nat) :
  (∀ cs, get_children (mk cs) = cs) →
  (∀ cs, is_Subscope (mk cs) = false) →
  (∀ cs, is_Statement (mk cs) = true) →
  Forall (fun c => ∀ n, ok c n (rec c n)) cs →
  ok (mk cs) n
    (let '(replaced, new_rules, n1) :=
       replace_subscopes uuid4_hex self_name cs n in
     let '(cs2, more, n2) := visit_children rec cs replaced n1 in
     (mk cs2, new_rules ++ more, n2)).
Proof.
  intros Hchildren Htop Hstatement Hok.
  destruct (replace_subscopes uuid4_hex self_name cs n)
    as [[replaced new_rules] n1] eqn:Hreplace.
  apply replace_subscopes_spec in Hreplace as (Hle & Hrel & Hnew).
  pose proof (visit_children_spec cs replaced n1 Hok Hrel) as Hvisit.
  cbv zeta in Hvisit.
  destruct (visit_children rec cs replaced n1) as [[cs2 more] n2].
  cbn [fst snd] in Hvisit. destruct Hvisit as (Hle' & Hzeros & Hkeeps & Hmore).
  unfold extraction_ok. cbn [fst snd]. rewrite !Htop, !Hchildren.
  split; [lia |]. split; [done |].
  split; [intros H; by rewrite Hstatement in H |]. split; [done |].
  intros R [HR | HR]%elem_of_app.
  - destruct (Hnew R HR) as (k & sc & child & Hk & -> & Hin & Hleaf).
    exists k, sc, child. split; [lia |]. split; [done |]. split.
    + apply (nodes_below_child _ (Subscope sc child));
        [by rewrite Hchildren | apply nodes_self].
    + eapply matched_values_get_children.
      * rewrite Hchildren. apply Hkeeps; [| exact Hleaf]. done.
      * apply list_elem_of_here.
  - destruct (Hmore R HR)
      as (k & sc & child & c & c2 & Hk & -> & Hc & Hnode & Hc2 & Hval).
    exists k, sc, child. split; [lia |]. split; [done |]. split.
    + apply (nodes_below_child _ c); [by rewrite Hchildren |].
      by apply nodes_below_nodes.
    + eapply matched_values_get_children; [| exact Hval].
      by rewrite Hchildren.
Qed.

Lemma extraction_ok_child (mk : Statement → Statement) (c : Statement)
    (n : nat) :
  (∀ c, get_children (mk c) = [c]) →
  (∀ c c', is_Subscope (mk c) = is_Subscope (mk c')) →
  (∀ c, is_Statement (mk c) = true) →
  (∀ n, ok c n (rec c n)) →
  ok (mk c) n
    (let '(replaced, new_rules, n1) :=
       replace_subscopes uuid4_hex self_name [c] n in
     let '(c2, more, n2) :=
       visit_child rec c (default c (head replaced)) n1 in
     (mk c2, new_rules ++ more, n2)).
Proof.
  intros Hchildren Htop Hstatement Hok.
  destruct (replace_subscopes uuid4_hex self_name [c] n)
    as [[replaced new_rules] n1] eqn:Hreplace.
  apply replace_subscopes_spec in Hreplace as (Hle & Hrel & Hnew).
  apply Forall2_cons_inv_l in Hrel as (c1 & nil & Hc1 & Hnil & ->).
  apply Forall2_nil_inv_l in Hnil as ->.
  change (default c (head [c1])) with c1.
  pose proof (visit_child_spec c c1 n1 (Hok n1) Hc1) as Hvisit.
  cbv zeta in Hvisit.
  destruct (visit_child rec c c1 n1) as [[c2 more] n2].
  cbn [fst snd] in Hvisit. destruct Hvisit as (Hle' & Hzero & Hkeep & Hmore).
  unfold extraction_ok. cbn [fst snd]. rewrite !Hchildren.
  split; [lia |]. split; [apply Htop |].
  split; [intros H; by rewrite Hstatement in H |].
  split; [by apply Forall_singleton |].
  intros R [HR | HR]%elem_of_app.
  - destruct (Hnew R HR) as (k & sc & child & Hk & -> & Hin & Hleaf).
    exists k, sc, child. split; [lia |]. split; [done |].
    apply list_elem_of_singleton in Hin as <-.
    apply list_elem_of_singleton in Hleaf as <-. split.
    + apply (nodes_below_child _ (Subscope sc child));
        [rewrite Hchildren; apply list_elem_of_here | apply nodes_self].
    + eapply (matched_values_get_children _ c2).
      * rewrite Hchildren. apply list_elem_of_here.
      * rewrite Hkeep by done. apply list_elem_of_here.
  - destruct (Hmore R HR) as (k & sc & child & Hk & -> & Hnode & Hval).
    exists k, sc, child. split; [lia |]. split; [done |]. split.
    + apply (nodes_below_child _ c);
        [rewrite Hchildren; apply list_elem_of_here |].
      by apply nodes_below_nodes.
    + eapply matched_values_get_children; [| exact Hval].
      rewrite Hchildren. apply list_elem_of_here.
Qed.

Lemma extraction_ok_rec (statement : Statement) (n : nat) :
  ok statement n (rec statement n).
Proof.
  revert n.
  induction statement as [cs d IH | cs d IH | c d IH | k cs d IH
                          | c lo hi d IH | sc c IH | f d]
    using Statement_children_ind; intros n.
  - by apply (extraction_ok_children (fun cs => And cs d)).
  - by apply (extraction_ok_children (fun cs => Or cs d)).
  - by apply (extraction_ok_child (fun c => Not c d)).
  - by apply (extraction_ok_children (fun cs => Some_ k cs d)).
  - by apply (extraction_ok_child (fun c => Range c lo hi d)).
  - by apply (extraction_ok_child (fun c => Subscope sc c)).
  - unfold extraction_ok. cbn. split; [done |]. split; [done |].
    split; [done |]. split; [constructor | by intros R ?%elem_of_nil].
Qed.

(** ** The replacement is in place *)

Lemma replaced_children_Forall2 (yielded : list Rule)
    (rel : Statement → Statement → Prop) (cs cs' : list Statement) :
  replaced_children yielded rel cs cs'
  ↔ Forall2 (replaced_child yielded rel) cs cs'.
Proof.
  revert cs'. induction cs as [| c cs IH]; intros [| c' cs']; cbn.
  - split; [constructor | done].
  - split; [done | by intros H; inversion H].
  - split; [done | by intros H; inversion H].
  - rewrite IH. split.
    + intros [Hc Hcs]. by constructor.
    + intros H. inversion H; subst. by split.
Qed.

Lemma replaced_child_mono (l l' : list Rule)
    (rel rel' : Statement → Statement → Prop) (c c' : Statement) :
  (∀ R, R ∈ l → R ∈ l') →
  (is_Subscope c = false → rel c c' → rel' c c') →
  replaced_child l rel c c' → replaced_child l' rel' c c'.
Proof.
  intros Hl Hrel. destruct c; cbn; try exact (Hrel eq_refl).
  intros (R & HR & H). exists R. split; [by apply Hl | done].
Qed.

Lemma replaced_in_place_mono (l l' : list Rule) (old new : Statement) :
  (∀ R, R ∈ l → R ∈ l') →
  replaced_in_place l old new → replaced_in_place l' old new.
Proof.
  intros Hl. revert new.
  assert (Hchildren : ∀ cs,
            Forall (fun c => ∀ new, replaced_in_place l c new
                                    → replaced_in_place l' c new) cs →
            ∀ cs', replaced_children l (replaced_in_place l) cs cs'
                   → replaced_children l' (replaced_in_place l') cs cs').
  { intros cs Hcs cs'. rewrite !replaced_children_Forall2. intros H.
    induction H as [| c c' cs cs' Hc H IH]; [constructor |].
    apply Forall_cons in Hcs as [Hc0 Hcs]. constructor; [| by apply IH].
    eapply replaced_child_mono; [exact Hl | intros _; apply Hc0 | exact Hc]. }
  induction old as [cs d IH | cs d IH | c d IH | k cs d IH
                    | c lo hi d IH | sc c IH | f d]
    using Statement_children_ind; intros new; destruct new; cbn; try done.
  - intros [-> H]. split; [done |]. by apply Hchildren.
  - intros [-> H]. split; [done |]. by apply Hchildren.
  - intros [-> H]. split; [done |].
    eapply replaced_child_mono; [exact Hl | intros _; apply IH | exact H].
  - intros (-> & -> & H). split; [done |]. split; [done |].
    by apply Hchildren.
  - intros (-> & -> & -> & H). split; [done |]. split; [done |].
    split; [done |].
    eapply replaced_child_mono; [exact Hl | intros _; apply IH | exact H].
  - intros [-> H]. split; [done |].
    eapply replaced_child_mono; [exact Hl | intros _; apply IH | exact H].
Qed.

(** the first loop puts a [match] where a subscope stood and leaves the
    other children *)
Lemma replace_subscopes_in_place (cs : list Statement) (n : nat)
    (cs1 : list Statement) (rs : list Rule) (n1 : nat) :
  replace_subscopes uuid4_hex self_name cs n = (cs1, rs, n1) →
  Forall2 (replaced_child rs (fun c c1 => c1 = c)) cs cs1.
Proof.
  revert n cs1 rs n1. induction cs as [| c cs IH]; intros n cs1 rs n1 H.
  - injection H as <- <- <-. constructor.
  - destruct c as [cs0 d | cs0 d | c0 d | k cs0 d | c0 lo hi d | sc body | f d];
      cbn [replace_subscopes] in H.
    6: { destruct (replace_subscopes uuid4_hex self_name cs (S n))
           as [[cs1' rs'] n1'] eqn:Hrest.
         injection H as <- <- <-. constructor.
         - eexists. split; [apply list_elem_of_here |]. by repeat split.
         - eapply Forall2_impl; [by eapply IH |].
           intros c c1. apply replaced_child_mono; [| done].
           intros R HR. by apply list_elem_of_further. }
    all: destruct (replace_subscopes uuid4_hex self_name cs n)
           as [[cs1' rs'] n1'] eqn:Hrest;
         injection H as <- <- <-; constructor; [done | by eapply IH].
Qed.

Abbreviation in_place :=
  (fun c => ∀ n, replaced_in_place (rec c n).1.2 c (rec c n).1.1).

Lemma visit_child_in_place (l0 : list Rule) (c c1 : Statement) (n : nat) :
  in_place c →
  replaced_child l0 (fun c c1 => c1 = c) c c1 →
  let res := visit_child rec c c1 n in
  replaced_child (l0 ++ res.1.2) (replaced_in_place (l0 ++ res.1.2))
    c res.1.1.
Proof.
  intros Hc Hrel. unfold visit_child.
  destruct c as [cs0 d | cs0 d | c0 d | k cs0 d | c0 lo hi d | sc body | f d];
    cbn [is_Subscope fst snd].
  6: { eapply replaced_child_mono; [| | exact Hrel]; [| done].
       intros R HR. apply elem_of_app. by left. }
  all: cbn [replaced_child] in Hrel |- *; subst c1;
    eapply replaced_in_place_mono; [| apply Hc];
    intros R HR; apply elem_of_app; by right.
Qed.

Lemma visit_children_in_place (l0 : list Rule) (cs cs1 : list Statement)
    (n : nat) :
  Forall in_place cs →
  Forall2 (replaced_child l0 (fun c c1 => c1 = c)) cs cs1 →
  let res := visit_children rec cs cs1 n in
  Forall2 (replaced_child (l0 ++ res.1.2)
             (replaced_in_place (l0 ++ res.1.2))) cs res.1.1.
Proof.
  intros Hcs Hrel. revert n.
  induction Hrel as [| c c1 cs cs1 Hc Hrel IH]; intros n; [constructor |].
  apply Forall_cons in Hcs as [Hc0 Hcs]. specialize (IH Hcs).
  cbn [visit_children].
  pose proof (visit_child_in_place l0 c c1 n Hc0 Hc) as Hhead.
  cbv zeta in Hhead.
  destruct (visit_child rec c c1 n) as [[c2 rs] n1]. cbn [fst snd] in Hhead.
  specialize (IH n1). cbv zeta in IH.
  destruct (visit_children rec cs cs1 n1) as [[cs2 rs'] n2].
  cbn [fst snd] in IH |- *.
  assert (∀ l, (∀ R, R ∈ l → R ∈ l0 ++ rs ++ rs') →
               ∀ x y, replaced_child l (replaced_in_place l) x y →
                      replaced_child (l0 ++ rs ++ rs')
                        (replaced_in_place (l0 ++ rs ++ rs')) x y) as Hmono.
  { intros l Hl x y. apply replaced_child_mono; [exact Hl |].
    intros _. by apply replaced_in_place_mono. }
  constructor.
  - eapply Hmono; [| exact Hhead]. intros R. rewrite !elem_of_app. tauto.
  - eapply Forall2_impl; [exact IH |]. apply Hmono.
    intros R. rewrite !elem_of_app. tauto.
Qed.

Lemma replaced_in_place_rec (statement : Statement) : in_place statement.
Proof.
  assert (Hchildren : ∀ cs n, Forall in_place cs →
            ∀ replaced new_rules n1 cs2 more n2,
              replace_subscopes uuid4_hex self_name cs n
              = (replaced, new_rules, n1) →
              visit_children rec cs replaced n1 = (cs2, more, n2) →
              replaced_children (new_rules ++ more)
                (replaced_in_place (new_rules ++ more)) cs cs2).
  { intros cs n Hcs replaced new_rules n1 cs2 more n2 Hreplace Hvisit.
    apply replace_subscopes_in_place in Hreplace.
    pose proof (visit_children_in_place new_rules cs replaced n1 Hcs Hreplace)
      as H.
    cbv zeta in H. rewrite Hvisit in H. by apply replaced_children_Forall2. }
  assert (Hchild : ∀ c n, in_place c →
            ∀ replaced new_rules n1 c2 more n2,
              replace_subscopes uuid4_hex self_name [c] n
              = (replaced, new_rules, n1) →
              visit_child rec c (default c (head replaced)) n1
              = (c2, more, n2) →
              replaced_child (new_rules ++ more)
                (replaced_in_place (new_rules ++ more)) c c2).
  { intros c n Hc replaced new_rules n1 c2 more n2 Hreplace Hvisit.
    apply replace_subscopes_in_place in Hreplace.
    apply Forall2_cons_inv_l in Hreplace as (c1 & nil & Hc1 & Hnil & ->).
    apply Forall2_nil_inv_l in Hnil as ->.
    change (default c (head [c1])) with c1 in Hvisit.
    pose proof (visit_child_in_place new_rules c c1 n1 Hc Hc1) as H.
    cbv zeta in H. by rewrite Hvisit in H. }
  induction statement as [cs d IH | cs d IH | c d IH | k cs d IH
                          | c lo hi d IH | sc c IH | f d]
    using Statement_children_ind; intros n;
    cbn [_extract_subscope_rules_rec].
  1, 2, 4:
    destruct (replace_subscopes uuid4_hex self_name cs n)
      as [[replaced new_rules] n1] eqn:Hreplace;
    destruct (visit_children rec cs replaced n1) as [[cs2 more] n2] eqn:Hvisit;
    cbn [fst snd replaced_in_place]; repeat (split; [done |]);
    by eapply Hchildren.
  1, 2, 3:
    destruct (replace_subscopes uuid4_hex self_name [c] n)
      as [[replaced new_rules] n1] eqn:Hreplace;
    destruct (visit_child rec c (default c (head replaced)) n1)
      as [[c2 more] n2] eqn:Hvisit;
    cbn [fst snd replaced_in_place]; repeat (split; [done |]);
    by eapply Hchild.
  done.
Qed.

(** ** The queue loop runs to its end *)

Abbreviation count_all := (fun cs : list Statement =>
                             list_sum (map count_subscopes cs)).

Ltac sum_lia :=
  unfold subscope_weight, list_sum in *;
  cbn [map fold_right length count_subscopes statement new_subscope_rule
       fst snd] in *;
  lia.

Lemma subscope_weight_app (rs rs' : list Rule) :
  subscope_weight (rs ++ rs') = (subscope_weight rs + subscope_weight rs')%nat.
Proof. unfold subscope_weight. by rewrite map_app, list_sum_app. Qed.

Lemma replace_subscopes_count (cs : list Statement) (n : nat) :
  let res := replace_subscopes uuid4_hex self_name cs n in
  count_all cs = (count_all res.1.1 + subscope_weight res.1.2)%nat.
Proof.
  revert n. induction cs as [| c cs IH]; intros n; [done |].
  assert (Hkeep : is_Subscope c = false →
            replace_subscopes uuid4_hex self_name (c :: cs) n
            = let '(cs', new_rules, n') :=
                replace_subscopes uuid4_hex self_name cs n in
              (c :: cs', new_rules, n')).
  { intros Hc. by destruct c. }
  destruct (is_Subscope c) eqn:Hc.
  - destruct c as [| | | | | sc child |]; try discriminate Hc.
    cbn [replace_subscopes]. specialize (IH (S n)). cbv zeta in IH.
    destruct (replace_subscopes uuid4_hex self_name cs (S n)) as [[cs' rs] n'].
    sum_lia.
  - cbv zeta. rewrite Hkeep by done. specialize (IH n). cbv zeta in IH.
    destruct (replace_subscopes uuid4_hex self_name cs n) as [[cs' rs] n'].
    sum_lia.
Qed.

Abbreviation counted := (subscopes_counted uuid4_hex self_name).

Lemma visit_child_count (c c1 : Statement) (n : nat) :
  counted c →
  (if is_Subscope c
   then is_Statement c1 = false ∧ count_subscopes c1 = 0%nat
   else c1 = c) →
  let res := visit_child rec c c1 n in
  count_subscopes c1 = (count_subscopes res.1.1 + subscope_weight res.1.2)%nat.
Proof.
  intros Hc Hrel. unfold visit_child. destruct (is_Subscope c); cbn [fst snd].
  - destruct Hrel as [_ Hzero]. sum_lia.
  - subst c1. apply Hc.
Qed.

Lemma visit_children_count (cs cs1 : list Statement) (n : nat) :
  Forall counted cs →
  Forall2 (fun c c1 => if is_Subscope c
                       then is_Statement c1 = false
                            ∧ count_subscopes c1 = 0%nat
                       else c1 = c) cs cs1 →
  let res := visit_children rec cs cs1 n in
  count_all cs1 = (count_all res.1.1 + subscope_weight res.1.2)%nat.
Proof.
  intros Hcounted Hrel. revert n.
  induction Hrel as [| c c1 cs cs1 Hc Hrel IH]; intros n; [done |].
  apply Forall_cons in Hcounted as [Hcc Hcounted]. specialize (IH Hcounted).
  cbn [visit_children].
  pose proof (visit_child_count c c1 n Hcc Hc) as Hvisit. cbv zeta in Hvisit.
  destruct (visit_child rec c c1 n) as [[c2 rs] n1]. cbn [fst snd] in Hvisit.
  specialize (IH n1). cbv zeta in IH.
  destruct (visit_children rec cs cs1 n1) as [[cs2 rs'] n2].
  cbn [fst snd] in *. rewrite subscope_weight_app. sum_lia.
Qed.

Lemma counted_children (mk : list Statement → Statement)
    (cs : list Statement) (n : nat) :
  (∀ cs, count_subscopes (mk cs) = count_all cs) →
  Forall counted cs →
  let res :=
    let '(replaced, new_rules, n1) :=
      replace_subscopes uuid4_hex self_name cs n in
    let '(cs2, more, n2) := visit_children rec cs replaced n1 in
    (mk cs2, new_rules ++ more, n2) in
  count_subscopes (mk cs)
  = (count_subscopes res.1.1 + subscope_weight res.1.2)%nat.
Proof.
  intros Hmk Hcounted.
  pose proof (replace_subscopes_count cs n) as Hreplace. cbv zeta in Hreplace.
  destruct (replace_subscopes uuid4_hex self_name cs n)
    as [[replaced new_rules] n1] eqn:Heq.
  apply replace_subscopes_spec in Heq as (_ & Hrel & _).
  pose proof (visit_children_count cs replaced n1 Hcounted Hrel) as Hvisit.
  cbv zeta in Hvisit.
  destruct (visit_children rec cs replaced n1) as [[cs2 more] n2].
  cbn [fst snd] in *. rewrite subscope_weight_app, !Hmk. sum_lia.
Qed.

Lemma counted_child (mk : Statement → Statement) (extra : nat)
    (c : Statement) (n : nat) :
  (∀ c, count_subscopes (mk c) = (extra + count_subscopes c)%nat) →
  counted c →
  let res :=
    let '(replaced, new_rules, n1) :=
      replace_subscopes uuid4_hex self_name [c] n in
    let '(c2, more, n2) :=
      visit_child rec c (default c (head replaced)) n1 in
    (mk c2, new_rules ++ more, n2) in
  count_subscopes (mk c)
  = (count_subscopes res.1.1 + subscope_weight res.1.2)%nat.
Proof.
  intros Hmk Hcounted.
  pose proof (replace_subscopes_count [c] n) as Hreplace. cbv zeta in Hreplace.
  destruct (replace_subscopes uuid4_hex self_name [c] n)
    as [[replaced new_rules] n1] eqn:Heq.
  apply replace_subscopes_spec in Heq as (_ & Hrel & _).
  apply Forall2_cons_inv_l in Hrel as (c1 & nil & Hc1 & Hnil & ->).
  apply Forall2_nil_inv_l in Hnil as ->.
  change (default c (head [c1])) with c1.
  pose proof (visit_child_count c c1 n1 Hcounted Hc1) as Hvisit.
  cbv zeta in Hvisit.
  destruct (visit_child rec c c1 n1) as [[c2 more] n2].
  cbn [fst snd] in *. rewrite subscope_weight_app, !Hmk. sum_lia.
Qed.

(** the subscopes of a statement are those that stay and, for every
    rule yielded, one more than those of its statement *)
Lemma extraction_counted (statement : Statement) : counted statement.
Proof.
  induction statement as [cs d IH | cs d IH | c d IH | k cs d IH
                          | c lo hi d IH | sc c IH | f d]
    using Statement_children_ind; intros n.
  - apply (counted_children (fun cs => And cs d)); [| done].
    intros cs'. apply count_subscopes_children.
  - apply (counted_children (fun cs => Or cs d)); [| done].
    intros cs'. apply (count_subscopes_children cs' d).
  - by apply (counted_child (fun c => Not c d) 0).
  - apply (counted_children (fun cs => Some_ k cs d)); [| done].
    intros cs'. apply (count_subscopes_children cs' d).
  - by apply (counted_child (fun c => Range c lo hi d) 0).
  - by apply (counted_child (fun c => Subscope sc c) 1).
  - done.
Qed.

End ExtractionFacts.

Section ExtractionTheorem.
Variable uuid4_hex : nat → string.

(** C3: every rule that [extract_subscope_rules] yields for a rule is
    named after it with a slash and an identifier, has the scope and
    the child of a subscope found below the top of its statement, has
    in its meta its name, its scope, [lib] and [capa/subscope-rule] set
    and the rule for [capa/parent]. The statement that the rule is left
    with is its statement with the subscopes replaced where they stood:
    every node keeps its kind, its description and its children in
    their order, but for each child that was a subscope, which is now
    the [match] of a rule yielded for that subscope. So the new rule is
    matched in it, and no subscope remains below the top. *)
Theorem extract_subscope_rules_yields (self : Rule) (n : nat) :
  let res := extract_subscope_rules uuid4_hex self n in
  let self' := res.1.1 in
  name self' = name self
  ∧ scope self' = scope self ∧ meta self' = meta self
  ∧ replaced_in_place res.1.2 (statement self) (statement self')
  ∧ Forall (fun c => count_subscopes c = 0%nat)
      (get_children (statement self'))
  ∧ ∀ R, R ∈ res.1.2 →
      (∃ k, (n ≤ k < res.2)%nat
            ∧ name R = name self +:+ "/" +:+ uuid4_hex k)
      ∧ Subscope (scope R) (statement R) ∈ nodes_below (statement self)
      ∧ dict_get (meta R) "name" = Some (YStr (name R))
      ∧ dict_get (meta R) "scope" = Some (YStr (scope R))
      ∧ dict_get (meta R) "lib" = Some (YBool true)
      ∧ dict_get (meta R) "capa/subscope-rule" = Some (YBool true)
      ∧ dict_get (meta R) "capa/parent" = Some (YStr (name self))
      ∧ name R ∈ matched_values (statement self').
Proof.
  intros res self'. subst self' res. unfold extract_subscope_rules.
  pose proof (extraction_ok_rec uuid4_hex (name self) (statement self) n)
    as (Hle & Htop & Hleaf & Hbelow & Hrules).
  pose proof (replaced_in_place_rec uuid4_hex (name self) (statement self) n)
    as Hplace.
  destruct (_extract_subscope_rules_rec uuid4_hex (name self)
              (statement self) n) as [[statement' rs] n'].
  cbn [fst snd name scope meta statement] in *.
  split; [done |]. split; [done |]. split; [done |]. split; [done |].
  split; [done |].
  intros R HR.
  destruct (Hrules R HR) as (k & sc & child & Hk & -> & Hnode & Hval).
  split; [by exists k |]. by repeat split.
Qed.

Lemma extract_budget_step (rule : Rule) (rest : list Rule) (n : nat) :
  (extract_budget (rest ++ (extract_subscope_rules uuid4_hex rule n).1.2)
   < extract_budget (rule :: rest))%nat.
Proof.
  unfold extract_subscope_rules, extract_budget.
  pose proof (extraction_counted uuid4_hex (name rule) (statement rule) n) as H.
  destruct (_extract_subscope_rules_rec uuid4_hex (name rule)
              (statement rule) n) as [[statement' subs] n'].
  cbn [fst snd] in *. rewrite length_app, map_app, list_sum_app.
  unfold subscope_weight in H.
  assert (length subs
          + list_sum (map (fun r => count_subscopes (statement r)) subs)
          = list_sum (map (fun r => S (count_subscopes (statement r))) subs))%nat
    as Hsubs.
  { clear. induction subs as [| r subs IH]; [done |].
    unfold list_sum in *. cbn [length map fold_right]. lia. }
  unfold list_sum in *. cbn [length map fold_right]. lia.
Qed.

(** with the budget of [_extract_subscope_rules] the queue loop is
    done: more iterations change nothing *)
Lemma extract_loop_done (fuel : nat) (rules done : list Rule) (n : nat) :
  (extract_budget rules ≤ fuel)%nat →
  extract_loop uuid4_hex (S fuel) rules done n
  = extract_loop uuid4_hex fuel rules done n.
Proof.
  revert rules done n. induction fuel as [| fuel IH]; intros rules done n Hfuel.
  - destruct rules as [| rule rest]; [done |].
    unfold extract_budget in Hfuel. cbn [length] in Hfuel. lia.
  - destruct rules as [| rule rest]; [done |].
    pose proof (extract_budget_step rule rest n) as Hstep.
    change (extract_loop uuid4_hex (S (S fuel)) (rule :: rest) done n)
      with (let '(rule', subs, n') := extract_subscope_rules uuid4_hex rule n in
            extract_loop uuid4_hex (S fuel) (rest ++ subs) (done ++ [rule']) n').
    change (extract_loop uuid4_hex (S fuel) (rule :: rest) done n)
      with (let '(rule', subs, n') := extract_subscope_rules uuid4_hex rule n in
            extract_loop uuid4_hex fuel (rest ++ subs) (done ++ [rule']) n').
    destruct (extract_subscope_rules uuid4_hex rule n) as [[rule' subs] n'].
    cbn [fst snd] in Hstep. apply IH. lia.
Qed.

Lemma extract_subscope_rules_done (extra : nat) (rules : list Rule) (n : nat) :
  extract_loop uuid4_hex (extract_budget rules + extra) rules [] n
  = _extract_subscope_rules uuid4_hex rules n.
Proof.
  unfold _extract_subscope_rules. induction extra as [| extra IH].
  - by rewrite Nat.add_0_r.
  - rewrite Nat.add_succ_r, extract_loop_done by lia. exact IH.
Qed.

End ExtractionTheorem.


(** * The order of the rules of a scope *)

Section OrderBasics.
Lemma order_post_refl namespaces by_name st :
  order_invariant namespaces by_name st → order_post namespaces by_name st st.
Proof. intros H. split; [done |]. split; [exists []; by rewrite app_nil_r | done]. Qed.

Lemma order_post_trans namespaces by_name st1 st2 st3 :
  order_post namespaces by_name st1 st2 → order_post namespaces by_name st2 st3 →
  order_post namespaces by_name st1 st3.
Proof.
  intros (_ & [m1 H1] & Hs1) (Hinv & [m2 H2] & Hs2).
  split; [done |]. split; [| set_solver].
  exists (m1 ++ m2). by rewrite H2, H1, app_assoc.
Qed.

Lemma order_post_elem namespaces by_name st st' (R : Rule) :
  order_post namespaces by_name st st' → R ∈ st.2 → R ∈ st'.2.
Proof. intros (_ & [more ->] & _) H. apply elem_of_app. by left. Qed.

Lemma closed_at_mono namespaces by_name (W W' : gset string) (x : string) :
  W ⊆ W' → closed_at namespaces by_name W x → closed_at namespaces by_name W' x.
Proof.
  intros Hsub Hclosed R HR d Hd. destruct (Hclosed R HR d Hd). split; [set_solver | done].
Qed.

Lemma elem_of_List_filter {A} (f : A → bool) (l : list A) (x : A) :
  x ∈ List.filter f l ↔ x ∈ l ∧ f x = true.
Proof. rewrite !list_elem_of_In. apply filter_In. Qed.

Lemma rule_set_update_spec (acc new : list Rule) :
  (∀ r, r ∈ acc → r ∈ rule_set_update acc new)
  ∧ (∀ r, r ∈ rule_set_update acc new → r ∈ acc ∨ r ∈ new)
  ∧ (∀ r, r ∈ new → ∃ r', r' ∈ rule_set_update acc new ∧ name r' = name r).
Proof.
  unfold rule_set_update. revert acc.
  induction new as [| x new IH]; intros acc.
  - cbn. split; [done |]. split; [by left | by intros r ?%elem_of_nil].
  - cbn [fold_left].
    set (acc' := if bool_decide (name x ∈ map name acc) then acc else acc ++ [x]).
    destruct (IH acc') as (Hkeep & Hfrom & Hnames).
    assert (Hacc : ∀ r, r ∈ acc → r ∈ acc').
    { intros r Hr. unfold acc'. case_bool_decide; [done |].
      apply elem_of_app. by left. }
    assert (Hacc' : ∀ r, r ∈ acc' → r ∈ acc ∨ r = x).
    { intros r Hr. unfold acc' in Hr. case_bool_decide; [by left |].
      apply elem_of_app in Hr as [? | ?%list_elem_of_singleton]; eauto. }
    split; [by eauto |]. split.
    + intros r [Hr | Hr]%Hfrom.
      * destruct (Hacc' r Hr) as [? | ->]; [by left | right; apply list_elem_of_here].
      * right. by apply list_elem_of_further.
    + intros r [-> | Hr]%elem_of_cons; [| by apply Hnames].
      unfold acc' in Hkeep. case_bool_decide as Hx.
      * apply list_elem_of_fmap in Hx as (r' & Hname & Hr').
        exists r'. split; [by apply Hkeep | done].
      * exists x. split; [| done]. apply Hkeep, elem_of_app. right.
        apply list_elem_of_here.
Qed.

Lemma closed_rules_update namespaces by_name (acc new : list Rule) :
  keyed by_name →
  closed_rules namespaces by_name acc → closed_rules namespaces by_name new →
  closed_rules namespaces by_name (rule_set_update acc new).
Proof.
  intros Hkeyed [Hacc Hacc_closed] [Hnew Hnew_closed].
  destruct (rule_set_update_spec acc new) as (Hkeep & Hfrom & Hnames).
  split.
  - intros r [? | ?]%Hfrom; eauto.
  - intros r Hr d Hd. apply Hfrom in Hr as [Hr | Hr].
    + destruct (Hacc_closed r Hr d Hd) as (D & HD & Hin). eauto.
    + destruct (Hnew_closed r Hr d Hd) as (D & HD & Hin).
      exists D. split; [done |].
      destruct (Hnames D Hin) as (D' & HD' & Hname).
      assert (D' ∈ dict_values by_name) as Hvalue.
      { apply Hfrom in HD' as [? | ?]; eauto. }
      apply (keyed_get_value _ _ Hkeyed) in Hvalue.
      apply Hnew, (keyed_get_value _ _ Hkeyed) in Hin.
      rewrite Hname, Hin in Hvalue. by injection Hvalue as ->.
Qed.

Lemma NoDup_name_inj (rules : list Rule) (r1 r2 : Rule) :
  NoDup (map name rules) → r1 ∈ rules → r2 ∈ rules → name r1 = name r2 →
  r1 = r2.
Proof.
  intros Hnd H1 H2 Hname.
  pose proof (rules_by_name_get rules r1 Hnd H1) as Hget1.
  pose proof (rules_by_name_get rules r2 Hnd H2) as Hget2.
  rewrite Hname, Hget2 in Hget1. by injection Hget1.
Qed.

(** within a sublist of the rules, a name still leads to its rule *)
Lemma rules_by_name_sublist (rules part : list Rule) (D : Rule) :
  NoDup (map name rules) → (∀ r, r ∈ part → r ∈ rules) → D ∈ part →
  dict_get (rules_by_name part) (name D) = Some D.
Proof.
  intros Hnd Hpart HD.
  destruct (dict_get (rules_by_name part) (name D)) as [R |] eqn:Hget.
  - f_equal. apply (NoDup_name_inj rules); [done | | by apply Hpart |].
    + apply Hpart, rules_by_name_elem. by eapply dict_get_value.
    + eapply keyed_get_name; [apply rules_by_name_keyed | done].
  - apply dict_get_None in Hget. destruct Hget. apply rules_by_name_keys.
    apply list_elem_of_fmap. by exists D.
Qed.

(** the index of a closed part of the rules resolves the [match]
    values of its rules as the index of all the rules does *)
Lemma dependencies_of_closed_part (rules part : list Rule)
    namespaces namespaces' (r : Rule) (dep : string) :
  NoDup (map name rules) →
  indexed rules namespaces → indexed part namespaces' →
  closed_rules namespaces (rules_by_name rules) part →
  r ∈ part →
  dep ∈ get_dependencies r namespaces' ↔ dep ∈ get_dependencies r namespaces.
Proof.
  intros Hnd [Hne Hidx] [Hne' Hidx'] [Hpart Hclosed] Hr.
  rewrite rules_by_name_values in Hpart by done.
  unfold get_dependencies. rewrite !dependencies_rec_spec.
  assert (∀ v, v ∈ matched_values (statement r) →
               resolves namespaces' v dep ↔ resolves namespaces v dep) as Hv.
  { intros v Hv. unfold resolves.
    destruct (namespaces !! v) as [rs |] eqn:Hrs.
    - assert (∀ x, x ∈ rs → x ∈ namespaces' !!! v) as Hsub.
      { intros x Hx.
        assert (x ∈ rules ∧ in_namespace v x) as [Hx_rules Hx_ns].
        { apply Hidx. by rewrite lookup_total_alt, Hrs. }
        apply Hidx'. split; [| done].
        destruct (Hclosed r Hr (name x)) as (D & HD & HDpart).
        { apply dependencies_rec_spec. exists v. split; [done |].
          unfold resolves. rewrite Hrs. apply list_elem_of_fmap. by exists x. }
        rewrite (rules_by_name_get rules x Hnd Hx_rules) in HD.
        by injection HD as ->. }
      destruct rs as [| x0 rs0]; [by destruct (Hne v) |].
      pose proof (Hsub x0 (list_elem_of_here _ _)) as Hx0.
      rewrite lookup_total_alt in Hx0, Hsub.
      destruct (namespaces' !! v) as [rs' |] eqn:Hrs';
        [| by apply elem_of_nil in Hx0].
      cbn in Hsub. rewrite !list_elem_of_fmap.
      split; intros (x & -> & Hx); exists x; (split; [done |]).
      + assert (x ∈ namespaces !!! v) as Hin; [| by rewrite lookup_total_alt, Hrs in Hin].
        apply Hidx. assert (x ∈ part ∧ in_namespace v x) as [? ?]; [| by eauto].
        apply Hidx'. by rewrite lookup_total_alt, Hrs'.
      + by apply Hsub.
    - destruct (namespaces' !! v) as [rs' |] eqn:Hrs'; [| done].
      destruct rs' as [| x rs']; [by destruct (Hne' v) |].
      assert (x ∈ part ∧ in_namespace v x) as [Hx Hns].
      { apply Hidx'. rewrite lookup_total_alt, Hrs'. apply list_elem_of_here. }
      assert (x ∈ namespaces !!! v) as Hin by (apply Hidx; eauto).
      rewrite lookup_total_alt, Hrs in Hin. by apply elem_of_nil in Hin. }
  split; intros (v & Hin & Hres); exists v; (split; [done |]); by apply Hv.
Qed.

Lemma occurs_before_split (l : list Rule) (D R : Rule) :
  occurs_before l D R ↔ ∀ l1 l2, l = l1 ++ R :: l2 → D ∈ l1.
Proof.
  split.
  - intros Hbefore l1 l2 ->.
    destruct (Hbefore (length l1)) as (j & Hj & HD).
    { by rewrite list_lookup_middle. }
    rewrite lookup_app_l in HD by done. by eapply list_elem_of_lookup_2.
  - intros Hsplit i Hi.
    pose proof (Hsplit (take i l) (drop (S i) l)) as HD.
    rewrite take_drop_middle in HD by done. specialize (HD eq_refl).
    apply list_elem_of_lookup in HD as [j Hj].
    pose proof (lookup_lt_Some _ _ _ Hj) as Hlt. rewrite length_take in Hlt.
    exists j. split; [lia |]. by rewrite lookup_take_lt in Hj by lia.
Qed.

Lemma List_filter_split {A} (f : A → bool) (l : list A) (l1' l2' : list A) (x : A) :
  List.filter f l = l1' ++ x :: l2' →
  ∃ l1 l2, l = l1 ++ x :: l2 ∧ List.filter f l1 = l1'.
Proof.
  revert l1'. induction l as [| y l IH]; intros l1' Hf.
  - by destruct l1'.
  - cbn [List.filter] in Hf. destruct (f y) eqn:Hy.
    + destruct l1' as [| z l1'].
      * injection Hf as -> Hf. exists [], l. by split.
      * injection Hf as -> Hf. destruct (IH l1' Hf) as (l1 & l2 & -> & <-).
        exists (z :: l1), l2. split; [done |]. cbn. by rewrite Hy.
    + destruct (IH l1' Hf) as (l1 & l2 & -> & <-).
      exists (y :: l1), l2. split; [done |]. cbn. by rewrite Hy.
Qed.

Lemma occurs_before_filter (f : Rule → bool) (l : list Rule) (D R : Rule) :
  occurs_before l D R → f D = true → occurs_before (List.filter f l) D R.
Proof.
  rewrite !occurs_before_split. intros Hbefore HD l1' l2' Hsplit.
  apply List_filter_split in Hsplit as (l1 & l2 & -> & <-).
  apply elem_of_List_filter. split; [by eapply Hbefore | done].
Qed.

Lemma occurs_before_trans (l : list Rule) (D X R : Rule) :
  occurs_before l X R → occurs_before l D X → occurs_before l D R.
Proof.
  intros HXR HDX i Hi. destruct (HXR i Hi) as (j & Hj & HX).
  destruct (HDX j HX) as (k & Hk & HD). exists k. split; [lia | done].
Qed.

Lemma foldM_total {A S} (f : S → A → result S) (l : list A) (s : S) :
  (∀ s a, a ∈ l → ∃ s', f s a = Ok s') → ∃ s', foldM f l s = Ok s'.
Proof.
  revert s. induction l as [| a l IH]; intros s Hf; [by exists s |].
  destruct (Hf s a (list_elem_of_here _ _)) as [s1 Hs1].
  cbn [foldM]. rewrite Hs1. cbn. apply IH.
  intros s0 a0 Ha0. apply Hf. by apply list_elem_of_further.
Qed.

Lemma index_rule_total namespaces namespaces' (rule : Rule) :
  is_Ok (index_rule namespaces rule) → is_Ok (index_rule namespaces' rule).
Proof.
  unfold index_rule, is_Ok.
  destruct (dict_get (meta rule) "namespace") as [namespace |]; [| by eauto].
  destruct (truthy namespace); cbn [negb]; [| by eauto].
  destruct namespace; intros [? ?]; by eauto.
Qed.

Lemma index_rules_each (rules : list Rule) namespaces namespaces' :
  foldM index_rule rules namespaces = Ok namespaces' →
  ∀ r, r ∈ rules → is_Ok (index_rule ∅ r).
Proof.
  revert namespaces. induction rules as [| r0 rules IH];
    intros namespaces Hfold r Hr; [by apply elem_of_nil in Hr |].
  cbn [foldM] in Hfold. apply bind_Ok in Hfold as (nss1 & Hr0 & Hfold).
  apply elem_of_cons in Hr as [-> | Hr].
  - apply (index_rule_total namespaces). by exists nss1.
  - by eapply IH.
Qed.

Lemma index_rules_part (rules part : list Rule) :
  is_Ok (index_rules_by_namespace rules) →
  (∀ r, r ∈ part → r ∈ rules) →
  is_Ok (index_rules_by_namespace part).
Proof.
  unfold index_rules_by_namespace. intros [namespaces Hrules] Hpart.
  apply foldM_total. intros nss r Hr. apply (index_rule_total ∅).
  eapply index_rules_each; [exact Hrules | by apply Hpart].
Qed.

End OrderBasics.

Section OrderFacts.
Variable uuid4_hex : nat → string.
Variable set_order : gset string → list string.
Variable rule_set_order : list Rule → list Rule.
Hypothesis set_order_perm : ∀ names, set_order names ≡ₚ elements names.
Hypothesis rule_set_order_perm : ∀ rule_set, rule_set_order rule_set ≡ₚ rule_set.

Implicit Types (namespaces : gmap string (list Rule)) (by_name : dict Rule).
Implicit Types (st : gset string * list Rule) (rule : Rule).

Lemma set_order_elem' (names : gset string) (n : string) :
  n ∈ set_order names ↔ n ∈ names.
Proof. by rewrite set_order_perm, elem_of_elements. Qed.

(** ** The depth-first traversal *)

(** the loop over the dependencies, given what a call of less fuel
    does *)
Lemma order_deps_spec (fuel : nat) namespaces by_name :
  (∀ rule st st',
     dict_get by_name (name rule) = Some rule →
     order_invariant namespaces by_name st →
     order_rec set_order fuel namespaces by_name rule st = Ok st' →
     order_post namespaces by_name st st' ∧ rule ∈ st'.2) →
  keyed by_name →
  ∀ (deps : list string) st st',
    order_invariant namespaces by_name st →
    foldM (order_step set_order fuel namespaces by_name) deps st = Ok st' →
    order_post namespaces by_name st st'
    ∧ ∀ d, d ∈ deps → ∃ D, dict_get by_name d = Some D ∧ D ∈ st'.2.
Proof.
  intros Hrec Hkeyed deps. induction deps as [| dep deps IH]; intros st st' Hinv Hfold.
  - injection Hfold as <-. split; [by apply order_post_refl |].
    by intros d ?%elem_of_nil.
  - simpl in Hfold. apply bind_Ok in Hfold as (st1 & Hstep & Hfold).
    unfold order_step in Hstep.
    destruct (dict_get by_name dep) as [r |] eqn:Hdep; [| done].
    assert (name r = dep) as Hname by by eapply keyed_get_name.
    destruct (Hrec r st st1) as [Hpost1 Hr]; [by rewrite Hname | done | done |].
    destruct (IH st1 st' (proj1 Hpost1) Hfold) as [Hpost2 Hdeps].
    split; [by eapply order_post_trans |].
    intros d [-> | Hd]%elem_of_cons; [| by apply Hdeps].
    exists r. split; [done |]. by eapply order_post_elem.
Qed.

Lemma order_rec_spec (fuel : nat) namespaces by_name :
  keyed by_name →
  ∀ rule st st',
    dict_get by_name (name rule) = Some rule →
    order_invariant namespaces by_name st →
    order_rec set_order fuel namespaces by_name rule st = Ok st' →
    order_post namespaces by_name st st' ∧ rule ∈ st'.2.
Proof.
  intros Hkeyed. induction fuel as [| fuel IH]; intros rule st st' Hrule Hinv Hrec;
    [done |].
  cbn [order_rec] in Hrec. case_bool_decide as Hseen.
  - injection Hrec as <-. split; [by apply order_post_refl |].
    destruct Hinv as [Hseen_ret _].
    destruct (Hseen_ret _ Hseen) as (R & HR & Hin). congruence.
  - apply bind_Ok in Hrec as (st1 & Hfold & Hret). injection Hret as <-.
    destruct (order_deps_spec fuel namespaces by_name IH Hkeyed _ st st1 Hinv Hfold)
      as [(Hinv1 & [more Hmore] & Hsub) Hdeps].
    cbn [fst snd]. split; [| apply elem_of_app; right; apply list_elem_of_here].
    split; [| split].
    + destruct Hinv1 as [Hseen1 Hret1]. split; cbn [fst snd].
      * intros x [->%elem_of_singleton | Hx]%elem_of_union.
        -- exists rule. split; [done |]. apply elem_of_app. right.
           apply list_elem_of_here.
        -- destruct (Hseen1 x Hx) as (R & HR & Hin). exists R.
           split; [done |]. apply elem_of_app. by left.
      * intros i r Hi.
        destruct (decide (i < length st1.2)%nat) as [Hlt | Hge].
        -- rewrite lookup_app_l in Hi by done.
           destruct (Hret1 i r Hi) as [Hr Hbefore]. split; [done |].
           intros d Hd. destruct (Hbefore d Hd) as (j & D & Hj & HD & Hget).
           exists j, D. split; [done |]. split; [| done].
           rewrite lookup_app_l by lia. done.
        -- rewrite lookup_app_r in Hi by lia.
           destruct (i - length st1.2)%nat as [| k] eqn:Hk; [| by destruct k].
           injection Hi as <-. split; [done |]. intros d Hd.
           destruct (Hdeps d) as (D & HD & Hin); [by apply set_order_elem' |].
           apply list_elem_of_lookup in Hin as [j Hj].
           exists j, D. pose proof (lookup_lt_Some _ _ _ Hj).
           split; [lia |]. split; [| done]. by rewrite lookup_app_l.
    + exists (more ++ [rule]). cbn [snd]. by rewrite Hmore, app_assoc.
    + cbn [fst]. set_solver.
Qed.

(** what [topologically_order_rules] returns, when it returns: every
    rule of the dictionary is in the list, and every rule in the list
    comes after the rules of its dependencies *)
Lemma topologically_order_rules_spec (fuel : nat) (rules ordered : list Rule) :
  topologically_order_rules set_order fuel rules = Ok ordered →
  ∃ namespaces,
    index_rules_by_namespace rules = Ok namespaces
    ∧ order_invariant namespaces (rules_by_name rules) (∅, ordered)
    ∧ ∀ R, R ∈ dict_values (rules_by_name rules) → R ∈ ordered.
Proof.
  unfold topologically_order_rules. intros H.
  apply bind_Ok in H as (namespaces & Hindex & H).
  apply bind_Ok in H as (st & Hfold & Hret). injection Hret as <-.
  exists namespaces. split; [done |].
  pose proof (rules_by_name_keyed rules) as Hkeyed.
  assert (∀ values st0 st1,
            (∀ R, R ∈ values → R ∈ dict_values (rules_by_name rules)) →
            order_invariant namespaces (rules_by_name rules) st0 →
            foldM (fun st rule =>
                     order_rec set_order fuel namespaces
                       (rules_by_name rules) rule st) values st0 = Ok st1 →
            order_post namespaces (rules_by_name rules) st0 st1
            ∧ ∀ R, R ∈ values → R ∈ st1.2) as Hgen.
  { induction values as [| rule values IH]; intros st0 st1 Hvalues Hinv Hf.
    - injection Hf as <-. split; [by apply order_post_refl |].
      by intros R ?%elem_of_nil.
    - simpl in Hf. apply bind_Ok in Hf as (st2 & Hrule & Hf).
      destruct (order_rec_spec fuel namespaces _ Hkeyed rule st0 st2)
        as [Hpost Hin]; [| done | done |].
      { apply keyed_get_value; [done |]. apply Hvalues, list_elem_of_here. }
      destruct (IH st2 st1) as [Hpost' Hall]; [| by destruct Hpost | done |].
      { intros R HR. by apply Hvalues, list_elem_of_further. }
      split; [by eapply order_post_trans |].
      intros R [-> | HR]%elem_of_cons; [| by apply Hall].
      by eapply order_post_elem. }
  destruct (Hgen _ (∅, []) st (fun R H => H)) as [(Hinv & _ & _) Hall];
    [| done |].
  { split; [set_solver |]. intros i r Hi. by destruct i. }
  split; [| done]. destruct Hinv as [_ Hret]. split; [set_solver | done].
Qed.

(** ** A rule and its dependencies *)

Lemma wanted_deps_spec (fuel : nat) namespaces by_name :
  (∀ rule W W',
     dict_get by_name (name rule) = Some rule →
     wanted_rec set_order fuel namespaces by_name rule W = Ok W' →
     W ⊆ W' ∧ name rule ∈ W'
     ∧ ∀ x, x ∈ W' → x ∉ W ∨ x = name rule →
            closed_at namespaces by_name W' x) →
  keyed by_name →
  ∀ (deps : list string) (W0 W1 : gset string),
    foldM (wanted_step set_order fuel namespaces by_name) deps W0 = Ok W1 →
    W0 ⊆ W1
    ∧ (∀ d, d ∈ deps → d ∈ W1 ∧ is_Some (dict_get by_name d))
    ∧ ∀ x, x ∈ W1 → x ∉ W0 → closed_at namespaces by_name W1 x.
Proof.
  intros Hrec Hkeyed deps.
  induction deps as [| dep deps IH]; intros W0 W1 Hfold.
  - injection Hfold as <-. split; [done |].
    split; [by intros d ?%elem_of_nil | by intros x ? ?].
  - simpl in Hfold. apply bind_Ok in Hfold as (W & Hstep & Hfold).
    unfold wanted_step in Hstep.
    destruct (dict_get by_name dep) as [r |] eqn:Hdep; [| done].
    assert (name r = dep) as Hname by by eapply keyed_get_name.
    destruct (Hrec r W0 W) as (Hsub & Hr & Hclosed); [by rewrite Hname | done |].
    destruct (IH W W1 Hfold) as (Hsub' & Hdeps & Hclosed').
    split; [set_solver |]. split.
    + intros d [-> | Hd]%elem_of_cons; [| by apply Hdeps].
      split; [set_solver | by eauto].
    + intros x Hx Hnew. destruct (decide (x ∈ W)) as [HxW | HxW].
      * eapply closed_at_mono; [exact Hsub' |]. apply Hclosed; [done | by left].
      * by apply Hclosed'.
Qed.

Lemma wanted_rec_spec (fuel : nat) namespaces by_name :
  keyed by_name →
  ∀ rule (W W' : gset string),
    dict_get by_name (name rule) = Some rule →
    wanted_rec set_order fuel namespaces by_name rule W = Ok W' →
    W ⊆ W' ∧ name rule ∈ W'
    ∧ ∀ x, x ∈ W' → x ∉ W ∨ x = name rule →
           closed_at namespaces by_name W' x.
Proof.
  intros Hkeyed. induction fuel as [| fuel IH]; intros rule W W' Hrule Hrec;
    [done |].
  cbn [wanted_rec] in Hrec.
  destruct (wanted_deps_spec fuel namespaces by_name IH Hkeyed _ _ _ Hrec)
    as (Hsub & Hdeps & Hclosed).
  split; [set_solver |]. split; [set_solver |].
  intros x Hx Hnew. destruct (decide (x = name rule)) as [-> | Hne].
  - intros R HR d Hd. rewrite Hrule in HR. injection HR as <-.
    apply Hdeps. by apply set_order_elem'.
  - apply Hclosed; [done |]. destruct Hnew as [Hnew | ?]; [| done]. set_solver.
Qed.

(** what [get_rules_and_dependencies] selects holds the rules of all
    the dependencies of its rules *)
Lemma get_rules_and_dependencies_closed (fuel : nat) (rules : list Rule)
    (rule_name : string) (selected : list Rule) namespaces :
  index_rules_by_namespace rules = Ok namespaces →
  get_rules_and_dependencies set_order fuel rules rule_name = Ok selected →
  closed_rules namespaces (rules_by_name rules) selected.
Proof.
  intros Hindex H. unfold get_rules_and_dependencies in H.
  rewrite Hindex in H. cbn in H.
  destruct (dict_get (rules_by_name rules) rule_name) as [rule |] eqn:Hrule;
    [| done].
  apply bind_Ok in H as (W & Hrec & Hsel). injection Hsel as <-.
  pose proof (rules_by_name_keyed rules) as Hkeyed.
  assert (name rule = rule_name) as Hname by by eapply keyed_get_name.
  destruct (wanted_rec_spec fuel namespaces _ Hkeyed rule {[rule_name]} W)
    as (_ & _ & Hclosed); [by rewrite Hname | done |].
  split.
  - by intros r [? _]%elem_of_List_filter.
  - intros r [Hr Hwanted]%elem_of_List_filter d Hd.
    apply bool_decide_eq_true in Hwanted.
    assert (closed_at namespaces (rules_by_name rules) W (name r)) as Hr_closed.
    { apply Hclosed; [done |]. destruct (decide (name r = name rule)); [by right |].
      left. rewrite Hname in *. set_solver. }
    destruct (Hr_closed r (keyed_get_value _ _ Hkeyed Hr) d Hd) as [HdW [D HD]].
    exists D. split; [done |]. apply elem_of_List_filter.
    split; [by eapply dict_get_value |].
    apply bool_decide_eq_true. by rewrite (keyed_get_name _ _ _ Hkeyed HD).
Qed.

(** ** The set of the rules of a scope *)

Lemma scope_rules_closed (fuel : nat) (rules : list Rule) namespaces
    (todo acc scope_rules : list Rule) :
  index_rules_by_namespace rules = Ok namespaces →
  closed_rules namespaces (rules_by_name rules) acc →
  foldM
    (fun scope_rules rule =>
       if is_subscope_rule rule then Ok scope_rules
       else
         selected ← get_rules_and_dependencies set_order fuel rules (name rule);
         Ok (rule_set_update scope_rules selected))
    todo acc = Ok scope_rules →
  closed_rules namespaces (rules_by_name rules) scope_rules.
Proof.
  intros Hindex. revert acc.
  induction todo as [| rule todo IH]; intros acc Hacc Hfold.
  - by injection Hfold as <-.
  - cbn [foldM] in Hfold. apply bind_Ok in Hfold as (acc' & Hstep & Hfold).
    apply (IH acc'); [| done].
    destruct (is_subscope_rule rule); [by injection Hstep as <- |].
    apply bind_Ok in Hstep as (selected & Hsel & Hacc'). injection Hacc' as <-.
    apply closed_rules_update; [apply rules_by_name_keyed | done |].
    by eapply get_rules_and_dependencies_closed.
Qed.

(** ** The namespaces of a closed collection of rules *)

(** ** Filtering keeps the order *)

(** ** With fuel above the ranks, the closures return *)

Lemma order_rec_total (fuel : nat) namespaces by_name (rank : string → nat) :
  keyed by_name → ranked namespaces by_name rank →
  ∀ rule st,
    dict_get by_name (name rule) = Some rule →
    (rank (name rule) < fuel)%nat →
    ∃ st', order_rec set_order fuel namespaces by_name rule st = Ok st'.
Proof.
  intros Hkeyed Hranked.
  induction fuel as [| fuel IH]; intros rule st Hrule Hrank; [lia |].
  cbn [order_rec]. case_bool_decide; [by eauto |].
  destruct (foldM_total (order_step set_order fuel namespaces by_name)
              (set_order (get_dependencies rule namespaces)) st) as [st1 Hst1].
  - intros st0 dep Hdep%set_order_elem'. unfold order_step.
    destruct (Hranked _ _ Hrule dep Hdep) as [[D HD] Hlt].
    rewrite HD. pose proof (keyed_get_name _ _ _ Hkeyed HD) as Hname.
    apply IH; rewrite Hname; [done | lia].
  - unfold order_step in Hst1. rewrite Hst1. by eauto.
Qed.

Lemma wanted_rec_total (fuel : nat) namespaces by_name (rank : string → nat) :
  keyed by_name → ranked namespaces by_name rank →
  ∀ rule (wanted : gset string),
    dict_get by_name (name rule) = Some rule →
    (rank (name rule) < fuel)%nat →
    ∃ wanted', wanted_rec set_order fuel namespaces by_name rule wanted
               = Ok wanted'.
Proof.
  intros Hkeyed Hranked.
  induction fuel as [| fuel IH]; intros rule wanted Hrule Hrank; [lia |].
  cbn [wanted_rec].
  apply (foldM_total (wanted_step set_order fuel namespaces by_name)).
  intros W dep Hdep%set_order_elem'. unfold wanted_step.
  destruct (Hranked _ _ Hrule dep Hdep) as [[D HD] Hlt].
  rewrite HD. pose proof (keyed_get_name _ _ _ Hkeyed HD) as Hname.
  apply IH; rewrite Hname; [done | lia].
Qed.

Lemma get_rules_and_dependencies_total (fuel : nat) (rules : list Rule)
    namespaces (rank : string → nat) (rule : Rule) :
  NoDup (map name rules) →
  index_rules_by_namespace rules = Ok namespaces →
  ranked namespaces (rules_by_name rules) rank →
  (∀ r, r ∈ rules → (rank (name r) < fuel)%nat) →
  rule ∈ rules →
  is_Ok (get_rules_and_dependencies set_order fuel rules (name rule)).
Proof.
  intros Hnd Hindex Hranked Hfuel Hrule. unfold get_rules_and_dependencies.
  rewrite Hindex. cbn. rewrite rules_by_name_get by done.
  destruct (wanted_rec_total fuel namespaces (rules_by_name rules) rank
              (rules_by_name_keyed rules) Hranked rule {[name rule]})
    as [wanted ->]; [by apply rules_by_name_get | by apply Hfuel |].
  by eexists.
Qed.

Lemma get_rules_for_scope_total (fuel : nat) (rules : list Rule)
    namespaces (rank : string → nat) (scope_ : string) :
  NoDup (map name rules) →
  index_rules_by_namespace rules = Ok namespaces →
  ranked namespaces (rules_by_name rules) rank →
  (∀ r, r ∈ rules → (rank (name r) < fuel)%nat) →
  is_Ok (_get_rules_for_scope set_order rule_set_order fuel rules scope_).
Proof.
  intros Hnd Hindex Hranked Hfuel. unfold _get_rules_for_scope.
  destruct (foldM_total
              (fun scope_rules rule =>
                 if is_subscope_rule rule then Ok scope_rules
                 else
                   selected ← get_rules_and_dependencies set_order fuel rules
                                (name rule);
                   Ok (rule_set_update scope_rules selected))
              rules []) as [selected Hselected].
  { intros acc rule Hrule. destruct (is_subscope_rule rule); [by eauto |].
    destruct (get_rules_and_dependencies_total fuel rules namespaces rank rule)
      as [sel ->]; [done .. |]. by eexists. }
  rewrite Hselected. cbn.
  set (part := rule_set_order selected).
  assert (closed_rules namespaces (rules_by_name rules) part) as Hclosed.
  { assert (closed_rules namespaces (rules_by_name rules) selected)
      as [Hsub Hclosed].
    { eapply scope_rules_closed; [done | | exact Hselected].
      split; by intros r ?%elem_of_nil. }
    split.
    - intros r Hr. apply Hsub. by rewrite <- (rule_set_order_perm selected).
    - intros r Hr d Hd. unfold part in Hr.
      rewrite (rule_set_order_perm selected) in Hr.
      destruct (Hclosed r Hr d Hd) as (D & HD & Hin). exists D.
      split; [done |]. unfold part. by rewrite (rule_set_order_perm selected). }
  assert (Hpart : ∀ r, r ∈ part → r ∈ rules).
  { intros r Hr. destruct Hclosed as [Hsub _].
    rewrite rules_by_name_values in Hsub by done. by apply Hsub. }
  destruct (index_rules_part rules part) as [namespaces' Hindex'];
    [by eexists | done |].
  unfold topologically_order_rules. rewrite Hindex'. cbn.
  pose proof (index_rules_by_namespace_indexed _ _ Hindex) as Hidx.
  pose proof (index_rules_by_namespace_indexed _ _ Hindex') as Hidx'.
  assert (ranked namespaces' (rules_by_name part) rank) as Hranked'.
  { intros x R HR d Hd.
    assert (R ∈ part) as HRpart.
    { apply rules_by_name_elem. by eapply dict_get_value. }
    assert (name R = x) as <-
      by (eapply keyed_get_name; [apply rules_by_name_keyed | done]).
    apply (dependencies_of_closed_part rules part namespaces namespaces')
      in Hd; [| done ..].
    destruct (Hranked (name R) R) with (d := d) as [_ Hlt];
      [by apply rules_by_name_get; [| apply Hpart] | done |].
    split; [| done].
    destruct Hclosed as [_ Hclosed].
    destruct (Hclosed R HRpart d Hd) as (D & HD & HDpart).
    rewrite <- (keyed_get_name _ _ _ (rules_by_name_keyed rules) HD).
    rewrite (rules_by_name_sublist rules part D) by done. by eauto. }
  destruct (foldM_total
              (fun st rule =>
                 order_rec set_order fuel namespaces' (rules_by_name part)
                   rule st)
              (dict_values (rules_by_name part)) (∅, [])) as [st ->];
    [| by eexists].
  intros st rule Hrule.
  apply (order_rec_total fuel namespaces' _ rank);
    [apply rules_by_name_keyed | done | |].
  - apply keyed_get_value; [apply rules_by_name_keyed | done].
  - apply Hfuel, Hpart. by apply rules_by_name_elem.
Qed.

(** a rule set is constructed when the names are distinct, there is a
    rule, the namespaces index, every dependency has a rule, of a lower
    rank, and the fuel is above the ranks *)
Lemma RuleSet_init_returns (fuel : nat) (rule_list : list Rule) (n : nat)
    namespaces (rank : string → nat) :
  let extracted := (_extract_subscope_rules uuid4_hex rule_list n).1 in
  NoDup (map name rule_list) → NoDup (map name extracted) →
  extracted ≠ [] →
  index_rules_by_namespace extracted = Ok namespaces →
  ranked namespaces (rules_by_name extracted) rank →
  (∀ r, r ∈ extracted → (rank (name r) < fuel)%nat) →
  is_Ok (RuleSet_init uuid4_hex set_order rule_set_order fuel rule_list n).
Proof.
  intros extracted Hunique Hnd Hne Hindex Hranked Hfuel.
  unfold RuleSet_init. fold extracted.
  rewrite (proj1 (ensure_rules_are_unique_spec rule_list) Hunique). cbn.
  assert (ensure_rule_dependencies_are_met set_order extracted = Ok ()) as ->.
  { unfold ensure_rule_dependencies_are_met. rewrite Hindex. cbn.
    set (check_dep := fun (rule : Rule) (dep : string) =>
           if dict_contains (rules_by_name extracted) dep then Ok ()
           else Raise (InvalidRule
                         ("rule " +:+ quoted (name rule)
                          +:+ " depends on missing rule " +:+ quoted dep))).
    set (check_rule := fun rule : Rule =>
           foldM (fun _ dep => check_dep rule dep)
             (set_order (get_dependencies rule namespaces)) ()).
    change (foldM (fun _ rule => check_rule rule)
              (dict_values (rules_by_name extracted)) () ≫= (fun _ => Ok ())
            = Ok ()).
    destruct (foldM_check check_rule (dict_values (rules_by_name extracted)))
      as [[-> _] | (r & e & Hr & He & _)]; [done |].
    unfold check_rule in He.
    destruct (foldM_check (check_dep r)
                (set_order (get_dependencies r namespaces)))
      as [[Hok _] | (d & e' & Hd & Hd' & _)]; [congruence |].
    apply set_order_elem' in Hd. unfold check_dep, dict_contains in Hd'.
    destruct (Hranked (name r) r) with (d := d) as [[D HD] _]; [| done |].
    - apply keyed_get_value; [apply rules_by_name_keyed | done].
    - by rewrite HD in Hd'. }
  cbn. destruct extracted as [| r0 rest] eqn:Hextracted; [done |].
  rewrite <- Hextracted in *. cbn [length Nat.eqb].
  assert ((length extracted =? 0)%nat = false) as ->
    by (rewrite Hextracted; done).
  destruct (get_rules_for_scope_total fuel extracted namespaces rank
              FILE_SCOPE Hnd Hindex Hranked Hfuel) as [l1 ->].
  destruct (get_rules_for_scope_total fuel extracted namespaces rank
              FUNCTION_SCOPE Hnd Hindex Hranked Hfuel) as [l2 ->].
  destruct (get_rules_for_scope_total fuel extracted namespaces rank
              BASIC_BLOCK_SCOPE Hnd Hindex Hranked Hfuel) as [l3 ->].
  cbn. rewrite Hindex. cbn. by eexists.
Qed.

(** ** The rules of a scope *)

Lemma get_rules_for_scope_ordered (fuel : nat) (rules : list Rule)
    (scope_ : string) (scope_rules : list Rule) namespaces :
  NoDup (map name rules) →
  index_rules_by_namespace rules = Ok namespaces →
  _get_rules_for_scope set_order rule_set_order fuel rules scope_
  = Ok scope_rules →
  ∀ R D, R ∈ scope_rules →
         tc (depends_on namespaces (rules_by_name rules)) R D →
         scope D = scope_ →
         D ∈ scope_rules ∧ occurs_before scope_rules D R.
Proof.
  intros Hnd Hindex H. unfold _get_rules_for_scope in H.
  apply bind_Ok in H as (selected & Hselected & H).
  apply bind_Ok in H as (ordered & Hordered & H). injection H as <-.
  set (part := rule_set_order selected) in *.
  assert (closed_rules namespaces (rules_by_name rules) part) as Hclosed.
  { assert (closed_rules namespaces (rules_by_name rules) selected)
      as [Hsub Hclosed].
    { eapply scope_rules_closed; [done | | exact Hselected].
      split; by intros r ?%elem_of_nil. }
    split.
    - intros r Hr. apply Hsub. by rewrite <- (rule_set_order_perm selected).
    - intros r Hr d Hd. unfold part in Hr.
      rewrite (rule_set_order_perm selected) in Hr.
      destruct (Hclosed r Hr d Hd) as (D & HD & Hin). exists D.
      split; [done |]. unfold part. by rewrite (rule_set_order_perm selected). }
  assert (Hpart : ∀ r, r ∈ part → r ∈ rules).
  { intros r Hr. destruct Hclosed as [Hsub _].
    rewrite rules_by_name_values in Hsub by done. by apply Hsub. }
  apply topologically_order_rules_spec in Hordered
    as (namespaces' & Hindex' & [_ Hinv] & Hall).
  cbn [fst snd] in Hinv.
  apply index_rules_by_namespace_indexed in Hindex, Hindex'.
  assert (Hin_part : ∀ r, r ∈ ordered → r ∈ part).
  { intros r [i Hi]%list_elem_of_lookup. destruct (Hinv i r Hi) as [Hr _].
    apply rules_by_name_elem. by eapply dict_get_value. }
  assert (Hstep : ∀ R D, R ∈ ordered →
            depends_on namespaces (rules_by_name rules) R D →
            D ∈ ordered ∧ occurs_before ordered D R).
  { intros R D HR [Hdep HD].
    assert (D ∈ part) as HDpart.
    { destruct Hclosed as [_ Hclosed].
      destruct (Hclosed R (Hin_part R HR) (name D) Hdep) as (D' & HD' & Hin).
      rewrite HD in HD'. by injection HD' as <-. }
    assert (∀ i, ordered !! i = Some R → ∃ j, (j < i)%nat ∧ ordered !! j = Some D)
      as Hbefore.
    { intros i Hi. destruct (Hinv i R Hi) as [_ Hdeps].
      destruct (Hdeps (name D)) as (j & D' & Hj & HD' & Hget).
      { by apply (dependencies_of_closed_part rules part namespaces namespaces');
          [| | | | apply Hin_part |]. }
      rewrite (rules_by_name_sublist rules part D) in Hget by done.
      injection Hget as <-. by exists j. }
    split; [| exact Hbefore].
    apply list_elem_of_lookup in HR as [i Hi].
    destruct (Hbefore i Hi) as (j & _ & Hj). by eapply list_elem_of_lookup_2. }
  assert (Hchain : ∀ R D, tc (depends_on namespaces (rules_by_name rules)) R D →
            R ∈ ordered → D ∈ ordered ∧ occurs_before ordered D R).
  { intros R D Htc. induction Htc as [R D Hdep | R X D Hdep Htc IH]; intros HR.
    - by apply Hstep.
    - destruct (Hstep R X HR Hdep) as [HX HXR].
      destruct (IH HX) as [HD HDX]. split; [done |].
      by eapply occurs_before_trans. }
  intros R D HR Htc Hscope. unfold get_rules_with_scope in *.
  apply elem_of_List_filter in HR as [HR _].
  destruct (Hchain R D Htc HR) as [HD Hbefore].
  assert (String.eqb (scope D) scope_ = true) as Hf by by apply String.eqb_eq.
  split; [by apply elem_of_List_filter |].
  by apply (occurs_before_filter (fun rule => String.eqb (scope rule) scope_)).
Qed.

(** C1: in a rule set that was constructed, in each of the three lists
    of rules, a rule comes after every rule of the same scope that it
    depends on, directly or through other rules, the dependencies being
    those that [get_dependencies] yields over the namespaces of the
    set. The names of the rules, those made from subscopes among them,
    are taken to be distinct. *)
Theorem scope_rules_are_ordered (fuel : nat) (rule_list : list Rule)
    (n : nat) (rule_set : RuleSet) :
  NoDup (map name (_extract_subscope_rules uuid4_hex rule_list n).1) →
  RuleSet_init uuid4_hex set_order rule_set_order fuel rule_list n
  = Ok rule_set →
  ∀ scope_ scope_rules,
    (scope_, scope_rules)
    ∈ [(FILE_SCOPE, file_rules rule_set);
       (FUNCTION_SCOPE, function_rules rule_set);
       (BASIC_BLOCK_SCOPE, basic_block_rules rule_set)] →
    ∀ R D, R ∈ scope_rules →
           tc (depends_on (rules_by_namespace rule_set) (rules rule_set)) R D →
           scope D = scope_ →
           D ∈ scope_rules ∧ occurs_before scope_rules D R.
Proof.
  intros Hnd Hinit. unfold RuleSet_init in Hinit.
  apply bind_Ok in Hinit as (_ & _ & Hinit).
  set (extracted := (_extract_subscope_rules uuid4_hex rule_list n).1) in *.
  apply bind_Ok in Hinit as (_ & _ & Hinit).
  destruct (length extracted =? 0)%nat; [done |].
  apply bind_Ok in Hinit as (for_file & Hfile & Hinit).
  apply bind_Ok in Hinit as (for_function & Hfunction & Hinit).
  apply bind_Ok in Hinit as (for_basic_block & Hbb & Hinit).
  apply bind_Ok in Hinit as (namespaces & Hindex & Hinit).
  injection Hinit as <-.
  cbn [file_rules function_rules basic_block_rules rules rules_by_namespace].
  intros scope_ scope_rules Hlist.
  repeat (apply elem_of_cons in Hlist as [[= -> ->] | Hlist]);
    [by eapply get_rules_for_scope_ordered .. |].
  by apply elem_of_nil in Hlist.
Qed.

End OrderFacts.

(** in the rule set of [sample_chain_rules], [launch] comes before
    [start], which matches it *)
Lemma scope_rules_are_ordered_witness :
  occurs_before (function_rules sample_chain_rule_set)
    (mnemonic_rule "launch" FUNCTION_SCOPE [("name", YStr "launch")])
    (match_rule "start" FUNCTION_SCOPE "launch" [("name", YStr "start")]).
Proof.
  refine (proj2 (scope_rules_are_ordered sample_uuid4_hex sample_set_order
                   sample_rule_set_order
                   (fun names => Permutation_refl (elements names))
                   (fun rule_set => Permutation_refl rule_set)
                   10%nat sample_chain_rules 0%nat sample_chain_rule_set
                   _ _ FUNCTION_SCOPE _ _ _ _ _ _ _)).
  - vm_compute. repeat constructor; intros H; inversion H; subst;
      match goal with H : _ ∈ _ |- _ => inversion H end.
  - vm_compute. reflexivity.
  - apply list_elem_of_further, list_elem_of_here.
  - vm_compute. apply list_elem_of_further, list_elem_of_here.
  - apply tc_once. split.
    + vm_compute. reflexivity.
    + reflexivity.
  - reflexivity.
Defined.


(** * Further properties of the rule loader *)

(** all the features of the basic block scope are features of the
    function scope, which adds to them the basic block count and four
    characteristics of its own *)
Theorem function_scope_features (feature : Feature) :
  ensure_feature_valid_for_scope FUNCTION_SCOPE feature = Ok ()
  ↔ ensure_feature_valid_for_scope BASIC_BLOCK_SCOPE feature = Ok ()
    ∨ feature = BasicBlock
    ∨ ∃ value, feature = Characteristic value
               ∧ value ∈ ["calls from"; "calls to"; "loop"; "recursive call"].
Proof.
  unfold ensure_feature_valid_for_scope.
  change (SUPPORTED_FEATURES FUNCTION_SCOPE)
    with (Some (CBasicBlock :: BASIC_BLOCK_CLASSES,
                ["calls from"; "calls to"; "loop"; "recursive call"]
                  ++ BASIC_BLOCK_CHARACTERISTICS)).
  change (SUPPORTED_FEATURES BASIC_BLOCK_SCOPE)
    with (Some (BASIC_BLOCK_CLASSES, BASIC_BLOCK_CHARACTERISTICS)).
  cbv iota beta.
  destruct feature as [| | | | | | | | | | value | | | |]; cbn [class_of];
    try (assert (∀ v, Characteristic v ≠ BasicBlock) by done;
         repeat case_bool_decide; split; intros H'; try done;
         try (by left); try (by right; left);
         try (destruct H' as [H' | [H' | (v & H' & _)]]; done);
         exfalso; unfold BASIC_BLOCK_CLASSES in *;
         repeat match goal with
                | H : _ ∈ _ :: _ |- _ => apply elem_of_cons in H as [H | H]; [done |]
                | H : _ ∈ [] |- _ => by apply elem_of_nil in H
                | H : ¬ _ ∈ _ |- _ => apply H; clear H; set_solver
                end; fail).
  split.
  - intros H. case_bool_decide as Hin; [| done].
    apply elem_of_app in Hin as [Hin | Hin].
    + right. right. by exists value.
    + left. by rewrite bool_decide_true.
  - intros [H | [H | (v & [= <-] & Hin)]]; [| done |].
    + case_bool_decide as Hin; [| done].
      rewrite bool_decide_true; [done |]. apply elem_of_app. by right.
    + rewrite bool_decide_true; [done |]. apply elem_of_app. by left.
Qed.

Module IntFacts.

Lemma digit_value_nonneg (base : Z) (c : ascii) (d : Z) :
  Py.digit_value base c = Some d → 0 ≤ d < base.
Proof.
  unfold Py.digit_value.
  set (n := Z.of_nat (nat_of_ascii c)).
  destruct ((48 <=? n) && (n <=? 57)) eqn:H1;
    [| destruct ((97 <=? n) && (n <=? 102)) eqn:H2;
       [| destruct ((65 <=? n) && (n <=? 70)) eqn:H3; [| done]]];
    (destruct (_ <? base) eqn:Hb; [| done]); intros [= <-];
    apply Z.ltb_lt in Hb; lia.
Qed.

Lemma digits_nonneg (base : Z) (s : string) (prev_us : bool)
    (acc : option Z) (n : Z) :
  0 ≤ default 0 acc →
  Py.digits base prev_us acc s = Some n → 0 ≤ n.
Proof.
  revert prev_us acc. induction s as [| c s IH]; intros prev_us acc Hacc; simpl.
  - destruct prev_us; [done |]. intros ->. done.
  - destruct (Ascii.eqb c "_").
    + destruct acc; [| done]. destruct prev_us; [done |]. by apply IH.
    + destruct (Py.digit_value base c) as [d |] eqn:Hd; [| done].
      apply digit_value_nonneg in Hd. apply IH. simpl. nia.
Qed.

Lemma digits_chars (base : Z) (s : string) (prev_us : bool)
    (acc : option Z) (n : Z) (c : ascii) :
  Py.digits base prev_us acc s = Some n → c ∈ chars s →
  c = "_"%char ∨ is_Some (Py.digit_value base c).
Proof.
  revert prev_us acc. induction s as [| c' s IH]; intros prev_us acc; simpl.
  - by intros _ ?%elem_of_nil.
  - intros H Hin. apply elem_of_cons in Hin as [Heq | Hin]; [subst c' |].
    + destruct (Ascii.eqb c "_") eqn:Hc; [left; by apply Ascii.eqb_eq |].
      right. by destruct (Py.digit_value base c).
    + destruct (Ascii.eqb c' "_").
      * destruct acc; [| done]. destruct prev_us; [done |]. by eapply IH.
      * destruct (Py.digit_value base c'); [| done]. by eapply IH.
Qed.

Lemma lskip_chars (s : string) (c : ascii) :
  c ∈ chars s → Py.isblank c = false → c ∈ chars (Py.lskip s).
Proof.
  induction s as [| c' s IH]; [done |]. cbn [Py.lskip].
  intros Hin Hc. destruct (Py.isblank c') eqn:Hc'; [| done].
  apply elem_of_cons in Hin as [Heq | Hin]; [congruence | by apply IH].
Qed.

Lemma rskip_chars (s : string) (c : ascii) :
  c ∈ chars s → Py.isblank c = false → c ∈ chars (Py.rskip s).
Proof.
  induction s as [| c' s IH]; [done |]. cbn [Py.rskip].
  intros Hin Hc. apply elem_of_cons in Hin as [Heq | Hin]; [subst c' |].
  - destruct (Py.rskip s); [rewrite Hc |]; apply list_elem_of_here.
  - specialize (IH Hin Hc).
    destruct (Py.rskip s); [by apply elem_of_nil in IH |].
    by apply list_elem_of_further.
Qed.

Lemma skip_chars (s : string) (c : ascii) :
  c ∈ chars s → Py.isblank c = false → c ∈ chars (Py.rskip (Py.lskip s)).
Proof.
  intros Hin Hc. apply rskip_chars; [| done]. by apply lskip_chars.
Qed.

Lemma skip_head (c : ascii) (s : string) :
  Py.isblank c = false → ∃ r, Py.rskip (Py.lskip (String c s)) = String c r.
Proof.
  intros Hc. cbn [Py.lskip]. rewrite Hc.
  cbn [Py.rskip]. destruct (Py.rskip s); [rewrite Hc |]; by eexists.
Qed.

Lemma int_error (s : string) (base : Z) (e : exn) :
  Py.int s base = Raise e → e = ValueError.
Proof.
  unfold Py.int.
  repeat match goal with
         | |- context [let '(_, _) := ?x in _] => destruct x
         | |- context [match Py.digits ?b ?u ?a ?t with _ => _ end] =>
             destruct (Py.digits b u a t)
         end; congruence.
Qed.

Lemma parse_int_error (s : string) (e : exn) :
  parse_int s = Raise e → e = ValueError.
Proof. unfold parse_int. destruct (Py.startswith s "0x"); apply int_error. Qed.

End IntFacts.



(** What [parse_range] returns is a range: the string was parenthesized,
    each bound is what [parse_int] reads of its side, or none for an empty
    side, no bound is negative and the minimum is not above the maximum.
    What it raises is an [InvalidRule], or the [ValueError] of a side
    that is not an integer. *)
Theorem parse_range_sound (s : string) :
  (∀ lo hi, parse_range s = Ok (lo, hi) →
     Py.startswith s "(" = true ∧ Py.endswith s ")" = true
     ∧ bound_of (range_specs s).1 lo ∧ bound_of (range_specs s).2 hi
     ∧ bounds_ok lo hi)
  ∧ (∀ e, parse_range s = Raise e →
       e = ValueError ∨ ∃ msg, e = InvalidRule msg).
Proof.
  unfold parse_range, range_specs, bounds_ok, bound_of.
  destruct (Py.startswith s "("); cbn [negb]; [| (split; [done | intros ? [= <-]; by eauto])].
  destruct (Py.endswith s ")"); cbn [negb]; [| (split; [done | intros ? [= <-]; by eauto])].
  destruct (Py.partition (Py.drop_end 1 (Py.drop 1 s)) ",")
    as [min_spec max_spec]. cbn [fst snd].
  assert (∀ spec, parse_int spec = Raise ValueError ∨ ∃ x, parse_int spec = Ok x)
    as Hint.
  { intros spec. destruct (parse_int spec) as [x | e] eqn:H; [by eauto |].
    apply IntFacts.parse_int_error in H as ->. by left. }
  destruct (String.eqb_spec (Py.strip min_spec) "") as [Hlo | Hlo];
    destruct (String.eqb_spec (Py.strip max_spec) "") as [Hhi | Hhi]; cbn.
  - split; [| done]. intros lo hi [= <- <-]. repeat split; by eauto.
  - destruct (Hint (Py.strip max_spec)) as [-> | [y Hy]]; cbn;
      [(split; [done | intros ? [= <-]; by eauto]) |].
    rewrite Hy. cbn. destruct (y <? 0) eqn:Hneg; cbn; [(split; [done | intros ? [= <-]; by eauto]) |].
    apply Z.ltb_ge in Hneg. split; [| done]. intros lo hi [= <- <-].
    repeat split; try done; [by left | right; by eauto | by intros ? [= <-]].
  - destruct (Hint (Py.strip min_spec)) as [-> | [x Hx]]; cbn;
      [(split; [done | intros ? [= <-]; by eauto]) |].
    rewrite Hx. cbn. destruct (x <? 0) eqn:Hneg; cbn; [(split; [done | intros ? [= <-]; by eauto]) |].
    apply Z.ltb_ge in Hneg. split; [| done]. intros lo hi [= <- <-].
    repeat split; try done; [right; by eauto | by left | by intros ? [= <-]].
  - destruct (Hint (Py.strip min_spec)) as [-> | [x Hx]]; cbn;
      [(split; [done | intros ? [= <-]; by eauto]) |].
    rewrite Hx. cbn. destruct (x <? 0) eqn:Hneg; cbn; [(split; [done | intros ? [= <-]; by eauto]) |].
    destruct (Hint (Py.strip max_spec)) as [-> | [y Hy]]; cbn;
      [(split; [done | intros ? [= <-]; by eauto]) |].
    rewrite Hy. cbn. destruct (y <? 0) eqn:Hneg'; cbn; [(split; [done | intros ? [= <-]; by eauto]) |].
    destruct (y <? x) eqn:Hyx; cbn; [(split; [done | intros ? [= <-]; by eauto]) |].
    apply Z.ltb_ge in Hneg, Hneg', Hyx. split; [| done]. intros lo hi [= <- <-].
    repeat split; try done;
      [right; by eauto | right; by eauto | by intros ? [= <-]
      | by intros ? [= <-] | by intros ? ? [= <-] [= <-]].
Qed.

(** the range [(2, )] has a minimum and no maximum *)
Lemma parse_range_sound_witness :
  parse_range "(2, )" = Ok (Some 2, None) ∧ bounds_ok (Some 2) None.
Proof.
  split; [reflexivity |].
  apply (proj1 (parse_range_sound "(2, )") (Some 2) None eq_refl).
Defined.

Lemma unhexlify_length (s b : string) :
  unhexlify s = Some b → Py.len s = (2 * Py.len b)%nat.
Proof.
  revert s b. fix IH 1. intros [| hi [| lo s']] b; simpl.
  - by intros [= <-].
  - done.
  - destruct (Py.digit_value 16 hi); [| done].
    destruct (Py.digit_value 16 lo); [| done].
    destruct (unhexlify s') as [r |] eqn:Hr; [| done].
    intros [= <-]. simpl. rewrite (IH s' r Hr). unfold Py.len. lia.
Qed.

Lemma remove_spaces_idempotent (s : string) :
  Py.remove_spaces (Py.remove_spaces s) = Py.remove_spaces s.
Proof.
  induction s as [| c s IH]; [done |]. simpl.
  destruct (Ascii.eqb c " ") eqn:Hc; [done |]. simpl. by rewrite Hc, IH.
Qed.

Lemma isascii_remove_spaces (s : string) :
  Py.isascii (Py.remove_spaces s) = Py.isascii s.
Proof.
  induction s as [| c s IH]; [done |]. simpl.
  destruct (Ascii.eqb_spec c " ") as [-> | Hc]; [done |]. simpl. by rewrite IH.
Qed.

Lemma isascii_app (a b : string) :
  Py.isascii (a +:+ b) = Py.isascii a && Py.isascii b.
Proof.
  induction a as [| c a IH]; [done |].
  change (String c a +:+ b) with (String c (a +:+ b)). simpl.
  by rewrite IH, andb_assoc.
Qed.

Lemma parse_bytes_cases (s : string) :
  (∀ b, parse_bytes (Py.remove_spaces s) = Ok b ↔ parse_bytes s = Ok b)
  ∧ (∀ b, parse_bytes s = Ok b →
       (Py.len b ≤ MAX_BYTES_FEATURE_SIZE)%nat
       ∧ Py.len (Py.remove_spaces s) = (2 * Py.len b)%nat)
  ∧ (∀ e, parse_bytes s = Raise e →
          if Py.isascii s then ∃ msg, e = InvalidRule msg else e = ValueError)
  ∧ (Py.isascii s = true → Nat.Odd (Py.len (Py.remove_spaces s)) →
     ∃ msg, parse_bytes s = Raise (InvalidRule msg)).
Proof.
  unfold parse_bytes. rewrite remove_spaces_idempotent, isascii_remove_spaces.
  destruct (Py.isascii s); cbn [negb];
    [| split; [done |]; split; [done |]; split; [by intros ? [= <-] | done]].
  split.
  { intros b. destruct (unhexlify (Py.remove_spaces s)) as [b' |]; [done |].
    by split. }
  destruct (unhexlify (Py.remove_spaces s)) as [b |] eqn:Hb.
  - apply unhexlify_length in Hb.
    destruct (MAX_BYTES_FEATURE_SIZE <? Py.len b)%nat eqn:Hmax.
    + split; [done |]. split; [intros ? [= <-]; by eauto |]. by eauto.
    + apply Nat.ltb_ge in Hmax. split; [by intros ? [= <-] |].
      split; [done |]. intros _ [k Hk]. lia.
  - split; [done |]. split; [intros ? [= <-]; by eauto |]. by eauto.
Qed.

(** [parse_bytes] ignores the spaces of the text, wherever they are: it
    returns the same bytes with and without them. The bytes that it
    returns are no more than [MAX_BYTES_FEATURE_SIZE], one for each two
    characters that are left; an odd number of them is an error. Its
    errors on ASCII text are [InvalidRule]; for a text that is not ASCII
    the [ValueError] of the encoding comes through. *)
Theorem parse_bytes_spec (s : string) :
  (∀ b, parse_bytes (Py.remove_spaces s) = Ok b ↔ parse_bytes s = Ok b)
  ∧ (∀ b, parse_bytes s = Ok b →
       (Py.len b ≤ MAX_BYTES_FEATURE_SIZE)%nat
       ∧ Py.len (Py.remove_spaces s) = (2 * Py.len b)%nat)
  ∧ (∀ e, parse_bytes s = Raise e →
          if Py.isascii s then ∃ msg, e = InvalidRule msg else e = ValueError)
  ∧ (Py.isascii s = true → Nat.Odd (Py.len (Py.remove_spaces s)) →
     ∃ msg, parse_bytes s = Raise (InvalidRule msg)).
Proof. exact (parse_bytes_cases s). Qed.

(** [90 90 c3] is three bytes *)
Lemma parse_bytes_spec_witness :
  parse_bytes "90 90 c3" = parse_bytes "9090c3"
  ∧ ∃ b, parse_bytes "90 90 c3" = Ok b ∧ Py.len b = 3%nat
         ∧ ∃ msg, parse_bytes "90 90 c" = Raise (InvalidRule msg).
Proof.
  split; [reflexivity |].
  eexists. split; [reflexivity |]. split; [reflexivity |].
  apply (proj2 (proj2 (proj2 (parse_bytes_spec "90 90 c")))); [reflexivity |].
  exists 2%nat. reflexivity.
Defined.

Module PartitionFacts.

Lemma take_drop (n : nat) (s : string) : s = Py.take n s +:+ Py.drop n s.
Proof.
  revert s. induction n as [| n IH]; intros [| c s]; try done.
  change (String c s = String c (Py.take n s +:+ Py.drop n s)).
  f_equal. apply IH.
Qed.

Lemma drop_drop (n m : nat) (s : string) :
  Py.drop m (Py.drop n s) = Py.drop (n + m) s.
Proof.
  revert s. induction n as [| n IH]; intros s; [done |].
  destruct s as [| c s]; simpl; [by destruct m | apply IH].
Qed.

Lemma drop_append (p s : string) : Py.drop (Py.len p) (p +:+ s) = s.
Proof. induction p as [| c p IH]; [done | exact IH]. Qed.

Lemma prefix_take (p s : string) (n : nat) :
  String.prefix p (Py.take n s) = true → String.prefix p s = true.
Proof.
  revert s n. induction p as [| a p IH]; intros s n; [by destruct s |].
  destruct n as [| n], s as [| c s]; simpl; try done.
  destruct (ascii_dec a c); [apply IH | done].
Qed.

Lemma find_prefix (sep s : string) (i : nat) :
  Py.find sep s = Some i → String.prefix sep (Py.drop i s) = true.
Proof.
  revert i. induction s as [| c s IH]; intros i.
  - rewrite PyFacts.find_nil.
    destruct (String.prefix sep "") eqn:Hp; [| done]. by intros [= <-].
  - rewrite PyFacts.find_cons.
    destruct (String.prefix sep (String c s)) eqn:Hp; [by intros [= <-] |].
    destruct (Py.find sep s) as [j |]; [| done]. intros [= <-]. by apply IH.
Qed.

Lemma find_take (sep s : string) (i : nat) :
  sep ≠ "" → Py.find sep s = Some i → Py.find sep (Py.take i s) = None.
Proof.
  intros Hsep. revert i. induction s as [| c s IH]; intros i.
  - rewrite PyFacts.find_nil. by destruct sep.
  - rewrite PyFacts.find_cons.
    destruct (String.prefix sep (String c s)) eqn:Hp.
    + intros [= <-]. by destruct sep.
    + destruct (Py.find sep s) as [j |]; [| done]. intros [= <-].
      change (Py.take (S j) (String c s)) with (String c (Py.take j s)).
      rewrite PyFacts.find_cons, (IH j eq_refl).
      destruct (String.prefix sep (String c (Py.take j s))) eqn:Hp'; [| done].
      apply (prefix_take sep (String c s) (S j)) in Hp'. congruence.
Qed.

(** [s.partition(sep)] when [sep] occurs: the text before its first
    occurrence and the text after it *)
Lemma partition_found (s sep : string) :
  sep ≠ "" → Py.contains s sep = true →
  s = (Py.partition s sep).1 +:+ sep +:+ (Py.partition s sep).2
  ∧ Py.contains (Py.partition s sep).1 sep = false.
Proof.
  intros Hsep. unfold Py.contains, Py.partition.
  destruct (Py.find sep s) as [i |] eqn:Hi; [intros _ | done].
  cbn [fst snd]. split.
  - pose proof (find_prefix _ _ _ Hi) as [post Hpost]%PyFacts.prefix_spec.
    rewrite <- drop_drop, Hpost, drop_append, <- Hpost.
    apply take_drop.
  - by rewrite (find_take _ _ _ Hsep Hi).
Qed.

End PartitionFacts.

(** [parse_description] raises nothing but [InvalidRule], but for the
    [ValueError] of bytes given as a text that is not ASCII. The description
    that it returns is the one it was given, unless the value is a text
    with the separator [" = "] and the kind is not [string]: then no
    description may have been given, the description is the text after
    the first separator, which is not empty, and the value is read from
    the text before it. *)
Theorem parse_description_spec (s : YValue) (value_type : string)
    (description : YValue) :
  (∀ e, parse_description s value_type description = Raise e →
        (∃ msg, e = InvalidRule msg)
        ∨ (e = ValueError ∧ value_type = "bytes"
           ∧ ∃ str, s = YStr str ∧ Py.isascii str = false))
  ∧ (∀ value description',
       parse_description s value_type description = Ok (value, description') →
       (description' = description
        ∧ ∀ str, s = YStr str → value_type ≠ "string" →
                 Py.contains str " = " = false)
       ∨ (truthy description = false ∧ value_type ≠ "string"
          ∧ ∃ str head inline,
              s = YStr str ∧ str = head +:+ " = " +:+ inline
              ∧ Py.contains head " = " = false ∧ inline ≠ ""
              ∧ description' = YStr inline
              ∧ (value = YStr head
                 ∨ (∃ n, parse_int head = Ok n ∧ value = YInt n)
                 ∨ (∃ b, parse_bytes head = Ok b ∧ value = YBytes b)))).
Proof.
  unfold parse_description.
  destruct (String.eqb_spec value_type "string") as [-> | Htype].
  { split; [done |]. intros ? ? [= <- <-]. left. by split. }
  assert (∀ (value : string) (d : YValue),
            let m :=
              if String.eqb value_type "bytes" then
                b ← parse_bytes value; Ok (YBytes b, d)
              else if String.eqb value_type "number"
                      || String.eqb value_type "offset"
                      || Py.startswith value_type "number/"
                      || Py.startswith value_type "offset/" then
                match parse_int value with
                | Ok n => Ok (YInt n, d)
                | Raise ValueError =>
                    Raise (InvalidRule
                             ("unexpected value: " +:+ quoted value
                              +:+ ", must begin with numerical value"))
                | Raise e => Raise e
                end
              else Ok (YStr value, d) in
            (∀ e, m = Raise e →
                  (∃ msg, e = InvalidRule msg)
                  ∨ (e = ValueError ∧ value_type = "bytes"
                     ∧ Py.isascii value = false))
            ∧ (∀ v d', m = Ok (v, d') →
                 d' = d
                 ∧ (v = YStr value
                    ∨ (∃ n, parse_int value = Ok n ∧ v = YInt n)
                    ∨ (∃ b, parse_bytes value = Ok b ∧ v = YBytes b))))
    as Hcast.
  { intros value d m. subst m.
    destruct (String.eqb_spec value_type "bytes") as [Hbytes | Hbytes].
    - destruct (parse_bytes value) as [b |] eqn:Hb; cbn.
      + split; [done |]. intros ? ? [= <- <-]. split; [done |]. right. right. by eauto.
      + split; [| done]. intros ? [= <-].
        pose proof (proj1 (proj2 (proj2 (parse_bytes_cases value))) e Hb) as He.
        destruct (Py.isascii value); [by left | by right].
    - destruct (_ || _).
      + destruct (parse_int value) as [n | e] eqn:Hn.
        * split; [done |]. intros ? ? [= <- <-]. split; [done |]. right. left. by eauto.
        * apply IntFacts.parse_int_error in Hn as ->.
          split; [| done]. intros ? [= <-]. left. by eauto.
      + split; [done |]. intros ? ? [= <- <-]. split; [done |]. by left. }
  destruct s as [| | | | str | | |];
    try (split; [done |]; intros ? ? [= <- <-]; left; by split).
  destruct (Py.contains str DESCRIPTION_SEPARATOR) eqn:Hsep.
  - destruct (truthy description) eqn:Htruthy;
      [by split; [intros ? [= <-]; left; eauto |] |].
    destruct (PartitionFacts.partition_found str DESCRIPTION_SEPARATOR)
      as [Hstr Hhead]; [done | done |].
    destruct (Py.partition str DESCRIPTION_SEPARATOR) as [head inline].
    cbn [fst snd] in Hstr, Hhead.
    destruct (String.eqb_spec inline "") as [-> | Hinline];
      [by split; [intros ? [= <-]; left; eauto |] |].
    cbn.
    destruct (Hcast head (YStr inline))
      as [Herr Hok].
    split.
    { intros e He. destruct (Herr e He) as [? | (-> & -> & Hascii)]; [by left |].
      right. split; [done |]. split; [done |]. exists str. split; [done |].
      rewrite Hstr, isascii_app, Hascii. done. }
    intros value d' Hres. destruct (Hok value d' Hres) as [-> Hvalue].
    right. split; [done |]. split; [done |].
    exists str, head, inline. by repeat split.
  - cbn.
    destruct (Hcast str description)
      as [Herr Hok].
    split.
    { intros e He. destruct (Herr e He) as [? | (-> & -> & Hascii)]; [by left |].
      right. split; [done |]. split; [done |]. by exists str. }
    intros value d' Hres. destruct (Hok value d' Hres) as [-> Hvalue].
    left. split; [done |]. by intros ? [= <-] _.
Qed.

(** [0x100 = size] is the number 256 described as [size]; the text [zz]
    is no byte sequence *)
Lemma parse_description_spec_witness :
  parse_description (YStr "0x100 = size") "number" YNull
  = Ok (YInt 256, YStr "size")
  ∧ parse_description (YStr "zz") "bytes" YNull
    = Raise (InvalidRule ("unexpected bytes value: must be a valid hex sequence: "
                   +:+ quoted "zz"))
  ∧ ∃ msg, InvalidRule ("unexpected bytes value: must be a valid hex sequence: "
                   +:+ quoted "zz")
           = InvalidRule msg.
Proof.
  split; [reflexivity |]. split; [reflexivity |].
  destruct (proj1 (parse_description_spec (YStr "zz") "bytes" YNull)
              (InvalidRule
                 ("unexpected bytes value: must be a valid hex sequence: "
                  +:+ quoted "zz"))
              eq_refl) as [H | [H _]]; [exact H | discriminate H].
Defined.

Lemma filter_cons_bool {A} (f : A → bool) (x : A) (l : list A) :
  filter (fun x => f x) (x :: l)
  = if f x then x :: filter (fun x => f x) l else filter (fun x => f x) l.
Proof. rewrite filter_cons. by destruct (f x). Qed.

Section DescriptionEntry.
Context {X : Type}.
Implicit Types d : list (YValue * X).

Lemma no_description_entry d :
  filter (fun c => is_description_entry c.1) d = [] →
  filter (fun c => negb (is_description_entry c.1)) d = d.
Proof.
  induction d as [| c d IH]; [done |].
  rewrite (filter_cons_bool (fun c => is_description_entry c.1)),
    (filter_cons_bool (fun c => negb (is_description_entry c.1))).
  destruct (is_description_entry c.1); simpl; [done |].
  intros H. by rewrite IH.
Qed.

Lemma remove_description_entry_spec d c :
  filter (fun c => is_description_entry c.1) d = [c] →
  remove_description_entry d
  = filter (fun c => negb (is_description_entry c.1)) d.
Proof.
  induction d as [| c' d IH]; [done |].
  rewrite (filter_cons_bool (fun c => is_description_entry c.1)),
    (filter_cons_bool (fun c => negb (is_description_entry c.1))).
  simpl. destruct (is_description_entry c'.1); simpl.
  - intros [= _ Hd]. by rewrite no_description_entry.
  - intros H. by rewrite IH.
Qed.

Lemma description_entries_length d :
  length d
  = (length (filter (fun c => is_description_entry c.1) d)
     + length (filter (fun c => negb (is_description_entry c.1)) d))%nat.
Proof.
  induction d as [| c d IH]; [done |].
  rewrite (filter_cons_bool (fun c => is_description_entry c.1)),
    (filter_cons_bool (fun c => negb (is_description_entry c.1))).
  destruct (is_description_entry c.1); simpl; rewrite IH; lia.
Qed.

Lemma pop_statement_description_entry_cases d :
  let entries := filter (fun c => is_description_entry c.1) d in
  let others := filter (fun c => negb (is_description_entry c.1)) d in
  match entries with
  | [] => pop_statement_description_entry d = Ok (YNull, d) ∧ others = d
  | [c] =>
      pop_statement_description_entry d
      = Ok (description_of_entry c.1, others)
      ∧ length d = S (length others)
  | _ => ∃ msg, pop_statement_description_entry d = Raise (InvalidRule msg)
  end.
Proof.
  intros entries others. unfold pop_statement_description_entry.
  fold entries. pose proof (description_entries_length d) as Hlen.
  fold entries in Hlen. fold others in Hlen.
  destruct entries as [| c [| c' entries']] eqn:Hentries.
  - split; [done |]. by apply no_description_entry.
  - split; [by rewrite (remove_description_entry_spec d c) | done].
  - by eauto.
Qed.

(** [pop_statement_description_entry] takes the description entry of a
    statement off the list of its children and leaves the other
    children as they are, in their order; without such an entry there
    is no description and the list is untouched; two entries or more
    are an [InvalidRule]. *)
Theorem pop_statement_description_entry_spec d :
  let entries := filter (fun c => is_description_entry c.1) d in
  let others := filter (fun c => negb (is_description_entry c.1)) d in
  match entries with
  | [] => pop_statement_description_entry d = Ok (YNull, d) ∧ others = d
  | [c] =>
      pop_statement_description_entry d
      = Ok (description_of_entry c.1, others)
      ∧ length d = S (length others)
  | _ => ∃ msg, pop_statement_description_entry d = Raise (InvalidRule msg)
  end.
Proof. exact (pop_statement_description_entry_cases d). Qed.
End DescriptionEntry.


(** * The statements that the loader builds *)

Section DocumentInduction.
Variable P : YValue → Prop.
Hypothesis P_Null : P YNull.
Hypothesis P_Bool : ∀ b, P (YBool b).
Hypothesis P_Int : ∀ n, P (YInt n).
Hypothesis P_Float : ∀ r, P (YFloat r).
Hypothesis P_Str : ∀ s, P (YStr s).
Hypothesis P_Bytes : ∀ b, P (YBytes b).
Hypothesis P_List : ∀ l, Forall P l → P (YList l).
Hypothesis P_Map : ∀ m, Forall (fun kv => P kv.2) m → P (YMap m).

Fixpoint YValue_children_ind (d : YValue) : P d :=
  match d with
  | YNull => P_Null
  | YBool b => P_Bool b
  | YInt n => P_Int n
  | YFloat r => P_Float r
  | YStr s => P_Str s
  | YBytes b => P_Bytes b
  | YList l =>
      P_List l
        ((fix elements (l : list YValue) : Forall P l :=
            match l with
            | [] => Forall_nil_2 P
            | dd :: l' =>
                Forall_cons_2 P dd l' (YValue_children_ind dd) (elements l')
            end) l)
  | YMap m =>
      P_Map m
        ((fix entries (m : list (string * YValue))
            : Forall (fun kv => P kv.2) m :=
            match m with
            | [] => Forall_nil_2 _
            | kv :: m' =>
                Forall_cons_2 (fun kv => P kv.2) kv m'
                  (YValue_children_ind kv.2) (entries m')
            end) m)
  end.
End DocumentInduction.

Lemma well_scoped_children (scope_ : string) (cs : list Statement) (d : YValue) :
  (well_scoped scope_ (And cs d) ↔ Forall (well_scoped scope_) cs)
  ∧ (well_scoped scope_ (Or cs d) ↔ Forall (well_scoped scope_) cs)
  ∧ (∀ k, well_scoped scope_ (Some_ k cs d) ↔ Forall (well_scoped scope_) cs).
Proof.
  assert (well_scoped scope_ (And cs d) ↔ Forall (well_scoped scope_) cs) as H.
  { induction cs as [| c cs IH]; [by split |].
    rewrite Forall_cons, <- IH. done. }
  split; [exact H |]. split; [exact H |]. intros k. exact H.
Qed.

Lemma sequence_Ok {A} (l : list (result A)) (xs : list A) :
  sequence l = Ok xs → Forall2 (fun m x => m = Ok x) l xs.
Proof.
  revert xs. induction l as [| m l IH]; intros xs; simpl.
  - intros [= <-]. constructor.
  - destruct m as [a |]; [| done]. simpl.
    destruct (sequence l) as [as_ |]; [| done]. simpl.
    intros [= <-]. constructor; [done | by apply IH].
Qed.

Lemma count_range_shape (feature : Statement) (count description : YValue)
    (statement : Statement) :
  count_range feature count description = Ok statement →
  ∃ lo hi, statement = Range feature lo hi description.
Proof.
  unfold count_range. destruct count as [| b | n | | s | | |]; try done.
  - intros [= <-]. by eauto.
  - intros [= <-]. by eauto.
  - destruct (Py.endswith s " or more").
    { intros (lo & _ & [= <-])%bind_Ok. by eauto. }
    destruct (Py.endswith s " or fewer").
    { intros (hi & _ & [= <-])%bind_Ok. by eauto. }
    destruct (Py.startswith s "("); [| done].
    intros ([lo hi] & _ & [= <-])%bind_Ok. by eauto.
Qed.

Lemma remaining_elements {X} (d remaining : list (YValue * X))
    (description : YValue) :
  pop_statement_description_entry d = Ok (description, remaining) →
  remaining ⊆ d.
Proof.
  intros H. pose proof (pop_statement_description_entry_cases d) as Hspec.
  cbv zeta in Hspec.
  destruct (filter (fun c => is_description_entry c.1) d) as [| c [| c' l]].
  - destruct Hspec as [Hpop _]. rewrite Hpop in H. by injection H as _ <-.
  - destruct Hspec as [Hpop _]. rewrite Hpop in H. injection H as _ <-.
    intros x Hx. by apply list_elem_of_filter in Hx as [_ Hx].
  - destruct Hspec as [msg Hpop]. congruence.
Qed.

Lemma build_statements_entry_well_scoped (key : string) (v : YValue)
    (rest : list (string * YValue)) :
  (∀ l, v = YList l → Forall builds_well_scoped l) →
  builds_well_scoped (YMap ((key, v) :: rest)).
Proof.
  intros Hels scope_ statement H. cbn [build_statements] in H.
  match type of H with
  | context [pop_statement_description_entry ?e] => set (elements := e) in H
  end.
  assert (∀ c, c ∈ elements → ∀ sc st, c.2 sc = Ok st → well_scoped sc st)
    as Helements.
  { subst elements. destruct v as [| | | | | | l |];
      try (by intros c ?%elem_of_nil).
    specialize (Hels l eq_refl). clear H.
    induction Hels as [| dd l Hdd _ IH]; [by intros c ?%elem_of_nil |].
    intros c [-> | Hc]%elem_of_cons; [exact Hdd | by apply IH]. }
  destruct (2 <? _)%nat; [done |].
  apply bind_Ok in H as ([description remaining] & Hpop & H).
  apply remaining_elements in Hpop.
  assert (∀ cs,
            match v with
            | YList _ => sequence (map (fun c => c.2 scope_) remaining)
            | _ => non_list_children v
            end = Ok cs → Forall (well_scoped scope_) cs) as Hchildren.
  { intros cs Hcs.
    assert (non_list_children v = Ok cs → Forall (well_scoped scope_) cs) as Hnon.
    { unfold non_list_children.
      destruct v as [| | | | s | s | | m]; try done;
        [destruct (String.eqb s "") | destruct (String.eqb s "") | destruct m];
        try done; by intros [= <-]. }
    destruct v as [| | | | | | l |]; try (by apply Hnon).
    apply sequence_Ok in Hcs. clear Hnon.
    revert cs Hcs. clear H. induction remaining as [| c remaining IH];
      intros cs Hcs; inversion Hcs as [| ? x ? xs Hc Hrest]; subst; [done |].
    constructor.
    - apply (Helements c); [apply Hpop, list_elem_of_here | exact Hc].
    - apply IH; [| done]. intros y Hy. by apply Hpop, list_elem_of_further. }
  assert (∀ msg sc c, only_child v remaining msg sc = Ok c → well_scoped sc c)
    as Honly.
  { intros msg sc c. unfold only_child.
    destruct v as [| | | | s | s | l | m]; try done.
    - by destruct (Py.len s =? 1)%nat.
    - by destruct (Py.len s =? 1)%nat.
    - destruct remaining as [| c0 [| c1 remaining']]; try done.
      apply Helements, Hpop, list_elem_of_here.
    - by destruct (length m =? 1)%nat. }
  destruct (String.eqb key "and").
  { apply bind_Ok in H as (cs & Hcs & [= <-]).
    by apply (proj1 (well_scoped_children scope_ cs description)), Hchildren. }
  destruct (String.eqb key "or").
  { apply bind_Ok in H as (cs & Hcs & [= <-]).
    by apply (proj1 (proj2 (well_scoped_children scope_ cs description))),
         Hchildren. }
  destruct (String.eqb key "not").
  { apply bind_Ok in H as (c & Hc & [= <-]).
    change (well_scoped scope_ c). by eapply Honly. }
  destruct (Py.endswith key " or more").
  { apply bind_Ok in H as (count & _ & H).
    apply bind_Ok in H as (cs & Hcs & [= <-]).
    by apply (proj2 (proj2 (well_scoped_children scope_ cs description))),
         Hchildren. }
  destruct (String.eqb key "optional").
  { apply bind_Ok in H as (cs & Hcs & [= <-]).
    by apply (proj2 (proj2 (well_scoped_children scope_ cs description))),
         Hchildren. }
  destruct (String.eqb key "function").
  { destruct (String.eqb_spec scope_ FILE_SCOPE) as [-> | _]; [| done].
    apply bind_Ok in H as (c & Hc & [= <-]).
    split; [by left | by eapply Honly]. }
  destruct (String.eqb key "basic block").
  { destruct (String.eqb_spec scope_ FUNCTION_SCOPE) as [-> | _]; [| done].
    apply bind_Ok in H as (c & Hc & [= <-]).
    split; [by right | by eapply Honly]. }
  destruct (Py.startswith key "count(" && Py.endswith key ")").
  { apply bind_Ok in H as ([[feature feature_description] description'] & _ & H).
    apply bind_Ok in H as ([] & Hvalid & H).
    apply count_range_shape in H as (lo & hi & ->). exact Hvalid. }
  destruct (_ && _); [done |].
  apply bind_Ok in H as (ctor & _ & H).
  apply bind_Ok in H as ([value description'] & _ & H).
  apply bind_Ok in H as (feature & _ & H).
  apply bind_Ok in H as ([] & Hvalid & [= <-]). exact Hvalid.
Qed.

Lemma build_statements_builds_well_scoped (d : YValue) :
  builds_well_scoped d
  ∧ ∀ l, d = YList l → Forall builds_well_scoped l.
Proof.
  induction d as [| | | | | | l IH | m IH] using YValue_children_ind;
    try (split; [by intros sc st | done]).
  - split; [by intros sc st |]. intros l' [= <-].
    eapply Forall_impl; [exact IH |]. by intros dd [H _].
  - split; [| done].
    destruct m as [| [key v] rest]; [by intros sc st |].
    apply build_statements_entry_well_scoped.
    apply Forall_cons in IH as [[_ Hv] _]. exact Hv.
Qed.

(** The statement that [build_statements] returns is well scoped: each
    of its features is one of the scope in which it stands, and a
    subscope stands only as a [function] in the file scope and as a
    [basic block] in the function scope, so that no subscope is built at
    the basic block scope. *)
Theorem build_statements_well_scoped (d : YValue) (scope_ : string)
    (statement : Statement) :
  build_statements d scope_ = Ok statement →
  well_scoped scope_ statement
  ∧ (scope_ = BASIC_BLOCK_SCOPE → count_subscopes statement = 0%nat).
Proof.
  intros H.
  assert (well_scoped scope_ statement) as Hws
    by exact (proj1 (build_statements_builds_well_scoped d) _ _ H).
  split; [exact Hws |]. intros ->. clear H d.
  assert (∀ cs, Forall (fun c => well_scoped BASIC_BLOCK_SCOPE c
                                 → count_subscopes c = 0%nat) cs →
                Forall (well_scoped BASIC_BLOCK_SCOPE) cs →
                count_subscopes (And cs YNull) = 0%nat) as Hchildren.
  { intros cs IH Hcs. rewrite count_subscopes_children.
    apply list_sum_zero, Forall_fmap.
    rewrite Forall_forall in IH, Hcs. apply Forall_forall.
    intros c Hc. by apply IH, Hcs. }
  induction statement as [cs d IH | cs d IH | c d IH | k cs d IH
                          | c lo hi d IH | sc c IH | f d]
    using Statement_children_ind; try done.
  - by apply Hchildren, (well_scoped_children BASIC_BLOCK_SCOPE cs d).
  - by apply Hchildren, (well_scoped_children BASIC_BLOCK_SCOPE cs d).
  - by apply IH.
  - by apply Hchildren, (well_scoped_children BASIC_BLOCK_SCOPE cs d) with k.
  - by apply IH.
  - by destruct Hws as [[[[=] _] | [[=] _]] _].
Qed.

(** a basic block rule may count mnemonics but not basic blocks *)
Lemma build_statements_well_scoped_witness :
  well_scoped BASIC_BLOCK_SCOPE
    (Range (Leaf (Mnemonic "mov") YNull) (Some 3) None YNull)
  ∧ (BASIC_BLOCK_SCOPE = BASIC_BLOCK_SCOPE →
     count_subscopes (Range (Leaf (Mnemonic "mov") YNull) (Some 3) None YNull)
     = 0%nat).
Proof.
  exact (build_statements_well_scoped
           (YMap [("count(mnemonic(mov))", YStr "3 or more")])
           BASIC_BLOCK_SCOPE _ eq_refl).
Defined.

Lemma filter_description_entries {X} (f : YValue → X) (l : list YValue) :
  filter (fun c : YValue * X => is_description_entry c.1)
    (map (fun dd => (dd, f dd)) l)
  = map (fun dd => (dd, f dd)) (filter (fun dd => is_description_entry dd) l).
Proof.
  induction l as [| dd l IH]; [done |].
  cbn [map].
  rewrite (filter_cons_bool (fun c : YValue * X => is_description_entry c.1)),
    (filter_cons_bool is_description_entry).
  cbn [fst]. destruct (is_description_entry dd); cbn [map]; by rewrite IH.
Qed.

(** [optional] is another name of [0 or more]. A key that ends in
    [" or more"] and does not begin with an integer is not reported as an
    [InvalidRule]: once the description of the statement is taken, the
    [ValueError] of [int] comes through. *)
Theorem build_statements_some (v : YValue) (rest : list (string * YValue))
    (scope_ : string) :
  build_statements (YMap (("optional", v) :: rest)) scope_
  = build_statements (YMap (("0 or more", v) :: rest)) scope_
  ∧ ∀ key,
      Py.endswith key " or more" = true →
      Py.int (Py.drop_end 7 key) 10 = Raise ValueError →
      (length rest ≤ 1)%nat →
      (∀ l, v = YList l →
            (length (filter (fun dd => is_description_entry dd) l) ≤ 1)%nat) →
      build_statements (YMap ((key, v) :: rest)) scope_ = Raise ValueError.
Proof.
  split; [reflexivity |].
  intros key Hmore Hint Hrest Hdescriptions.
  cbn [build_statements].
  match goal with
  | |- context [pop_statement_description_entry ?e] => set (elements := e)
  end.
  assert ((2 <? length ((key, v) :: rest))%nat = false) as ->.
  { apply Nat.ltb_ge. simpl. lia. }
  assert (∃ description remaining,
            pop_statement_description_entry elements
            = Ok (description, remaining)) as (description & remaining & ->).
  { pose proof (pop_statement_description_entry_cases elements) as Hspec.
    cbv zeta in Hspec.
    assert (length (filter (fun c : YValue * (string → result Statement) =>
                              is_description_entry c.1) elements) ≤ 1)%nat
      as Hlen.
    { subst elements. destruct v as [| | | | | | l |]; try (simpl; lia).
      change ((fix go (l0 : list YValue) :=
                 match l0 with
                 | [] => []
                 | dd :: l' => (dd, build_statements dd) :: go l'
                 end) l)
        with (map (fun dd => (dd, build_statements dd)) l).
      rewrite filter_description_entries, length_map. by apply Hdescriptions. }
    destruct (filter _ elements) as [| c [| c' entries]].
    - destruct Hspec as [-> _]. by eauto.
    - destruct Hspec as [-> _]. by eauto.
    - simpl in Hlen. lia. }
  cbn [mbind result_bind].
  assert (String.eqb key "and" = false ∧ String.eqb key "or" = false
          ∧ String.eqb key "not" = false) as (-> & -> & ->).
  { repeat split; apply String.eqb_neq; intros ->; done. }
  by rewrite Hmore, Hint.
Qed.

(** the key [two or more] is a [ValueError] *)
Lemma build_statements_some_witness :
  build_statements (YMap [("two or more", YList [])]) FUNCTION_SCOPE
  = Raise ValueError.
Proof.
  apply (proj2 (build_statements_some (YList []) [] FUNCTION_SCOPE)
           "two or more"); try done.
  - simpl. lia.
  - intros l [= <-]. simpl. lia.
Defined.

Lemma supported_scope (s : string) :
  is_Some (SUPPORTED_FEATURES s)
  ↔ s ∈ [FILE_SCOPE; FUNCTION_SCOPE; BASIC_BLOCK_SCOPE].
Proof.
  unfold SUPPORTED_FEATURES.
  destruct (String.eqb_spec s FILE_SCOPE) as [-> | H1];
    [split; [intros _; set_solver | by eauto] |].
  destruct (String.eqb_spec s FUNCTION_SCOPE) as [-> | H2];
    [split; [intros _; set_solver | by eauto] |].
  destruct (String.eqb_spec s BASIC_BLOCK_SCOPE) as [-> | H3];
    [split; [intros _; set_solver | by eauto] |].
  split; [by intros [? [=]] | set_solver].
Qed.

(** The rule that [Rule.from_dict] returns has the name of the meta of
    the document and the whole meta for its own; its scope is the one of
    the meta, or the function scope when the meta has none, and is one of
    the three scopes; the mappings [att&ck] and [mbc], when there, are
    lists; its statement is built from the only entry of the features and
    is well scoped; its definition is the text that came with the
    document. *)
Theorem from_dict_spec (d : YValue) (text : string) (rule : Rule) :
  from_dict d text = Ok rule →
  ∃ rule_map statements statement0,
    getitem d "rule" = Ok rule_map
    ∧ getitem rule_map "meta" = Ok (YMap (meta rule))
    ∧ getitem rule_map "features" = Ok statements
    ∧ single_statement statements = Ok statement0
    ∧ dict_get (meta rule) "name" = Some (YStr (name rule))
    ∧ (dict_get (meta rule) "scope" = Some (YStr (scope rule))
       ∨ (dict_get (meta rule) "scope" = None ∧ scope rule = FUNCTION_SCOPE))
    ∧ scope rule ∈ [FILE_SCOPE; FUNCTION_SCOPE; BASIC_BLOCK_SCOPE]
    ∧ (∀ v, dict_get (meta rule) "att&ck" = Some v → is_list v = true)
    ∧ (∀ v, dict_get (meta rule) "mbc" = Some v → is_list v = true)
    ∧ build_statements statement0 (scope rule) = Ok (statement rule)
    ∧ well_scoped (scope rule) (statement rule)
    ∧ definition rule = text.
Proof.
  unfold from_dict. intros H.
  apply bind_Ok in H as (rule_map & Hrule & H).
  apply bind_Ok in H as (meta_ & Hmeta & H).
  apply bind_Ok in H as (name_ & Hname & H).
  apply bind_Ok in H as (scope0 & Hscope0 & H).
  apply bind_Ok in H as (statements & Hstatements & H).
  apply bind_Ok in H as (statement0 & Hstatement0 & H).
  cbv zeta beta in H. cbv iota in H.
  apply bind_Ok in H as (scope_ & Hscope & H).
  apply bind_Ok in H as (attck & Hattck & H).
  destruct (is_list attck) eqn:Hattck_list; [| done]. cbn [negb] in H.
  apply bind_Ok in H as (mbc & Hmbc & H).
  destruct (is_list mbc) eqn:Hmbc_list; [| done]. cbn [negb] in H.
  apply bind_Ok in H as (statement_ & Hbuild & H).
  destruct name_ as [| | | | name_ | | |]; try done.
  destruct meta_ as [| | | | | | | meta_]; try done.
  injection H as <-. cbn [name scope statement meta definition].
  exists rule_map, statements, statement0.
  unfold getitem in Hname. unfold meta_get in Hscope0, Hattck, Hmbc.
  destruct (dict_get meta_ "name") as [v |] eqn:Hn; [| done].
  injection Hname as ->. injection Hscope0 as <-.
  injection Hattck as <-. injection Hmbc as <-.
  unfold check_scope in Hscope.
  assert (default (YStr FUNCTION_SCOPE) (dict_get meta_ "scope") = YStr scope_
          ∧ is_Some (SUPPORTED_FEATURES scope_)) as [Hdefault Hsupported].
  { destruct (default _ _) as [| | | | s | | |]; try done.
    destruct (SUPPORTED_FEATURES s) eqn:Hs; [| done].
    injection Hscope as <-. by rewrite Hs. }
  repeat split; try done.
  - destruct (dict_get meta_ "scope") as [v |]; simpl in Hdefault.
    + left. by rewrite Hdefault.
    + right. by injection Hdefault as <-.
  - by apply supported_scope.
  - intros v Hv. by rewrite Hv in Hattck_list.
  - intros v Hv. by rewrite Hv in Hmbc_list.
  - exact (proj1 (build_statements_builds_well_scoped statement0) _ _ Hbuild).
Qed.

(** the rule of the first file of [sample_file_system] *)
Lemma from_dict_spec_witness :
  ∃ rule, from_dict (sample_rule_document "first" "mnemonic") "" = Ok rule
          ∧ scope rule = FUNCTION_SCOPE
          ∧ well_scoped FUNCTION_SCOPE (statement rule).
Proof.
  eexists. split; [reflexivity |]. split; [reflexivity |].
  destruct (from_dict_spec (sample_rule_document "first" "mnemonic") "" _
              eq_refl)
    as (_ & _ & _ & _ & _ & _ & _ & _ & _ & _ & _ & _ & _ & H & _).
  exact H.
Defined.


(** * Further properties of the namespace index *)

Section IndexOrder.
Implicit Types (namespaces : gmap string (list Rule)) (rule : Rule).

Lemma namespace_keys_length (fuel : nat) (s key : string) :
  key ∈ namespace_keys fuel s → (Py.len key ≤ Py.len s)%nat.
Proof.
  revert s. induction fuel as [| fuel IH]; intros s; simpl;
    [by intros ?%elem_of_nil |].
  destruct (String.eqb_spec s "") as [-> | Hs]; [by intros ?%elem_of_nil |].
  intros [-> | Hkey]%elem_of_cons; [done |].
  apply IH in Hkey.
  pose proof (NamespaceFacts.rpartition_head_length s Hs). lia.
Qed.

Lemma namespace_keys_NoDup (fuel : nat) (s : string) :
  NoDup (namespace_keys fuel s).
Proof.
  revert s. induction fuel as [| fuel IH]; intros s; simpl;
    [apply NoDup_nil_2 |].
  destruct (String.eqb_spec s "") as [-> | Hs]; [apply NoDup_nil_2 |].
  apply NoDup_cons. split; [| apply IH].
  intros Hin%namespace_keys_length.
  pose proof (NamespaceFacts.rpartition_head_length s Hs). lia.
Qed.

Lemma append_rules_total (keys : list string) namespaces rule v :
  NoDup keys →
  fold_left (fun nss key => append_rule nss key rule) keys namespaces !!! v
  = namespaces !!! v ++ (if bool_decide (v ∈ keys) then [rule] else []).
Proof.
  revert namespaces. induction keys as [| key keys IH];
    intros namespaces Hnd; simpl.
  - by rewrite app_nil_r.
  - apply NoDup_cons in Hnd as [Hkey Hnd]. rewrite IH by done.
    unfold append_rule at 1. rewrite !lookup_total_alt.
    destruct (decide (key = v)) as [<- | Hne].
    + rewrite lookup_insert_eq. simpl.
      rewrite (bool_decide_true (key ∈ key :: keys))
        by apply list_elem_of_here.
      rewrite (bool_decide_false (key ∈ keys)) by done.
      by rewrite app_nil_r.
    + rewrite lookup_insert_ne by done.
      destruct (decide (v ∈ keys)) as [Hin | Hnot].
      * rewrite (bool_decide_true (v ∈ keys)),
          (bool_decide_true (v ∈ key :: keys));
          [done | by apply list_elem_of_further | done].
      * rewrite (bool_decide_false (v ∈ keys)),
          (bool_decide_false (v ∈ key :: keys)); [done | | done].
        intros [-> | ?]%elem_of_cons; done.
Qed.

Lemma index_rule_total_lookup namespaces namespaces' rule v :
  index_rule namespaces rule = Ok namespaces' →
  namespaces' !!! v
  = namespaces !!! v
    ++ (if bool_decide (v ∈ filed_under rule) then [rule] else []).
Proof.
  unfold index_rule, filed_under.
  destruct (dict_get (meta rule) "namespace") as [namespace |];
    [| intros [= <-]; by rewrite app_nil_r].
  destruct (truthy namespace) eqn:Htruthy; cbn [negb].
  - destruct namespace as [| | | | s | | |]; try done.
    intros [= <-]. apply append_rules_total, namespace_keys_NoDup.
  - intros [= <-].
    destruct namespace as [| | | | s | | |]; try by rewrite app_nil_r.
    simpl in Htruthy. apply negb_false_iff, String.eqb_eq in Htruthy as ->.
    by rewrite app_nil_r.
Qed.

Lemma filter_app_bool {A} (f : A → bool) (l1 l2 : list A) :
  List.filter f (l1 ++ l2) = List.filter f l1 ++ List.filter f l2.
Proof. apply List.filter_app. Qed.

(** The index files under a key the rules of the namespace of the key
    and of the namespaces below it, each of them once, in the order in
    which the rules were given. *)
Theorem index_rules_by_namespace_order (rules : list Rule) namespaces :
  index_rules_by_namespace rules = Ok namespaces →
  ∀ v,
    namespaces !!! v
    = List.filter (fun rule => bool_decide (v ∈ filed_under rule)) rules
    ∧ ∀ rule, v ∈ filed_under rule ↔ in_namespace v rule.
Proof.
  intros Hindex v. split.
  - unfold index_rules_by_namespace in Hindex.
    assert (∀ todo done nss nss',
              nss !!! v
              = List.filter (fun rule => bool_decide (v ∈ filed_under rule)) done →
              foldM index_rule todo nss = Ok nss' →
              nss' !!! v
              = List.filter (fun rule => bool_decide (v ∈ filed_under rule))
                  (done ++ todo)) as Hloop.
    { induction todo as [| rule todo IH]; intros done nss nss' Hdone Hfold.
      - injection Hfold as <-. by rewrite app_nil_r.
      - simpl in Hfold. apply bind_Ok in Hfold as (nss1 & Hrule & Hfold).
        replace (done ++ rule :: todo) with ((done ++ [rule]) ++ todo)
          by by rewrite <- app_assoc.
        apply (IH _ nss1); [| done].
        rewrite (index_rule_total_lookup _ _ _ _ Hrule), Hdone, filter_app_bool.
        simpl. by destruct (bool_decide _). }
    apply (Hloop rules [] ∅); [by rewrite lookup_total_empty | done].
  - intros rule. unfold filed_under, in_namespace.
    destruct (dict_get (meta rule) "namespace") as [[| | | | s | | |] |];
      try (rewrite elem_of_nil; split; [done | by intros (? & [=] & _)]).
    rewrite NamespaceFacts.namespace_keys_spec by lia. split.
    + intros H. by exists s.
    + by intros (? & [= <-] & H).
Qed.
End IndexOrder.

(** the index of the docstring: [c2] holds both rules, in their order *)
Lemma index_rules_by_namespace_order_witness :
  sample_c2_namespaces !!! "c2"
  = [mnemonic_rule "create reverse shell" FUNCTION_SCOPE
       [("name", YStr "create reverse shell"); ("namespace", YStr "c2/shell")];
     mnemonic_rule "download and write a file" FUNCTION_SCOPE
       [("name", YStr "download and write a file");
        ("namespace", YStr "c2/file-transfer")]].
Proof.
  rewrite (proj1 (index_rules_by_namespace_order sample_c2_rules
                    sample_c2_namespaces eq_refl "c2")).
  reflexivity.
Defined.


(** * A rule and the rules it depends on *)

Lemma foldM_Raise {A S} (f : S → A → result S) (l : list A) (s : S) (e : exn) :
  foldM f l s = Raise e → ∃ a s', a ∈ l ∧ f s' a = Raise e.
Proof.
  revert s. induction l as [| a l IH]; intros s; [done |]. simpl.
  destruct (f s a) as [s' |] eqn:Hstep; simpl.
  - intros (a' & s'' & Hin & H)%IH. exists a', s''.
    split; [by apply list_elem_of_further | done].
  - intros [= <-]. exists a, s. split; [apply list_elem_of_here | done].
Qed.

Lemma foldM_not_Ok {A S} (f : S → A → result S) (l : list A) (s : S) (a : A) :
  a ∈ l → (∀ s', ¬ is_Ok (f s' a)) → ¬ is_Ok (foldM f l s).
Proof.
  revert s. induction l as [| a' l IH]; intros s Hin Ha; [by apply elem_of_nil in Hin |].
  simpl. destruct (f s a') as [s' |] eqn:Hstep; simpl; [| by intros [? [=]]].
  apply elem_of_cons in Hin as [-> | Hin]; [| by apply IH].
  destruct (Ha s). rewrite Hstep. by eexists.
Qed.

Lemma sublist_List_filter {A} (f : A → bool) (l : list A) :
  sublist (List.filter f l) l.
Proof.
  induction l as [| a l IH]; [constructor |]. simpl.
  destruct (f a); by constructor.
Qed.

Section Closure.
Variable set_order : gset string → list string.
Hypothesis set_order_perm : ∀ names, set_order names ≡ₚ elements names.
Implicit Types (namespaces : gmap string (list Rule)) (by_name : dict Rule).

Lemma set_order_member (names : gset string) (n : string) :
  n ∈ set_order names ↔ n ∈ names.
Proof. by rewrite set_order_perm, elem_of_elements. Qed.

(** what the closure adds to the wanted names is reached from its rule *)
Lemma wanted_rec_reachable namespaces by_name :
  keyed by_name →
  ∀ fuel R (W W' : gset string),
    dict_get by_name (name R) = Some R →
    wanted_rec set_order fuel namespaces by_name R W = Ok W' →
    ∀ y, y ∈ W' → y ∈ W ∨ rtc (depends_on_name namespaces by_name) (name R) y.
Proof.
  intros Hkeyed. induction fuel as [| fuel IH]; intros R W W' HR Hrec; [done |].
  cbn [wanted_rec] in Hrec.
  assert (∀ (l : list string) (W0 W1 : gset string),
            (∀ d, d ∈ l → depends_on_name namespaces by_name (name R) d) →
            foldM (wanted_step set_order fuel namespaces by_name) l W0 = Ok W1 →
            ∀ y, y ∈ W1 →
                 y ∈ W0 ∨ rtc (depends_on_name namespaces by_name) (name R) y)
    as Hfold.
  { induction l as [| d l IHl]; intros W0 W1 Hl Hfold.
    - injection Hfold as <-. by left.
    - simpl in Hfold. apply bind_Ok in Hfold as (W2 & Hstep & Hfold).
      unfold wanted_step in Hstep.
      destruct (dict_get by_name d) as [r |] eqn:Hd; [| done].
      assert (name r = d) as Hname by by eapply keyed_get_name.
      intros y Hy.
      destruct (IHl W2 W1) with (y := y) as [Hy2 | Hy2]; [| done | done | | by right].
      { intros d' Hd'. by apply Hl, list_elem_of_further. }
      destruct (IH r W0 W2) with (y := y) as [? | Hreach];
        [by rewrite Hname | done | done | by left |].
      right. eapply rtc_l; [apply Hl, list_elem_of_here |].
      by rewrite <- Hname. }
  intros y Hy.
  destruct (Hfold _ _ _ (fun d Hd => ex_intro _ R
              (conj HR (proj1 (set_order_member _ d) Hd))) Hrec y Hy)
    as [Hy0 | Hreach]; [| by right].
  apply elem_of_union in Hy0 as [->%elem_of_singleton | Hy0];
    [by right | by left].
Qed.

Lemma get_rules_and_dependencies_reachable (fuel : nat) (rules : list Rule)
    (rule_name : string) (selected : list Rule) namespaces :
  index_rules_by_namespace rules = Ok namespaces →
  get_rules_and_dependencies set_order fuel rules rule_name = Ok selected →
  is_Some (dict_get (rules_by_name rules) rule_name)
  ∧ sublist selected (dict_values (rules_by_name rules))
  ∧ ∀ r, r ∈ selected
         ↔ r ∈ dict_values (rules_by_name rules)
           ∧ rtc (depends_on_name namespaces (rules_by_name rules))
               rule_name (name r).
Proof.
  intros Hindex H. unfold get_rules_and_dependencies in H.
  rewrite Hindex in H. cbn in H.
  destruct (dict_get (rules_by_name rules) rule_name) as [rule |] eqn:Hrule;
    [| done].
  apply bind_Ok in H as (W & Hrec & Hsel). injection Hsel as <-.
  pose proof (rules_by_name_keyed rules) as Hkeyed.
  assert (name rule = rule_name) as Hname by by eapply keyed_get_name.
  split; [by eauto |]. split; [apply sublist_List_filter |].
  intros r. rewrite elem_of_List_filter, bool_decide_eq_true.
  assert (dict_get (rules_by_name rules) (name rule) = Some rule) as Hget
    by by rewrite Hname.
  destruct (wanted_rec_spec (fun _ => EmptyString) set_order (fun l => l)
              set_order_perm (fun l => Permutation_refl l) fuel namespaces _
              Hkeyed rule {[rule_name]} W Hget Hrec) as (Hsub & _ & Hclosed).
  split; intros [Hr Hy]; (split; [done |]).
  - destruct (wanted_rec_reachable namespaces _ Hkeyed fuel rule
                {[rule_name]} W Hget Hrec (name r) Hy)
      as [->%elem_of_singleton | Hreach]; [done | by rewrite <- Hname].
  - clear Hr. revert Hy. generalize (name r).
    apply (rtc_ind_r (fun y => y ∈ W) rule_name).
    + set_solver.
    + intros y z _ (R & HR & Hd) IH.
      assert (closed_at namespaces (rules_by_name rules) W y) as Hy.
      { apply Hclosed; [done |].
        destruct (decide (y = name rule)); [by right | left].
        rewrite Hname in *. set_solver. }
      by destruct (Hy R HR z Hd).
Qed.

(** [get_rules_and_dependencies] selects, among the rules of the
    dictionary and in their order, exactly those whose name is reached
    from the given name along the dependencies. *)
Theorem get_rules_and_dependencies_spec (fuel : nat) (rules : list Rule)
    (rule_name : string) (selected : list Rule) namespaces :
  index_rules_by_namespace rules = Ok namespaces →
  get_rules_and_dependencies set_order fuel rules rule_name = Ok selected →
  is_Some (dict_get (rules_by_name rules) rule_name)
  ∧ sublist selected (dict_values (rules_by_name rules))
  ∧ ∀ r, r ∈ selected
         ↔ r ∈ dict_values (rules_by_name rules)
           ∧ rtc (depends_on_name namespaces (rules_by_name rules))
               rule_name (name r).
Proof. exact (get_rules_and_dependencies_reachable fuel rules rule_name selected namespaces). Qed.

(** ** Dependencies that go round in a circle *)

Lemma wanted_rec_error namespaces by_name :
  keyed by_name → dependencies_met namespaces by_name →
  ∀ fuel R (W : gset string) e,
    dict_get by_name (name R) = Some R →
    wanted_rec set_order fuel namespaces by_name R W = Raise e →
    e = RecursionError.
Proof.
  intros Hkeyed Hmet. induction fuel as [| fuel IH]; intros R W e HR Hrec;
    [by injection Hrec |].
  cbn [wanted_rec] in Hrec.
  apply foldM_Raise in Hrec as (d & W' & Hd%set_order_member & Hstep).
  destruct (Hmet (name R) d) as [r Hr]; [by exists R |].
  rewrite Hr in Hstep. eapply IH; [| exact Hstep].
  by rewrite (keyed_get_name _ _ _ Hkeyed Hr).
Qed.

Lemma wanted_rec_cyclic namespaces by_name (names : gset string) :
  keyed by_name → cyclic namespaces by_name names →
  ∀ fuel R (W : gset string),
    dict_get by_name (name R) = Some R → name R ∈ names →
    ¬ is_Ok (wanted_rec set_order fuel namespaces by_name R W).
Proof.
  intros Hkeyed Hcyclic. induction fuel as [| fuel IH]; intros R W HR Hin;
    [by intros [? [=]] |].
  cbn [wanted_rec].
  destruct (Hcyclic _ Hin) as (d & (R' & HR' & Hd) & Hd_in).
  rewrite HR in HR'. injection HR' as <-.
  apply (foldM_not_Ok _ _ _ d); [by apply set_order_member |].
  intros W'. destruct (Hcyclic _ Hd_in) as (_ & (r & Hr & _) & _).
  rewrite Hr. apply IH; by rewrite (keyed_get_name _ _ _ Hkeyed Hr).
Qed.

Lemma order_rec_error namespaces by_name :
  keyed by_name → dependencies_met namespaces by_name →
  ∀ fuel R (st : gset string * list Rule) e,
    dict_get by_name (name R) = Some R →
    order_rec set_order fuel namespaces by_name R st = Raise e →
    e = RecursionError.
Proof.
  intros Hkeyed Hmet. induction fuel as [| fuel IH]; intros R st e HR Hrec;
    [by injection Hrec |].
  cbn [order_rec] in Hrec. case_bool_decide; [done |].
  destruct (foldM _ _ st) as [st' |] eqn:Hfold; [done |].
  injection Hrec as ->.
  apply foldM_Raise in Hfold as (d & st' & Hd%set_order_member & Hstep).
  destruct (Hmet (name R) d) as [r Hr]; [by exists R |].
  rewrite Hr in Hstep. eapply IH; [| exact Hstep].
  by rewrite (keyed_get_name _ _ _ Hkeyed Hr).
Qed.

Lemma order_rec_cyclic namespaces by_name (names : gset string) :
  keyed by_name → cyclic namespaces by_name names →
  ∀ fuel R (st st' : gset string * list Rule),
    dict_get by_name (name R) = Some R → st.1 ## names →
    order_rec set_order fuel namespaces by_name R st = Ok st' →
    name R ∉ names ∧ st'.1 ## names.
Proof.
  intros Hkeyed Hcyclic.
  induction fuel as [| fuel IH]; intros R st st' HR Hdisj Hrec; [done |].
  cbn [order_rec] in Hrec. case_bool_decide as Hseen.
  { injection Hrec as <-. split; [set_solver | done]. }
  apply bind_Ok in Hrec as (st1 & Hfold & [= <-]).
  assert (∀ (l : list string) (st0 st2 : gset string * list Rule),
            st0.1 ## names →
            foldM (fun st dep =>
                     match dict_get by_name dep with
                     | Some r => order_rec set_order fuel namespaces by_name r st
                     | None => Raise KeyError
                     end) l st0 = Ok st2 →
            st2.1 ## names ∧ ∀ d, d ∈ l → d ∉ names) as Hloop.
  { induction l as [| d l IHl]; intros st0 st2 H0 Hl.
    - injection Hl as <-. split; [done | by intros d ?%elem_of_nil].
    - simpl in Hl. apply bind_Ok in Hl as (st3 & Hstep & Hl).
      destruct (dict_get by_name d) as [r |] eqn:Hd; [| done].
      assert (name r = d) as Hname by by eapply keyed_get_name.
      destruct (IH r st0 st3) as [Hr H3]; [by rewrite Hname | done | done |].
      destruct (IHl st3 st2 H3 Hl) as [H2 Hrest].
      split; [done |].
      intros d' [-> | Hd']%elem_of_cons; [by rewrite <- Hname | by apply Hrest]. }
  destruct (Hloop _ _ _ Hdisj Hfold) as [H1 Hdeps].
  assert (name R ∉ names) as Hout.
  { intros Hin. destruct (Hcyclic _ Hin) as (d & (R' & HR' & Hd) & Hd_in).
    rewrite HR in HR'. injection HR' as <-.
    by apply (Hdeps d); [apply set_order_member |]. }
  split; [done |]. simpl. set_solver.
Qed.

Lemma cyclic_dependencies_exhaust (fuel : nat) (rules : list Rule)
    namespaces (names : gset string) (x : string) :
  index_rules_by_namespace rules = Ok namespaces →
  dependencies_met namespaces (rules_by_name rules) →
  cyclic namespaces (rules_by_name rules) names → x ∈ names →
  get_rules_and_dependencies set_order fuel rules x = Raise RecursionError
  ∧ topologically_order_rules set_order fuel rules = Raise RecursionError.
Proof.
  intros Hindex Hmet Hcyclic Hx.
  pose proof (rules_by_name_keyed rules) as Hkeyed.
  destruct (Hcyclic _ Hx) as (_ & (R & HR & _) & _).
  assert (name R = x) as Hname by by eapply keyed_get_name.
  split.
  - unfold get_rules_and_dependencies. rewrite Hindex. cbn. rewrite HR.
    destruct (wanted_rec set_order fuel namespaces (rules_by_name rules) R {[x]})
      as [W | e] eqn:Hrec.
    + destruct (wanted_rec_cyclic namespaces _ names Hkeyed Hcyclic fuel R {[x]});
        [by rewrite Hname | by rewrite Hname | by eexists].
    + apply wanted_rec_error in Hrec as ->; [done | done | done |].
      by rewrite Hname.
  - unfold topologically_order_rules. rewrite Hindex. cbn.
    destruct (foldM _ (dict_values (rules_by_name rules)) (∅, []))
      as [st | e] eqn:Hfold.
    + exfalso.
      assert (∀ (l : list Rule) (st0 st1 : gset string * list Rule),
                (∀ r, r ∈ l → dict_get (rules_by_name rules) (name r) = Some r) →
                st0.1 ## names →
                foldM (fun st rule =>
                         order_rec set_order fuel namespaces
                           (rules_by_name rules) rule st) l st0 = Ok st1 →
                st1.1 ## names ∧ ∀ r, r ∈ l → name r ∉ names) as Hloop.
      { induction l as [| r l IHl]; intros st0 st1 Hl H0 Hf.
        - injection Hf as <-. split; [done | by intros r ?%elem_of_nil].
        - simpl in Hf. apply bind_Ok in Hf as (st2 & Hstep & Hf).
          destruct (order_rec_cyclic namespaces _ names Hkeyed Hcyclic
                      fuel r st0 st2) as [Hr H2];
            [apply Hl, list_elem_of_here | done | done |].
          destruct (IHl st2 st1) as [H1 Hrest]; [| done | done |].
          { intros r' Hr'. by apply Hl, list_elem_of_further. }
          split; [done |].
          intros r' [-> | Hr']%elem_of_cons; [done | by apply Hrest]. }
      destruct (Hloop _ _ _ (fun r Hr => keyed_get_value _ r Hkeyed Hr)
                  (disjoint_empty_l _) Hfold) as [_ Hall].
      apply (Hall R); [by eapply dict_get_value | by rewrite Hname].
    + apply foldM_Raise in Hfold as (r & st' & Hr & Hstep).
      apply order_rec_error in Hstep as ->; [done | done | done |].
      by apply keyed_get_value.
Qed.

(** With rules that depend on each other in a circle, neither the
    selection of a rule of the circle with its dependencies nor the
    ordering of the rules returns: whatever the depth of recursion that
    is allowed, it is exceeded. *)
Theorem cyclic_dependencies_recursion (fuel : nat) (rules : list Rule)
    namespaces (names : gset string) (x : string) :
  index_rules_by_namespace rules = Ok namespaces →
  dependencies_met namespaces (rules_by_name rules) →
  cyclic namespaces (rules_by_name rules) names → x ∈ names →
  get_rules_and_dependencies set_order fuel rules x = Raise RecursionError
  ∧ topologically_order_rules set_order fuel rules = Raise RecursionError.
Proof. exact (cyclic_dependencies_exhaust fuel rules namespaces names x). Qed.
End Closure.

(** the rule [start] of [sample_chain_rules] is selected with the rule
    [launch] that it matches *)
Lemma get_rules_and_dependencies_spec_witness :
  get_rules_and_dependencies sample_set_order 10 sample_chain_rules "start"
  = Ok sample_chain_rules
  ∧ sublist sample_chain_rules (dict_values (rules_by_name sample_chain_rules)).
Proof.
  split; [reflexivity |].
  exact (proj1 (proj2 (get_rules_and_dependencies_spec sample_set_order
                         (fun names => Permutation_refl (elements names))
                         10 sample_chain_rules "start" sample_chain_rules ∅
                         eq_refl eq_refl))).
Defined.

Lemma match_rule_dependencies (n scope_ target : string) (meta_ : dict YValue) :
  get_dependencies (match_rule n scope_ target meta_) ∅ = {[target]}.
Proof.
  unfold get_dependencies, match_rule. cbn [statement dependencies_rec].
  by rewrite lookup_empty.
Qed.

Lemma sample_cyclic_rules_depend (x d : string) :
  depends_on_name ∅ (rules_by_name sample_cyclic_rules) x d
  ↔ (x = "ping" ∧ d = "pong") ∨ (x = "pong" ∧ d = "ping").
Proof.
  unfold depends_on_name.
  change (rules_by_name sample_cyclic_rules)
    with [("ping", match_rule "ping" FUNCTION_SCOPE "pong" [("name", YStr "ping")]);
          ("pong", match_rule "pong" FUNCTION_SCOPE "ping" [("name", YStr "pong")])].
  cbn [dict_get]. split.
  - intros (R & HR & Hd).
    destruct (String.eqb_spec "ping" x) as [<- | _].
    { injection HR as <-. left. split; [done |].
      rewrite match_rule_dependencies in Hd. by apply elem_of_singleton in Hd. }
    destruct (String.eqb_spec "pong" x) as [<- | _]; [| done].
    injection HR as <-. right. split; [done |].
    rewrite match_rule_dependencies in Hd. by apply elem_of_singleton in Hd.
  - intros [[-> ->] | [-> ->]]; eexists; (split; [reflexivity |]);
      rewrite match_rule_dependencies; by apply elem_of_singleton.
Qed.

(** the rules [ping] and [pong] match each other *)
Lemma cyclic_dependencies_recursion_witness :
  get_rules_and_dependencies sample_set_order 1000 sample_cyclic_rules "ping"
  = Raise RecursionError
  ∧ topologically_order_rules sample_set_order 1000 sample_cyclic_rules
    = Raise RecursionError.
Proof.
  apply (cyclic_dependencies_recursion sample_set_order
           (fun names => Permutation_refl (elements names))
           1000 sample_cyclic_rules ∅ {["ping"; "pong"]} "ping").
  - reflexivity.
  - intros x d [[-> ->] | [-> ->]]%sample_cyclic_rules_depend; by eexists.
  - intros x [Hx%elem_of_singleton | Hx%elem_of_singleton]%elem_of_union;
      subst x.
    + exists "pong". split; [apply sample_cyclic_rules_depend; by left |].
      set_solver.
    + exists "ping". split; [apply sample_cyclic_rules_depend; by right |].
      set_solver.
  - set_solver.
Defined.


(** * The order of the rules is a rearrangement of the rules *)

Lemma Acc_no_cycle {A} (R : relation A) (x : A) :
  Acc (flip R) x → ¬ tc R x x.
Proof.
  induction 1 as [x _ IH]. intros Hcycle.
  inversion Hcycle as [? ? Hxx | ? y ? Hxy Hyx]; subst.
  - by apply (IH x Hxx).
  - apply (IH y Hxy). by eapply tc_r.
Qed.

Section Ordering.
Variable set_order : gset string → list string.
Hypothesis set_order_perm : ∀ names, set_order names ≡ₚ elements names.
Variable namespaces : gmap string (list Rule).
Variable by_name : dict Rule.
Hypothesis by_name_keyed : keyed by_name.

Let dep := depends_on_name namespaces by_name.

(** the state [(seen, ret)] of the ordering: the names seen are those
    of the rules listed, no two of which have one name, and no chain of
    dependencies from a name seen goes on for ever *)
Let sound (st : gset string * list Rule) : Prop :=
  (∀ y, y ∈ st.1 → Acc (flip dep) y)
  ∧ (∀ y, y ∈ st.1 ↔ y ∈ map name st.2)
  ∧ NoDup (map name st.2).

Lemma order_rec_sound (fuel : nat) (R : Rule)
    (st st' : gset string * list Rule) :
  dict_get by_name (name R) = Some R → sound st →
  order_rec set_order fuel namespaces by_name R st = Ok st' →
  sound st' ∧ st.1 ⊆ st'.1 ∧ name R ∈ st'.1
  ∧ ∀ y, y ∈ st'.1 → y ∈ st.1 ∨ rtc dep (name R) y.
Proof.
  revert R st st'. induction fuel as [| fuel IH]; intros R st st' HR Hst Hrec;
    [done |].
  cbn [order_rec] in Hrec. case_bool_decide as Hseen.
  { injection Hrec as <-. split; [done |]. split; [done |].
    split; [set_solver |]. intros y Hy. by left. }
  apply bind_Ok in Hrec as (st1 & Hfold & [= <-]).
  assert (∀ (l : list string) (st0 st2 : gset string * list Rule),
            sound st0 →
            foldM (fun st dep =>
                     match dict_get by_name dep with
                     | Some r => order_rec set_order fuel namespaces by_name r st
                     | None => Raise KeyError
                     end) l st0 = Ok st2 →
            sound st2 ∧ st0.1 ⊆ st2.1 ∧ (∀ d, d ∈ l → d ∈ st2.1)
            ∧ ∀ y, y ∈ st2.1 → y ∈ st0.1 ∨ ∃ d, d ∈ l ∧ rtc dep d y)
    as Hloop.
  { induction l as [| d l IHl]; intros st0 st2 H0 Hl.
    - injection Hl as <-. split; [done |]. split; [done |]. split.
      + by intros d ?%elem_of_nil.
      + intros y Hy. by left.
    - simpl in Hl. apply bind_Ok in Hl as (st3 & Hstep & Hl).
      destruct (dict_get by_name d) as [r |] eqn:Hd; [| done].
      assert (name r = d) as Hname by by eapply keyed_get_name.
      destruct (IH r st0 st3) as (H3 & Hsub3 & Hr & Hreach3);
        [by rewrite Hname | done | done |].
      destruct (IHl st3 st2 H3 Hl) as (H2 & Hsub2 & Hrest & Hreach2).
      split; [done |]. split; [set_solver |]. split.
      + intros d' [-> | Hd']%elem_of_cons; [| by apply Hrest].
        rewrite <- Hname. set_solver.
      + intros y Hy. destruct (Hreach2 y Hy) as [Hy3 | (d' & Hd' & Hd'y)].
        * destruct (Hreach3 y Hy3) as [? | Hry]; [by left |].
          right. exists d. split; [apply list_elem_of_here |].
          by rewrite <- Hname.
        * right. exists d'. split; [by apply list_elem_of_further | done]. }
  destruct (Hloop _ _ _ Hst Hfold) as ((Hacc & Hnames & Hnd) & Hsub & Hdeps & Hreach).
  assert (∀ d, dep (name R) d → d ∈ set_order (get_dependencies R namespaces))
    as Hdep.
  { intros d (R' & HR' & Hd). rewrite HR in HR'. injection HR' as <-.
    by apply (set_order_member set_order set_order_perm). }
  assert (Acc (flip dep) (name R)) as HaccR.
  { constructor. intros d Hd. by apply Hacc, Hdeps, Hdep. }
  assert (name R ∉ st1.1) as Hfresh.
  { intros Hin. destruct (Hreach _ Hin) as [? | (d & Hd & Hreach_d)]; [done |].
    apply (Acc_no_cycle dep (name R)); [done |].
    eapply tc_rtc_r; [| exact Hreach_d]. apply tc_once.
    exists R. split; [done |].
    by apply (set_order_member set_order set_order_perm). }
  unfold sound. cbn [fst snd]. split; [split; [| split] |]; [| | | split; [| split]].
  - intros y [->%elem_of_singleton | Hy]%elem_of_union; [done | by apply Hacc].
  - intros y. rewrite map_app, elem_of_app, elem_of_union, elem_of_singleton, Hnames.
    simpl. rewrite list_elem_of_singleton. naive_solver.
  - rewrite map_app. apply NoDup_app. split; [done |]. split.
    + intros y Hy ->%list_elem_of_singleton. by apply Hfresh, Hnames.
    + apply NoDup_singleton.
  - set_solver.
  - set_solver.
  - intros y [->%elem_of_singleton | Hy]%elem_of_union; [by right |].
    destruct (Hreach y Hy) as [? | (d & Hd & Hreach_d)]; [by left |].
    right. eapply rtc_l; [| exact Hreach_d].
    exists R. split; [done |].
    by apply (set_order_member set_order set_order_perm).
Qed.

Lemma order_rules_sound (fuel : nat) (l : list Rule)
    (st st' : gset string * list Rule) :
  (∀ r, r ∈ l → dict_get by_name (name r) = Some r) → sound st →
  foldM (fun st rule => order_rec set_order fuel namespaces by_name rule st)
    l st = Ok st' →
  sound st' ∧ ∀ r, r ∈ l → name r ∈ st'.1.
Proof.
  revert st. induction l as [| r l IH]; intros st Hl Hst Hfold.
  - injection Hfold as <-. split; [done | by intros r ?%elem_of_nil].
  - simpl in Hfold. apply bind_Ok in Hfold as (st1 & Hstep & Hfold).
    destruct (order_rec_sound fuel r st st1) as (H1 & Hsub & Hr & _);
      [apply Hl, list_elem_of_here | done | done |].
    destruct (IH st1) as [H' Hrest]; [| done | done |].
    { intros r' Hr'. by apply Hl, list_elem_of_further. }
    split; [done |].
    intros r' [-> | Hr']%elem_of_cons; [| by apply Hrest].
    (* the names seen only grow *)
    assert (∀ (l' : list Rule) (s s' : gset string * list Rule),
              (∀ r, r ∈ l' → dict_get by_name (name r) = Some r) → sound s →
              foldM (fun st rule =>
                       order_rec set_order fuel namespaces by_name rule st)
                l' s = Ok s' → s.1 ⊆ s'.1) as Hgrow.
    { induction l' as [| x l' IHl']; intros s s' Hl' Hs Hf.
      - by injection Hf as <-.
      - simpl in Hf. apply bind_Ok in Hf as (s1 & Hx & Hf).
        destruct (order_rec_sound fuel x s s1) as (Hs1 & Hsub1 & _);
          [apply Hl', list_elem_of_here | done | done |].
        etrans; [exact Hsub1 |]. apply IHl'; [| done | done].
        intros y Hy. by apply Hl', list_elem_of_further. }
    eapply Hgrow; [| exact H1 | exact Hfold | exact Hr].
    intros y Hy. by apply Hl, list_elem_of_further.
Qed.
End Ordering.

Section OrderingTheorem.
Variable set_order : gset string → list string.
Hypothesis set_order_perm : ∀ names, set_order names ≡ₚ elements names.

Lemma topologically_order_rules_rearranged (fuel : nat)
    (rules ordered : list Rule) namespaces :
  index_rules_by_namespace rules = Ok namespaces →
  topologically_order_rules set_order fuel rules = Ok ordered →
  ordered ≡ₚ dict_values (rules_by_name rules)
  ∧ NoDup (map name ordered)
  ∧ (NoDup (map name rules) → ordered ≡ₚ rules)
  ∧ ∀ r, r ∈ rules →
      Acc (flip (depends_on_name namespaces (rules_by_name rules))) (name r).
Proof.
  intros Hindex Htopo.
  pose proof (rules_by_name_keyed rules) as Hkeyed.
  destruct (topologically_order_rules_spec (fun _ => EmptyString) set_order
              (fun l => l) set_order_perm (fun l => Permutation_refl l)
              fuel rules ordered Htopo)
    as (namespaces' & Hindex' & [_ Hinv] & _).
  rewrite Hindex in Hindex'. injection Hindex' as <-.
  unfold topologically_order_rules in Htopo. rewrite Hindex in Htopo.
  cbn in Htopo. apply bind_Ok in Htopo as (st & Hfold & [= <-]).
  destruct (order_rules_sound set_order set_order_perm namespaces
              (rules_by_name rules) Hkeyed fuel
              (dict_values (rules_by_name rules)) (∅, []) st)
    as ((Hacc & Hnames & Hnd) & Hall); [| | exact Hfold |].
  { intros r Hr. by apply keyed_get_value. }
  { split; [done |]. split; [| apply NoDup_nil_2].
    intros y. simpl. by rewrite elem_of_nil, elem_of_empty. }
  assert (st.2 ≡ₚ dict_values (rules_by_name rules)) as Hperm.
  { apply NoDup_Permutation.
    - by eapply NoDup_fmap_1.
    - apply (NoDup_fmap_1 name).
      replace (name <$> dict_values (rules_by_name rules))
        with (dict_keys (rules_by_name rules)); [apply Hkeyed |].
      unfold dict_keys, dict_values. rewrite <- list_fmap_compose.
      apply list_fmap_ext. intros i [k r] Hr. simpl. symmetry.
      apply Hkeyed. by eapply list_elem_of_lookup_2.
    - intros r. split.
      + intros (i & Hi)%list_elem_of_lookup_1. cbn [snd] in Hinv.
        destruct (Hinv i r Hi) as [Hget _]. by eapply dict_get_value.
      + intros Hr. specialize (Hall r Hr). apply Hnames in Hall.
        apply list_elem_of_fmap in Hall as (r' & Hname & Hr').
        apply list_elem_of_lookup_1 in Hr' as (i & Hi).
        destruct (Hinv i r' Hi) as [Hget _]. rewrite <- Hname in Hget.
        rewrite (keyed_get_value _ r Hkeyed Hr) in Hget. injection Hget as ->.
        by eapply list_elem_of_lookup_2. }
  split; [done |]. split; [done |]. split.
  - intros Hunique. by rewrite Hperm, rules_by_name_values.
  - intros r Hr. apply Hacc, Hnames.
    destruct (dict_get (rules_by_name rules) (name r)) as [r' |] eqn:Hget.
    + rewrite <- (keyed_get_name _ _ _ Hkeyed Hget).
      apply list_elem_of_fmap. exists r'. split; [done |].
      rewrite Hperm. by eapply dict_get_value.
    + apply dict_get_None in Hget. destruct Hget.
      apply rules_by_name_keys, list_elem_of_fmap. by exists r.
Qed.

(** When [topologically_order_rules] returns, it returns the rules of
    the dictionary rearranged: each of them once, and nothing else; so
    it returns the given rules rearranged when no two of them have one
    name. It returns only when no chain of dependencies goes on for
    ever. *)
Theorem topologically_order_rules_permutation (fuel : nat)
    (rules ordered : list Rule) namespaces :
  index_rules_by_namespace rules = Ok namespaces →
  topologically_order_rules set_order fuel rules = Ok ordered →
  ordered ≡ₚ dict_values (rules_by_name rules)
  ∧ NoDup (map name ordered)
  ∧ (NoDup (map name rules) → ordered ≡ₚ rules)
  ∧ ∀ r, r ∈ rules →
      Acc (flip (depends_on_name namespaces (rules_by_name rules))) (name r).
Proof. exact (topologically_order_rules_rearranged fuel rules ordered namespaces). Qed.
End OrderingTheorem.

(** [launch], which [start] matches, comes first *)
Lemma topologically_order_rules_permutation_witness :
  topologically_order_rules sample_set_order 10 sample_chain_rules
  = Ok (rev sample_chain_rules)
  ∧ rev sample_chain_rules ≡ₚ sample_chain_rules.
Proof.
  split; [reflexivity |].
  apply (topologically_order_rules_permutation sample_set_order
           (fun names => Permutation_refl (elements names))
           10 sample_chain_rules (rev sample_chain_rules) ∅ eq_refl eq_refl).
  apply NoDup_cons. split; [| apply NoDup_singleton].
  by intros ?%list_elem_of_singleton.
Defined.


(** * The rules of a scope *)

Section ScopeRules.
Variable uuid4_hex : nat → string.
Variable set_order : gset string → list string.
Variable rule_set_order : list Rule → list Rule.
Hypothesis set_order_perm : ∀ names, set_order names ≡ₚ elements names.
Hypothesis rule_set_order_perm : ∀ rule_set, rule_set_order rule_set ≡ₚ rule_set.

(** the rules gathered by the loop of [_get_rules_for_scope] *)
Lemma scope_rules_gathered (fuel : nat) (rules : list Rule) namespaces
    (todo acc gathered : list Rule) :
  NoDup (map name rules) →
  index_rules_by_namespace rules = Ok namespaces →
  (∀ r, r ∈ acc → r ∈ rules) →
  foldM
    (fun scope_rules rule =>
       if is_subscope_rule rule then Ok scope_rules
       else
         selected ← get_rules_and_dependencies set_order fuel rules (name rule);
         Ok (rule_set_update scope_rules selected))
    todo acc = Ok gathered →
  ∀ r, r ∈ gathered
       ↔ r ∈ acc
         ∨ (r ∈ rules
            ∧ ∃ R0, R0 ∈ todo ∧ is_subscope_rule R0 = false
                    ∧ rtc (depends_on_name namespaces (rules_by_name rules))
                        (name R0) (name r)).
Proof.
  intros Hnd Hindex. revert acc.
  induction todo as [| R0 todo IH]; intros acc Hacc Hfold r.
  - injection Hfold as <-. split; [by left |].
    intros [? | (_ & ? & []%elem_of_nil & _)]. done.
  - simpl in Hfold. apply bind_Ok in Hfold as (acc1 & Hstep & Hfold).
    destruct (is_subscope_rule R0) eqn:Hsub.
    { injection Hstep as <-. rewrite (IH acc Hacc Hfold r). split.
      - intros [? | (? & R & HR & ? & ?)]; [by left | right].
        split; [done |]. exists R. by rewrite elem_of_cons; eauto.
      - intros [? | (? & R & [-> | HR]%elem_of_cons & Hn & ?)];
          [by left | congruence | right].
        split; [done |]. by exists R. }
    apply bind_Ok in Hstep as (selected & Hsel & [= <-]).
    destruct (get_rules_and_dependencies_reachable set_order set_order_perm fuel
                rules (name R0) selected namespaces Hindex Hsel)
      as (_ & _ & Hselected).
    rewrite rules_by_name_values in Hselected by done.
    destruct (rule_set_update_spec acc selected) as (Hkeep & Hfrom & Hnames).
    assert (∀ x, x ∈ rule_set_update acc selected → x ∈ rules) as Hacc1.
    { intros x [Hx | Hx]%Hfrom; [by apply Hacc | by apply Hselected]. }
    assert (∀ x, x ∈ selected → x ∈ rule_set_update acc selected) as Hnew.
    { intros x Hx. destruct (Hnames x Hx) as (x' & Hx' & Hname).
      assert (x' = x) as <-; [| done].
      apply (NoDup_name_inj rules); [done | by apply Hacc1 | | done].
      by apply Hselected. }
    rewrite (IH _ Hacc1 Hfold r). split.
    + intros [[Hr | Hr]%Hfrom | (Hr & R & HR & Hn & Hreach)].
      * by left.
      * right. apply Hselected in Hr as [Hr Hreach]. split; [done |].
        exists R0. split; [apply list_elem_of_here | done].
      * right. split; [done |]. exists R.
        split; [by apply list_elem_of_further | done].
    + intros [Hr | (Hr & R & [-> | HR]%elem_of_cons & Hn & Hreach)].
      * left. by apply Hkeep.
      * left. apply Hnew, Hselected. by split.
      * right. split; [done |]. by exists R.
Qed.

(** The rules that [RuleSet._get_rules_for_scope] lists for a scope are
    the rules of the scope that are no subscope rules, or that such a
    rule depends on, directly or through other rules; each of them is
    listed once. *)
Lemma get_rules_for_scope_content (fuel : nat) (rules : list Rule)
    (scope_ : string) (scope_rules : list Rule) namespaces :
  NoDup (map name rules) →
  index_rules_by_namespace rules = Ok namespaces →
  _get_rules_for_scope set_order rule_set_order fuel rules scope_
  = Ok scope_rules →
  NoDup (map name scope_rules)
  ∧ ∀ r, r ∈ scope_rules
         ↔ r ∈ rules ∧ scope r = scope_
           ∧ ∃ R0, R0 ∈ rules ∧ is_subscope_rule R0 = false
                   ∧ rtc (depends_on_name namespaces (rules_by_name rules))
                       (name R0) (name r).
Proof.
  intros Hnd Hindex H. unfold _get_rules_for_scope in H.
  apply bind_Ok in H as (gathered & Hgathered & H).
  apply bind_Ok in H as (ordered & Hordered & H). injection H as <-.
  pose proof (scope_rules_gathered fuel rules namespaces rules [] gathered
                Hnd Hindex (fun r Hr => False_ind _ (proj1 (elem_of_nil r) Hr))
                Hgathered) as Hmember.
  set (part := rule_set_order gathered) in *.
  assert (∀ r, r ∈ part ↔ r ∈ gathered) as Hpart.
  { intros r. unfold part. by rewrite (rule_set_order_perm gathered). }
  assert (∀ r, r ∈ part → r ∈ rules) as Hsub.
  { intros r Hr. apply Hpart, Hmember in Hr as [Hr | [Hr _]];
      [by apply elem_of_nil in Hr | done]. }
  assert (∃ namespaces', index_rules_by_namespace part = Ok namespaces')
    as [namespaces' Hindex'].
  { unfold topologically_order_rules in Hordered.
    apply bind_Ok in Hordered as (namespaces' & Hindex' & _). by eauto. }
  destruct (topologically_order_rules_rearranged set_order set_order_perm
              fuel part ordered namespaces' Hindex' Hordered)
    as (Hperm & Hordered_nd & _).
  assert (∀ r, r ∈ ordered ↔ r ∈ part) as Hordered_part.
  { intros r. rewrite Hperm. split; [apply rules_by_name_elem |].
    intros Hr. eapply dict_get_value.
    by apply (rules_by_name_sublist rules part r). }
  split.
  - eapply sublist_NoDup; [exact Hordered_nd |].
    apply (fmap_sublist name), sublist_List_filter.
  - intros r. unfold get_rules_with_scope.
    rewrite elem_of_List_filter, String.eqb_eq, Hordered_part, Hpart, Hmember.
    rewrite elem_of_nil. naive_solver.
Qed.

(** In a rule set that was constructed, each of the three lists holds
    the rules of its scope that are no subscope rules, or that such a
    rule depends on, each of them once: so every rule that was given,
    a library rule as any other, is in the list of its scope. *)
Theorem RuleSet_scope_lists (fuel : nat) (rule_list : list Rule) (n : nat)
    (rule_set : RuleSet) :
  let extracted := (_extract_subscope_rules uuid4_hex rule_list n).1 in
  NoDup (map name extracted) →
  RuleSet_init uuid4_hex set_order rule_set_order fuel rule_list n
  = Ok rule_set →
  ∀ scope_ scope_rules,
    (scope_, scope_rules)
    ∈ [(FILE_SCOPE, file_rules rule_set);
       (FUNCTION_SCOPE, function_rules rule_set);
       (BASIC_BLOCK_SCOPE, basic_block_rules rule_set)] →
    NoDup (map name scope_rules)
    ∧ (∀ r, r ∈ scope_rules
            ↔ r ∈ extracted ∧ scope r = scope_
              ∧ ∃ R0, R0 ∈ extracted ∧ is_subscope_rule R0 = false
                      ∧ rtc (depends_on_name (rules_by_namespace rule_set)
                               (rules rule_set))
                          (name R0) (name r))
    ∧ ∀ r, r ∈ extracted → is_subscope_rule r = false → scope r = scope_ →
           r ∈ scope_rules.
Proof.
  intros extracted Hnd Hinit. unfold RuleSet_init in Hinit.
  apply bind_Ok in Hinit as (_ & _ & Hinit). fold extracted in Hinit.
  apply bind_Ok in Hinit as (_ & _ & Hinit).
  destruct (length extracted =? 0)%nat; [done |].
  apply bind_Ok in Hinit as (for_file & Hfile & Hinit).
  apply bind_Ok in Hinit as (for_function & Hfunction & Hinit).
  apply bind_Ok in Hinit as (for_basic_block & Hbb & Hinit).
  apply bind_Ok in Hinit as (namespaces & Hindex & Hinit).
  injection Hinit as <-.
  cbn [file_rules function_rules basic_block_rules rules rules_by_namespace].
  intros scope_ scope_rules Hlist.
  assert (_get_rules_for_scope set_order rule_set_order fuel extracted scope_
          = Ok scope_rules) as Hscope.
  { repeat (apply elem_of_cons in Hlist as [[= -> ->] | Hlist]); try done.
    by apply elem_of_nil in Hlist. }
  destruct (get_rules_for_scope_content fuel extracted scope_ scope_rules
              namespaces Hnd Hindex Hscope) as [Hnodup Hcontent].
  split; [done |]. split; [done |].
  intros r Hr Hsub Hsc. apply Hcontent. split; [done |]. split; [done |].
  by exists r.
Qed.
End ScopeRules.

(** both rules of [sample_chain_rules] are function rules of their rule
    set *)
Lemma RuleSet_scope_lists_witness :
  NoDup (map name (function_rules sample_chain_rule_set))
  ∧ mnemonic_rule "launch" FUNCTION_SCOPE [("name", YStr "launch")]
    ∈ function_rules sample_chain_rule_set.
Proof.
  destruct (RuleSet_scope_lists sample_uuid4_hex sample_set_order
              sample_rule_set_order
              (fun names => Permutation_refl (elements names))
              (fun rule_set => Permutation_refl rule_set)
              10%nat sample_chain_rules 0%nat sample_chain_rule_set)
    with (scope_ := FUNCTION_SCOPE)
         (scope_rules := function_rules sample_chain_rule_set)
    as (Hnd & _ & Hall).
  - vm_compute. repeat constructor; intros H; inversion H; subst;
      match goal with H : _ ∈ _ |- _ => inversion H end.
  - vm_compute. reflexivity.
  - apply list_elem_of_further, list_elem_of_here.
  - split; [exact Hnd |]. apply Hall; [| reflexivity | reflexivity].
    vm_compute. apply list_elem_of_further, list_elem_of_here.
Defined.


(** * The queue of the subscope extraction *)

Section ExtractionQueue.
Variable uuid4_hex : nat → string.

Lemma derived_rule_mono (n0 n n' : nat) (out out' : list Rule) (r : Rule) :
  (n0 ≤ n)%nat → (∀ x, x ∈ out → x ∈ out') →
  derived_rule uuid4_hex n n' out r → derived_rule uuid4_hex n0 n' out' r.
Proof.
  intros Hn Hout (Hsub & parent & k & Hparent & Hk & H).
  split; [done |]. exists parent, k.
  split; [by apply Hout |]. split; [lia | done].
Qed.

Lemma extract_budget_length (rules : list Rule) :
  (length rules ≤ extract_budget rules)%nat.
Proof. unfold extract_budget. lia. Qed.

Lemma extract_loop_spec (fuel : nat) (queue done : list Rule) (n : nat) :
  (extract_budget queue ≤ fuel)%nat →
  let res := extract_loop uuid4_hex fuel queue done n in
  (n ≤ res.2)%nat
  ∧ ∃ firsts more,
      res.1 = done ++ firsts ++ more
      ∧ Forall2 same_but_statement queue firsts
      ∧ Forall no_subscope_below (firsts ++ more)
      ∧ Forall (derived_rule uuid4_hex n res.2 (firsts ++ more)) more.
Proof.
  revert queue done n. induction fuel as [| fuel IH]; intros queue done n Hfuel.
  { pose proof (extract_budget_length queue) as Hlen.
    destruct queue; [| simpl in Hlen; lia]. simpl.
    split; [done |]. exists [], []. by repeat constructor. }
  destruct queue as [| rule rest].
  { simpl. split; [done |]. exists [], []. by repeat constructor. }
  pose proof (extract_budget_step uuid4_hex rule rest n) as Hstep.
  cbn [extract_loop]. unfold extract_subscope_rules in *.
  pose proof (extraction_ok_rec uuid4_hex (name rule) (statement rule) n)
    as (Hle & _ & _ & Hclean & Hsubs).
  destruct (_extract_subscope_rules_rec uuid4_hex (name rule)
              (statement rule) n) as [[statement' subs] n1].
  cbn [fst snd] in *.
  set (rule' := mkRule (name rule) (scope rule) statement' (meta rule)
                  (definition rule)).
  destruct (IH (rest ++ subs) (done ++ [rule']) n1) as (Hle1 & firsts' & more'
      & Hres & Hsame & Hclean' & Hderived); [lia |].
  cbv zeta. split; [lia |].
  apply Forall2_app_inv_l in Hsame
    as (f_rest & f_subs & Hsame_rest & Hsame_subs & ->).
  exists (rule' :: f_rest), (f_subs ++ more').
  split; [| split; [| split]].
  - rewrite Hres. by rewrite <- !app_assoc.
  - by constructor.
  - simpl. constructor; [exact Hclean |]. by rewrite <- app_assoc in Hclean'.
  - apply Forall_app. split.
    + apply Forall_forall. intros x Hx.
      apply list_elem_of_lookup in Hx as [i Hi].
      destruct (Forall2_lookup_r _ _ _ _ _ Hsame_subs Hi)
        as (R & HR & Hname & _ & Hmeta & _).
      apply list_elem_of_lookup_2 in HR.
      destruct (Hsubs R HR) as (k & sc & child & Hk & -> & _ & Hmatched).
      split.
      * unfold is_subscope_rule. by rewrite Hmeta.
      * exists rule', k. split; [apply list_elem_of_here |].
        split; [lia |]. rewrite Hname, Hmeta. by repeat split.
    + eapply Forall_impl; [exact Hderived |]. intros x Hx.
      eapply derived_rule_mono; [exact Hle | | exact Hx].
      intros y Hy. apply list_elem_of_further.
      by rewrite <- app_assoc in Hy.
Qed.

Lemma _extract_subscope_rules_queue (rules : list Rule) (n : nat) :
  let res := _extract_subscope_rules uuid4_hex rules n in
  (n ≤ res.2)%nat
  ∧ ∃ firsts more,
      res.1 = firsts ++ more
      ∧ Forall2 same_but_statement rules firsts
      ∧ Forall no_subscope_below res.1
      ∧ Forall (derived_rule uuid4_hex n res.2 res.1) more.
Proof.
  unfold _extract_subscope_rules.
  destruct (extract_loop_spec (extract_budget rules) rules [] n
              (Nat.le_refl _)) as (Hle & firsts & more & Hres & H).
  cbv zeta. split; [done |]. exists firsts, more.
  simpl in Hres. by rewrite Hres.
Qed.


Lemma _extract_subscope_rules_names (rules : list Rule) (n : nat) (r : Rule) :
  r ∈ rules →
  name r ∈ map name (_extract_subscope_rules uuid4_hex rules n).1.
Proof.
  intros Hr.
  destruct (_extract_subscope_rules_queue rules n)
    as (_ & firsts & more & -> & Hsame & _).
  apply list_elem_of_lookup in Hr as [i Hi].
  destruct (Forall2_lookup_l _ _ _ _ _ Hsame Hi) as (r' & Hr' & Hname & _).
  rewrite <- Hname. apply list_elem_of_fmap. exists r'. split; [done |].
  apply elem_of_app. left. by eapply list_elem_of_lookup_2.
Qed.

Lemma _extract_subscope_rules_length (rules : list Rule) (n : nat) :
  (length rules ≤ length (_extract_subscope_rules uuid4_hex rules n).1)%nat.
Proof.
  destruct (_extract_subscope_rules_queue rules n)
    as (_ & firsts & more & -> & Hsame & _).
  rewrite length_app, (Forall2_length _ _ _ Hsame). lia.
Qed.
End ExtractionQueue.



(** * The errors of the construction of a rule set *)

Lemma foldM_raises {A S} (f : S → A → result S) (l : list A) (s : S)
    (a0 : A) (e0 : exn) :
  (∀ s' a e, a ∈ l → f s' a = Raise e → e = e0) →
  a0 ∈ l → (∀ s', ¬ is_Ok (f s' a0)) →
  foldM f l s = Raise e0.
Proof.
  intros Herr Hin Hnot. destruct (foldM f l s) as [s' | e] eqn:Hfold.
  - destruct (foldM_not_Ok f l s a0 Hin Hnot). rewrite Hfold. by eexists.
  - apply foldM_Raise in Hfold as (a & s' & Ha & Hstep).
    by rewrite (Herr s' a e Ha Hstep).
Qed.

Section Construction.
Variable uuid4_hex : nat → string.
Variable set_order : gset string → list string.
Variable rule_set_order : list Rule → list Rule.
Hypothesis set_order_perm : ∀ names, set_order names ≡ₚ elements names.
Hypothesis rule_set_order_perm : ∀ rule_set, rule_set_order rule_set ≡ₚ rule_set.

Lemma dependencies_met_ensured (rules : list Rule) namespaces :
  index_rules_by_namespace rules = Ok namespaces →
  dependencies_met namespaces (rules_by_name rules) →
  ensure_rule_dependencies_are_met set_order rules = Ok ().
Proof.
  intros Hindex Hmet. unfold ensure_rule_dependencies_are_met.
  rewrite Hindex. cbn.
  pose proof (rules_by_name_keyed rules) as Hkeyed.
  set (check_dep := fun (rule : Rule) (dep : string) =>
         if dict_contains (rules_by_name rules) dep then Ok ()
         else Raise (InvalidRule
                       ("rule " +:+ quoted (name rule)
                        +:+ " depends on missing rule " +:+ quoted dep))).
  set (check_rule := fun rule : Rule =>
         foldM (fun _ dep => check_dep rule dep)
           (set_order (get_dependencies rule namespaces)) ()).
  change (foldM (fun _ rule => check_rule rule)
            (dict_values (rules_by_name rules)) () ≫= (fun _ => Ok ())
          = Ok ()).
  destruct (foldM_check check_rule (dict_values (rules_by_name rules)))
    as [[-> _] | (r & e & Hr & He & _)]; [done |].
  unfold check_rule in He.
  destruct (foldM_check (check_dep r)
              (set_order (get_dependencies r namespaces)))
    as [[Hok _] | (d & e' & Hd & Hd' & _)]; [congruence |].
  apply (set_order_member set_order set_order_perm) in Hd.
  destruct (Hmet (name r) d) as [D HD].
  { exists r. split; [by apply keyed_get_value | done]. }
  unfold check_dep, dict_contains in Hd'. by rewrite HD in Hd'.
Qed.

(** A rule set of rules that depend on each other in a circle is not
    constructed: with distinct names and every dependency met, the
    construction exceeds whatever depth of recursion is allowed, which
    is a [RecursionError] and neither an [InvalidRule] nor an
    [InvalidRuleSet]. *)
Theorem RuleSet_init_cyclic (fuel : nat) (rule_list : list Rule) (n : nat)
    namespaces (names : gset string) (rule : Rule) :
  let extracted := (_extract_subscope_rules uuid4_hex rule_list n).1 in
  NoDup (map name rule_list) → NoDup (map name extracted) →
  index_rules_by_namespace extracted = Ok namespaces →
  dependencies_met namespaces (rules_by_name extracted) →
  cyclic namespaces (rules_by_name extracted) names →
  rule ∈ extracted → is_subscope_rule rule = false → name rule ∈ names →
  RuleSet_init uuid4_hex set_order rule_set_order fuel rule_list n
  = Raise RecursionError.
Proof.
  intros extracted Hunique Hnd Hindex Hmet Hcyclic Hrule Hsub Hname.
  unfold RuleSet_init. fold extracted.
  rewrite (proj1 (ensure_rules_are_unique_spec rule_list) Hunique). cbn.
  rewrite (dependencies_met_ensured extracted namespaces Hindex Hmet). cbn.
  destruct extracted as [| r0 rest] eqn:Hextracted;
    [by apply elem_of_nil in Hrule |].
  rewrite <- Hextracted in *. cbn [length Nat.eqb].
  assert ((length extracted =? 0)%nat = false) as ->
    by (rewrite Hextracted; done).
  assert (∀ scope_,
            _get_rules_for_scope set_order rule_set_order fuel extracted scope_
            = Raise RecursionError) as Hscope;
    [| by rewrite (Hscope FILE_SCOPE)].
  intros scope_. unfold _get_rules_for_scope.
  rewrite (foldM_raises _ extracted [] rule RecursionError);
    [reflexivity | | done |].
  - intros acc r e Hr. destruct (is_subscope_rule r); [done |].
    destruct (get_rules_and_dependencies set_order fuel extracted (name r))
      as [sel | e'] eqn:Hsel; [done |]. intros [= <-].
    unfold get_rules_and_dependencies in Hsel. rewrite Hindex in Hsel.
    cbn in Hsel. rewrite (rules_by_name_get extracted r Hnd Hr) in Hsel.
    destruct (wanted_rec _ _ _ _ _ _) as [W | e''] eqn:Hrec; [done |].
    injection Hsel as <-.
    eapply (wanted_rec_error set_order set_order_perm);
      [apply rules_by_name_keyed | exact Hmet | | exact Hrec].
    by apply rules_by_name_get.
  - intros acc. rewrite Hsub.
    rewrite (proj1 (cyclic_dependencies_exhaust set_order set_order_perm
                      fuel extracted namespaces names (name rule)
                      Hindex Hmet Hcyclic Hname)).
    by intros [? [=]].
Qed.

(** ** The rules of a rule set by their names *)

(** A rule set that was constructed, with distinct names, holds the
    rules that the extraction returns and no other: its length is
    their number, a name is in it exactly when it is the name of one of
    them, and under the name is the rule; any other name is a
    [KeyError]. The names of the rules that were given are in it. *)
Theorem RuleSet_lookup (fuel : nat) (rule_list : list Rule) (n : nat)
    (rule_set : RuleSet) :
  let extracted := (_extract_subscope_rules uuid4_hex rule_list n).1 in
  NoDup (map name extracted) →
  RuleSet_init uuid4_hex set_order rule_set_order fuel rule_list n
  = Ok rule_set →
  RuleSet_len rule_set = length extracted
  ∧ (length rule_list ≤ RuleSet_len rule_set)%nat
  ∧ (∀ r, r ∈ extracted → RuleSet_getitem rule_set (name r) = Ok r)
  ∧ (∀ x, RuleSet_contains rule_set x = true ↔ x ∈ map name extracted)
  ∧ (∀ x, RuleSet_contains rule_set x = false →
          RuleSet_getitem rule_set x = Raise KeyError)
  ∧ ∀ r, r ∈ rule_list → RuleSet_contains rule_set (name r) = true.
Proof.
  intros extracted Hnd Hinit. unfold RuleSet_init in Hinit.
  apply bind_Ok in Hinit as (_ & _ & Hinit). fold extracted in Hinit.
  apply bind_Ok in Hinit as (_ & _ & Hinit).
  destruct (length extracted =? 0)%nat; [done |].
  apply bind_Ok in Hinit as (for_file & _ & Hinit).
  apply bind_Ok in Hinit as (for_function & _ & Hinit).
  apply bind_Ok in Hinit as (for_basic_block & _ & Hinit).
  apply bind_Ok in Hinit as (namespaces & _ & Hinit).
  injection Hinit as <-.
  unfold RuleSet_len, RuleSet_getitem, RuleSet_contains, dict_contains.
  cbn [rules].
  assert (∀ x, (match dict_get (rules_by_name extracted) x with
                | Some _ => true
                | None => false
                end) = true ↔ x ∈ map name extracted) as Hcontains.
  { intros x. rewrite <- rules_by_name_keys.
    destruct (dict_get (rules_by_name extracted) x) eqn:Hget.
    - split; [intros _ | done]. apply dec_stable. intros Hnot.
      apply dict_get_None in Hnot. congruence.
    - split; [done |]. intros Hin. by apply dict_get_None in Hget. }
  split; [| split; [| split; [| split; [| split]]]].
  - rewrite rules_by_name_NoDup by done. apply length_map.
  - rewrite rules_by_name_NoDup by done. rewrite length_map.
    apply _extract_subscope_rules_length.
  - intros r Hr. by rewrite rules_by_name_get.
  - exact Hcontains.
  - intros x. by destruct (dict_get (rules_by_name extracted) x).
  - intros r Hr. apply Hcontains. by apply _extract_subscope_rules_names.
Qed.

(** ** Which errors the construction raises *)

Lemma bind_Raise {A B} (m : result A) (k : A → result B) (e : exn) :
  m ≫= k = Raise e → m = Raise e ∨ ∃ a, m = Ok a ∧ k a = Raise e.
Proof.
  destruct m as [a | e']; [intros H; right; by exists a |].
  intros [= <-]. by left.
Qed.

Lemma index_rules_error (rules : list Rule) (e : exn) :
  index_rules_by_namespace rules = Raise e → is_InvalidRuleSet e = false.
Proof.
  intros (r & ns & _ & H)%foldM_Raise. unfold index_rule in H.
  destruct (dict_get (meta r) "namespace") as [namespace |]; [| done].
  destruct (negb (truthy namespace)); [done |].
  destruct namespace; try done; by injection H as <-.
Qed.

Lemma wanted_rec_error_class (fuel : nat) namespaces by_name (R : Rule)
    (W : gset string) (e : exn) :
  wanted_rec set_order fuel namespaces by_name R W = Raise e →
  is_InvalidRuleSet e = false.
Proof.
  revert R W. induction fuel as [| fuel IH]; intros R W; [by intros [= <-] |].
  cbn [wanted_rec]. intros (d & W' & _ & H)%foldM_Raise.
  destruct (dict_get by_name d) as [r |]; [by eapply IH | by injection H as <-].
Qed.

Lemma order_rec_error_class (fuel : nat) namespaces by_name (R : Rule)
    (st : gset string * list Rule) (e : exn) :
  order_rec set_order fuel namespaces by_name R st = Raise e →
  is_InvalidRuleSet e = false.
Proof.
  revert R st. induction fuel as [| fuel IH]; intros R st; [by intros [= <-] |].
  cbn [order_rec]. case_bool_decide as Hseen; [done |].
  intros [H | (st' & _ & [=])]%bind_Raise.
  apply foldM_Raise in H as (d & st' & _ & H).
  destruct (dict_get by_name d) as [r |]; [by eapply IH | by injection H as <-].
Qed.

Lemma get_rules_and_dependencies_error (fuel : nat) (rules : list Rule)
    (rule_name : string) (e : exn) :
  get_rules_and_dependencies set_order fuel rules rule_name = Raise e →
  is_InvalidRuleSet e = false.
Proof.
  unfold get_rules_and_dependencies.
  intros [H | (namespaces & _ & H)]%bind_Raise; [by eapply index_rules_error |].
  destruct (dict_get (rules_by_name rules) rule_name) as [rule |];
    [| by injection H as <-].
  apply bind_Raise in H as [H | (W & _ & [=])].
  by eapply wanted_rec_error_class.
Qed.

Lemma topologically_order_rules_error (fuel : nat) (rules : list Rule)
    (e : exn) :
  topologically_order_rules set_order fuel rules = Raise e →
  is_InvalidRuleSet e = false.
Proof.
  unfold topologically_order_rules.
  intros [H | (namespaces & _ & H)]%bind_Raise; [by eapply index_rules_error |].
  apply bind_Raise in H as [H | (st & _ & [=])].
  apply foldM_Raise in H as (r & st & _ & H).
  by eapply order_rec_error_class.
Qed.

Lemma get_rules_for_scope_error (fuel : nat) (rules : list Rule)
    (scope_ : string) (e : exn) :
  _get_rules_for_scope set_order rule_set_order fuel rules scope_ = Raise e →
  is_InvalidRuleSet e = false.
Proof.
  unfold _get_rules_for_scope.
  intros [H | (gathered & _ & H)]%bind_Raise.
  - apply foldM_Raise in H as (r & acc & _ & H).
    destruct (is_subscope_rule r); [done |].
    apply bind_Raise in H as [H | (sel & _ & [=])].
    by eapply get_rules_and_dependencies_error.
  - apply bind_Raise in H as [H | (ordered & _ & [=])].
    by eapply topologically_order_rules_error.
Qed.

Lemma ensure_rules_are_unique_error (rules : list Rule) (e : exn) :
  ensure_rules_are_unique rules = Raise e → is_InvalidRuleSet e = false.
Proof.
  destruct (ensure_rules_are_unique_spec rules) as [Hok Hdup].
  destruct (decide (NoDup (map name rules))) as [Hnd | Hnd].
  - by rewrite (Hok Hnd).
  - destruct (Hdup Hnd) as (r & _ & ->). by intros [= <-].
Qed.

Lemma ensure_rule_dependencies_error (rules : list Rule) (e : exn) :
  ensure_rule_dependencies_are_met set_order rules = Raise e →
  is_InvalidRuleSet e = false.
Proof.
  unfold ensure_rule_dependencies_are_met.
  intros [H | (namespaces & _ & H)]%bind_Raise; [by eapply index_rules_error |].
  apply bind_Raise in H as [H | ([] & _ & [=])].
  apply foldM_Raise in H as (r & [] & _ & H).
  apply foldM_Raise in H as (d & [] & _ & H).
  destruct (dict_contains _ d); [done | by injection H as <-].
Qed.

Lemma RuleSet_init_InvalidRuleSet_empty (fuel : nat) (rule_list : list Rule)
    (n : nat) (msg : string) :
  RuleSet_init uuid4_hex set_order rule_set_order fuel rule_list n
  = Raise (InvalidRuleSet msg) →
  rule_list = [].
Proof.
  intros H. destruct rule_list as [| r0 rest]; [done |]. exfalso.
  unfold RuleSet_init in H.
  apply bind_Raise in H as [H | ([] & _ & H)];
    [by apply ensure_rules_are_unique_error in H |].
  apply bind_Raise in H as [H | ([] & _ & H)];
    [by apply ensure_rule_dependencies_error in H |].
  pose proof (_extract_subscope_rules_length uuid4_hex (r0 :: rest) n) as Hlen.
  destruct (length (_extract_subscope_rules uuid4_hex (r0 :: rest) n).1 =? 0)%nat
    eqn:Hempty.
  { apply Nat.eqb_eq in Hempty. simpl in Hlen. lia. }
  apply bind_Raise in H as [H | (for_file & _ & H)];
    [by apply get_rules_for_scope_error in H |].
  apply bind_Raise in H as [H | (for_function & _ & H)];
    [by apply get_rules_for_scope_error in H |].
  apply bind_Raise in H as [H | (for_basic_block & _ & H)];
    [by apply get_rules_for_scope_error in H |].
  apply bind_Raise in H as [H | (namespaces & _ & [=])].
  by apply index_rules_error in H.
Qed.

(** The construction of a rule set raises [InvalidRuleSet] for the
    empty list of rules and for no other: whatever else goes wrong is
    another error. *)
Theorem RuleSet_init_InvalidRuleSet (fuel : nat) (rule_list : list Rule)
    (n : nat) :
  (∃ msg, RuleSet_init uuid4_hex set_order rule_set_order fuel rule_list n
          = Raise (InvalidRuleSet msg))
  ↔ rule_list = [].
Proof.
  split; [| intros ->; eexists; apply RuleSet_init_empty].
  intros [msg H]. by eapply RuleSet_init_InvalidRuleSet_empty.
Qed.

Lemma filter_loop_nonempty (fuel : nat) (all todo acc filtered : list Rule)
    (tag : string) :
  foldM
    (fun rules_filtered rule =>
       if meta_has_tag rule tag then
         selected ← get_rules_and_dependencies set_order fuel all (name rule);
         Ok (rule_set_update rules_filtered selected)
       else Ok rules_filtered)
    todo acc = Ok filtered →
  acc ≠ [] ∨ (∃ rule, rule ∈ todo ∧ meta_has_tag rule tag = true) →
  filtered ≠ [].
Proof.
  revert acc. induction todo as [| rule todo IH]; intros acc Hfold Hsome.
  - injection Hfold as <-. destruct Hsome as [? | (r & []%elem_of_nil & _)].
    done.
  - simpl in Hfold. apply bind_Ok in Hfold as (acc1 & Hstep & Hfold).
    apply (IH acc1 Hfold).
    destruct (meta_has_tag rule tag) eqn:Htag.
    + left. apply bind_Ok in Hstep as (selected & Hsel & [= <-]).
      destruct (rule_set_update_spec acc selected) as (_ & _ & Hnames).
      assert (∃ r, r ∈ selected) as [r Hr].
      { unfold get_rules_and_dependencies in Hsel.
        apply bind_Ok in Hsel as (namespaces & Hindex & Hsel).
        destruct (dict_get (rules_by_name all) (name rule)) as [r |] eqn:Hget;
          [| done].
        exists r.
        apply (get_rules_and_dependencies_reachable set_order set_order_perm fuel
                 all (name rule) selected namespaces Hindex).
        { unfold get_rules_and_dependencies. rewrite Hindex. cbn.
          by rewrite Hget. }
        split; [by eapply dict_get_value |].
        rewrite (keyed_get_name _ _ _ (rules_by_name_keyed all) Hget).
        done. }
      destruct (Hnames r Hr) as (r' & Hr' & _). intros Hnil.
      rewrite Hnil in Hr'. by apply elem_of_nil in Hr'.
    + injection Hstep as <-.
      destruct Hsome as [? | (r & [-> | Hr]%elem_of_cons & Hr_tag)];
        [by left | congruence | right; by exists r].
Qed.

(** [filter_rules_by_meta] raises [InvalidRuleSet] when no rule of the
    set has the tag in a field of its meta, and only then. *)
Theorem filter_rules_by_meta_InvalidRuleSet (fuel : nat) (self : RuleSet)
    (tag : string) (n : nat) :
  (∃ msg, filter_rules_by_meta uuid4_hex set_order rule_set_order fuel self
            tag n = Raise (InvalidRuleSet msg))
  ↔ ∀ rule, rule ∈ dict_values (rules self) → meta_has_tag rule tag = false.
Proof.
  unfold filter_rules_by_meta. split.
  - intros [msg H] rule Hrule.
    destruct (meta_has_tag rule tag) eqn:Htag; [exfalso | done].
    apply bind_Raise in H as [H | (filtered & Hfold & H)].
    + apply foldM_Raise in H as (r & acc & _ & H).
      destruct (meta_has_tag r tag); [| done].
      apply bind_Raise in H as [H | (sel & _ & [=])].
      by apply get_rules_and_dependencies_error in H.
    + assert (rule_set_order filtered = []) as Hnil.
      { by eapply RuleSet_init_InvalidRuleSet_empty. }
      apply (filter_loop_nonempty _ _ _ _ _ _ Hfold); [right; by eauto |].
      apply Permutation_nil_r. by rewrite <- (rule_set_order_perm filtered), Hnil.
  - intros Hnone. rewrite filter_loop_no_tag by done. cbn.
    pose proof (rule_set_order_perm []) as ->%Permutation_nil_r.
    eexists. apply RuleSet_init_empty.
Qed.
End Construction.

(** the rules [ping] and [pong], which match each other, make no rule
    set *)
Lemma RuleSet_init_cyclic_witness :
  RuleSet_init sample_uuid4_hex sample_set_order sample_rule_set_order 1000
    sample_cyclic_rules 0
  = Raise RecursionError.
Proof.
  apply (RuleSet_init_cyclic sample_uuid4_hex sample_set_order
           sample_rule_set_order
           (fun names => Permutation_refl (elements names))
           1000 sample_cyclic_rules 0 ∅ {["ping"; "pong"]}
           (match_rule "ping" FUNCTION_SCOPE "pong" [("name", YStr "ping")])).
  - apply NoDup_cons. split; [| apply NoDup_singleton].
    by intros ?%list_elem_of_singleton.
  - apply NoDup_cons. split; [| apply NoDup_singleton].
    by intros ?%list_elem_of_singleton.
  - reflexivity.
  - intros x d [[-> ->] | [-> ->]]%sample_cyclic_rules_depend; by eexists.
  - intros x [Hx%elem_of_singleton | Hx%elem_of_singleton]%elem_of_union;
      subst x.
    + exists "pong". split; [apply sample_cyclic_rules_depend; by left |].
      set_solver.
    + exists "ping". split; [apply sample_cyclic_rules_depend; by right |].
      set_solver.
  - apply list_elem_of_here.
  - reflexivity.
  - set_solver.
Defined.

(** the rule [launch] of the rule set of [sample_chain_rules] *)
Lemma RuleSet_lookup_witness :
  RuleSet_getitem sample_chain_rule_set "launch"
  = Ok (mnemonic_rule "launch" FUNCTION_SCOPE [("name", YStr "launch")])
  ∧ RuleSet_len sample_chain_rule_set = 2%nat.
Proof.
  destruct (RuleSet_lookup sample_uuid4_hex sample_set_order
              sample_rule_set_order 10 sample_chain_rules 0
              sample_chain_rule_set) as (Hlen & _ & Hget & _).
  - apply NoDup_cons. split; [| apply NoDup_singleton].
    by intros ?%list_elem_of_singleton.
  - reflexivity.
  - split; [| exact Hlen].
    apply (Hget (mnemonic_rule "launch" FUNCTION_SCOPE [("name", YStr "launch")])).
    apply list_elem_of_further, list_elem_of_here.
Defined.

(** no rule of [sample_rule_set] is tagged [zzz] *)
Lemma filter_rules_by_meta_InvalidRuleSet_witness :
  ∃ msg, filter_rules_by_meta sample_uuid4_hex sample_set_order
           sample_rule_set_order 10 sample_rule_set "zzz" 0
         = Raise (InvalidRuleSet msg).
Proof.
  apply (filter_rules_by_meta_InvalidRuleSet sample_uuid4_hex sample_set_order
           sample_rule_set_order
           (fun names => Permutation_refl (elements names))
           (fun rule_set => Permutation_refl rule_set)).
  intros rule ->%list_elem_of_singleton. reflexivity.
Defined.


(** * The driver of a whole program *)

Section FoldInsert.
Context {K : Type} `{Countable K} {V : Type}.

(** a dictionary comprehension over the items of a dictionary *)
Lemma fold_insert_list (l : list (K * V)) (acc : gmap K V) :
  NoDup l.*1 →
  fold_left (fun m '(k, v) => <[k := v]> m) l acc = list_to_map l ∪ acc.
Proof.
  revert acc. induction l as [| [k v] l IH]; intros acc Hnd; simpl.
  - change (acc = ∅ ∪ acc). by rewrite (left_id_L ∅ (∪)).
  - apply NoDup_cons in Hnd as [Hk Hnd]. rewrite IH by exact Hnd.
    apply map_eq. intros i.
    rewrite !lookup_union. destruct (decide (k = i)) as [<- | Hne].
    + rewrite !lookup_insert_eq.
      rewrite (not_elem_of_list_to_map_1 l k) by exact Hk.
      by destruct (acc !! k).
    + by rewrite !lookup_insert_ne.
Qed.

Lemma fold_insert_map (m acc : gmap K V) :
  fold_left (fun m '(k, v) => <[k := v]> m) (map_to_list m) acc = m ∪ acc.
Proof.
  rewrite fold_insert_list by apply NoDup_fst_map_to_list.
  by rewrite list_to_map_to_list.
Qed.
End FoldInsert.

Section CapabilitiesFacts.
Context {FunctionHandle BBHandle InsnHandle Result : Type}.
Variable int_of_function : FunctionHandle → Z.
Variable int_of_bb : BBHandle → Z.
Variable engine_match :
  list Rule → FeatureSet → Z → FeatureSet * gmap string (list (Z * Result)).

Abbreviation Program :=
  (@ProgramExtractor FunctionHandle BBHandle InsnHandle).
Implicit Types (all matches : gmap string (list (Z * Result))).

Lemma extend_list_lookup (l : list (string * list (Z * Result))) all k :
  NoDup l.*1 →
  fold_left
    (fun all '(rule_name, res) => <[rule_name := all !!! rule_name ++ res]> all)
    l all !! k
  = match list_to_map (M := gmap string (list (Z * Result))) l !! k with
    | Some res => Some (all !!! k ++ res)
    | None => all !! k
    end.
Proof.
  revert all. induction l as [| [k' res] l IH]; intros all Hnd; simpl; [done |].
  apply NoDup_cons in Hnd as [Hk Hnd]. rewrite IH by exact Hnd.
  destruct (decide (k' = k)) as [-> | Hne].
  - rewrite lookup_insert_eq.
    rewrite (not_elem_of_list_to_map_1 l k) by exact Hk.
    by rewrite lookup_insert_eq.
  - rewrite !lookup_insert_ne by done.
    rewrite lookup_total_alt, lookup_insert_ne by done.
    by rewrite <- lookup_total_alt.
Qed.

Lemma extend_matches_lookup all matches k :
  extend_matches all matches !! k
  = match matches !! k with
    | Some res => Some (all !!! k ++ res)
    | None => all !! k
    end.
Proof.
  unfold extend_matches.
  rewrite extend_list_lookup by apply NoDup_fst_map_to_list.
  by rewrite list_to_map_to_list.
Qed.

Lemma extend_matches_total all matches k :
  extend_matches all matches !!! k = all !!! k ++ matches !!! k.
Proof.
  rewrite !lookup_total_alt, extend_matches_lookup.
  destruct (matches !! k); simpl; [by rewrite lookup_total_alt |].
  by rewrite app_nil_r.
Qed.

Lemma extend_matches_is_Some all matches k :
  is_Some (extend_matches all matches !! k)
  ↔ is_Some (all !! k) ∨ is_Some (matches !! k).
Proof.
  rewrite extend_matches_lookup. destruct (matches !! k).
  - split; [by right | by eauto].
  - split; [by left | by intros [? | [? [=]]]].
Qed.

Abbreviation capabilities_of ruleset extractor f :=
  (find_function_capabilities int_of_function int_of_bb engine_match
     ruleset (program_features extractor) f).

(** the loop over the functions from any state *)
Lemma function_steps ruleset (extractor : Program) (fs : list FunctionHandle)
    (st : gmap string (list (Z * Result)) * gmap string (list (Z * Result))
          * gmap Z nat * gmap Z string) :
  let analyzed :=
    List.filter
      (fun f => negb (is_library_function extractor (int_of_function f))) fs in
  let st' := fold_left (function_step int_of_function int_of_bb engine_match
                          ruleset extractor) fs st in
  (∀ k, st'.1.1.1 !!! k
        = st.1.1.1 !!! k
          ++ concat (map (fun f => (capabilities_of ruleset extractor f).1.1 !!! k)
                       analyzed))
  ∧ (∀ k, is_Some (st'.1.1.1 !! k)
          ↔ is_Some (st.1.1.1 !! k)
            ∨ ∃ f, f ∈ analyzed
                   ∧ is_Some ((capabilities_of ruleset extractor f).1.1 !! k))
  ∧ (∀ k, st'.1.1.2 !!! k
          = st.1.1.2 !!! k
            ++ concat (map (fun f => (capabilities_of ruleset extractor f).1.2 !!! k)
                         analyzed))
  ∧ (∀ k, is_Some (st'.1.1.2 !! k)
          ↔ is_Some (st.1.1.2 !! k)
            ∨ ∃ f, f ∈ analyzed
                   ∧ is_Some ((capabilities_of ruleset extractor f).1.2 !! k))
  ∧ (∀ a, is_Some (st'.1.2 !! a)
          ↔ is_Some (st.1.2 !! a)
            ∨ ∃ f, f ∈ analyzed ∧ int_of_function f = a)
  ∧ (∀ a c, st'.1.2 !! a = Some c →
            st.1.2 !! a = Some c
            ∨ ∃ f, f ∈ analyzed ∧ int_of_function f = a
                   ∧ c = (capabilities_of ruleset extractor f).2)
  ∧ (∀ f, f ∈ fs → is_library_function extractor (int_of_function f) = true →
          st'.2 !! int_of_function f
          = Some (get_function_name extractor (int_of_function f)))
  ∧ (∀ a, (∀ f, f ∈ fs → int_of_function f = a →
                is_library_function extractor a = false) →
          st'.2 !! a = st.2 !! a).
Proof.
  revert st. induction fs as [| f fs IH]; intros st; cbn zeta.
  - simpl. repeat split; try (intros; by rewrite ?app_nil_r).
    + by left.
    + intros [? | (f & []%elem_of_nil & _)]. done.
    + by left.
    + intros [? | (f & []%elem_of_nil & _)]. done.
    + by left.
    + intros [? | (f & []%elem_of_nil & _)]. done.
    + intros a c Hc. by left.
    + by intros f []%elem_of_nil.
  - cbn [fold_left List.filter].
    destruct (IH (function_step int_of_function int_of_bb engine_match
                    ruleset extractor st f))
      as (Hfn & Hfn_some & Hbb & Hbb_some & Hcount & Hcount_val & Hlib
          & Hother).
    clear IH. destruct st as [[[all_fn all_bb] counts] libs].
    set (step := function_step int_of_function int_of_bb engine_match
                   ruleset extractor) in *.
    destruct (is_library_function extractor (int_of_function f)) eqn:Hf;
      cbn [negb].
    + assert (step (all_fn, all_bb, counts, libs) f
              = (all_fn, all_bb, counts,
                 <[int_of_function f
                   := get_function_name extractor (int_of_function f)]> libs))
        as Hstep.
      { unfold step, function_step. by rewrite Hf. }
      rewrite Hstep in *. clear Hstep. cbn [fst snd] in *.
      split; [exact Hfn |]. split; [exact Hfn_some |]. split; [exact Hbb |].
      split; [exact Hbb_some |]. split; [exact Hcount |].
      split; [exact Hcount_val |]. split.
      * intros f0 Hf0 Hlib0.
        apply elem_of_cons in Hf0 as [-> | Hf0]; [| by apply Hlib].
        destruct (decide (int_of_function f ∈ map int_of_function fs))
          as [Hin | Hout].
        -- apply list_elem_of_fmap in Hin as (f1 & Heq & Hf1).
           pose proof (Hlib f1 Hf1) as Hl. rewrite <- Heq in Hl.
           by apply Hl.
        -- rewrite Hother, lookup_insert_eq; [done |].
           intros f1 Hf1 Heq. exfalso. apply Hout.
           apply list_elem_of_fmap. by exists f1.
      * intros a Ha. rewrite Hother.
        -- rewrite lookup_insert_ne; [done |]. intros <-.
           specialize (Ha f (list_elem_of_here _ _) eq_refl). congruence.
        -- intros f0 Hf0. apply Ha. by apply list_elem_of_further.
    + destruct (find_function_capabilities int_of_function int_of_bb
                  engine_match ruleset (program_features extractor) f)
        as [[function_matches bb_matches] feature_count] eqn:Hcap.
      assert (step (all_fn, all_bb, counts, libs) f
              = (extend_matches all_fn function_matches,
                 extend_matches all_bb bb_matches,
                 <[int_of_function f := feature_count]> counts, libs))
        as Hstep.
      { unfold step, function_step. by rewrite Hf, Hcap. }
      rewrite Hstep in *. clear Hstep. cbn [map concat fst snd] in *.
      rewrite ?Hcap. cbn [fst snd].
      split; [| split; [| split; [| split; [| split; [| split; [| split]]]]]].
      * intros k. by rewrite Hfn, extend_matches_total, <- app_assoc.
      * intros k. rewrite Hfn_some, extend_matches_is_Some. split.
        -- intros [[? | ?] | (f0 & Hf0 & H0)]; [by left | right | right].
           ++ exists f. split; [apply list_elem_of_here | by rewrite Hcap].
           ++ exists f0. split; [by apply list_elem_of_further | done].
        -- intros [? | (f0 & Hf0 & H0)]; [by left; left |].
           apply elem_of_cons in Hf0 as [Heq | Hf0].
           ++ subst f0. rewrite Hcap in H0. left. by right.
           ++ right. by exists f0.
      * intros k. by rewrite Hbb, extend_matches_total, <- app_assoc.
      * intros k. rewrite Hbb_some, extend_matches_is_Some. split.
        -- intros [[? | ?] | (f0 & Hf0 & H0)]; [by left | right | right].
           ++ exists f. split; [apply list_elem_of_here | by rewrite Hcap].
           ++ exists f0. split; [by apply list_elem_of_further | done].
        -- intros [? | (f0 & Hf0 & H0)]; [by left; left |].
           apply elem_of_cons in Hf0 as [Heq | Hf0].
           ++ subst f0. rewrite Hcap in H0. left. by right.
           ++ right. by exists f0.
      * intros a. rewrite Hcount. split.
        -- intros [Ha | (f0 & Hf0 & H0)].
           ++ destruct (decide (int_of_function f = a)) as [<- | Hne].
              ** right. exists f. split; [apply list_elem_of_here | done].
              ** left. by rewrite lookup_insert_ne in Ha.
           ++ right. exists f0. split; [by apply list_elem_of_further | done].
        -- intros [Ha | (f0 & Hf0 & H0)].
           ++ left. destruct (decide (int_of_function f = a)) as [<- | Hne];
                [by rewrite lookup_insert_eq | by rewrite lookup_insert_ne].
           ++ apply elem_of_cons in Hf0 as [Heq | Hf0].
              ** subst f0 a. left. by rewrite lookup_insert_eq.
              ** right. by exists f0.
      * intros a c Hc. destruct (Hcount_val a c Hc) as [Ha | (f0 & Hf0 & H0)].
        -- destruct (decide (int_of_function f = a)) as [<- | Hne].
           ++ rewrite lookup_insert_eq in Ha. injection Ha as <-.
              right. exists f. split; [apply list_elem_of_here |].
              by rewrite Hcap.
           ++ left. by rewrite lookup_insert_ne in Ha.
        -- right. exists f0. split; [by apply list_elem_of_further | done].
      * intros f0 Hf0 Hlib0. apply elem_of_cons in Hf0 as [Heq | Hf0];
          [subst f0; congruence | by apply Hlib].
      * intros a Ha. rewrite Hother; [done |].
        intros f0 Hf0. apply Ha. by apply list_elem_of_further.
Qed.

Lemma matched_rule_fold_lookup (l : list (string * list (Z * Result)))
    (acc : FeatureSet) rule_name :
  NoDup l.*1 →
  fold_left
    (fun features '(rule_name, results) =>
       <[MatchedRule rule_name := list_to_set (map fst results)]> features)
    l acc !! MatchedRule rule_name
  = match list_to_map (M := gmap string (list (Z * Result))) l !! rule_name with
    | Some results => Some (list_to_set (map fst results))
    | None => acc !! MatchedRule rule_name
    end.
Proof.
  revert acc. induction l as [| [k results] l IH]; intros acc Hnd; simpl;
    [done |].
  apply NoDup_cons in Hnd as [Hk Hnd]. rewrite IH by exact Hnd.
  destruct (decide (k = rule_name)) as [-> | Hne].
  - rewrite lookup_insert_eq.
    rewrite (not_elem_of_list_to_map_1 l rule_name) by exact Hk.
    by rewrite lookup_insert_eq.
  - rewrite (lookup_insert_ne (list_to_map l) k rule_name) by done.
    by rewrite lookup_insert_ne by congruence.
Qed.

Lemma matched_rule_fold_other (l : list (string * list (Z * Result)))
    (acc : FeatureSet) feature :
  (∀ rule_name, feature ≠ MatchedRule rule_name) →
  fold_left
    (fun features '(rule_name, results) =>
       <[MatchedRule rule_name := list_to_set (map fst results)]> features)
    l acc !! feature
  = acc !! feature.
Proof.
  intros Hf. revert acc. induction l as [| [k results] l IH]; intros acc;
    simpl; [done |].
  rewrite IH. apply lookup_insert_ne. intros Heq. by apply (Hf k).
Qed.

(** ** The matches of lower scopes as features

    [find_capabilities] hands the rules that matched in functions and
    basic blocks to the file rules as [MatchedRule] features, and
    nothing else; for a rule name that is in both dictionaries the
    addresses are those of the basic block matches only. *)
Theorem function_and_lower_features_lookup
    (all_function_matches all_bb_matches : gmap string (list (Z * Result))) :
  (∀ rule_name,
     function_and_lower_features all_function_matches all_bb_matches
       !! MatchedRule rule_name
     = match all_bb_matches !! rule_name with
       | Some results => Some (list_to_set (map fst results))
       | None =>
           match all_function_matches !! rule_name with
           | Some results => Some (list_to_set (map fst results))
           | None => None
           end
       end)
  ∧ (∀ feature,
       (∀ rule_name, feature ≠ MatchedRule rule_name) →
       function_and_lower_features all_function_matches all_bb_matches
         !! feature = None).
Proof.
  unfold function_and_lower_features, matched_rule_features. split.
  - intros rule_name. rewrite fold_left_app.
    rewrite !matched_rule_fold_lookup by apply NoDup_fst_map_to_list.
    rewrite !list_to_map_to_list. by rewrite lookup_empty.
  - intros feature Hf. by rewrite matched_rule_fold_other.
Qed.

Lemma merge_matches_scopes (bb fn file : gmap string (list (Z * Result))) :
  merge_matches (map_to_list bb ++ map_to_list fn ++ map_to_list file)
  = file ∪ (fn ∪ bb).
Proof.
  unfold merge_matches. rewrite !fold_left_app, !fold_insert_map.
  by rewrite (right_id_L ∅ (∪)).
Qed.

(** ** The result of [find_capabilities]

    The library functions are skipped. For a rule name, the matches of
    the functions that are analyzed are put one after the other, in the
    order of the functions, and so are those of their basic blocks; the
    result gives, for a name, the matches in the file when there are
    some, else those in the functions, else those in the basic
    blocks. *)
Theorem find_capabilities_matches ruleset (extractor : Program) rule_name :
  let analyzed := analyzed_functions int_of_function extractor in
  let in_functions :=
    concat (map (fun f => (capabilities_of ruleset extractor f).1.1 !!! rule_name)
              analyzed) in
  let in_basic_blocks :=
    concat (map (fun f => (capabilities_of ruleset extractor f).1.2 !!! rule_name)
              analyzed) in
  let state :=
    analyze_functions int_of_function int_of_bb engine_match ruleset
      extractor in
  let in_file :=
    (find_file_capabilities engine_match ruleset (program_features extractor)
       (function_and_lower_features state.1.1.1 state.1.1.2)).1 in
  let matches :=
    (find_capabilities int_of_function int_of_bb engine_match ruleset
       extractor).1 in
  (∀ results, in_file !! rule_name = Some results →
              matches !! rule_name = Some results)
  ∧ (in_file !! rule_name = None →
     (∃ f, f ∈ analyzed
           ∧ is_Some ((capabilities_of ruleset extractor f).1.1 !! rule_name)) →
     matches !! rule_name = Some in_functions)
  ∧ (in_file !! rule_name = None →
     (∀ f, f ∈ analyzed →
           (capabilities_of ruleset extractor f).1.1 !! rule_name = None) →
     (∃ f, f ∈ analyzed
           ∧ is_Some ((capabilities_of ruleset extractor f).1.2 !! rule_name)) →
     matches !! rule_name = Some in_basic_blocks)
  ∧ (in_file !! rule_name = None →
     (∀ f, f ∈ analyzed →
           (capabilities_of ruleset extractor f).1.1 !! rule_name = None
           ∧ (capabilities_of ruleset extractor f).1.2 !! rule_name = None) →
     matches !! rule_name = None).
Proof.
  intros analyzed in_functions in_basic_blocks state in_file matches.
  destruct (function_steps ruleset extractor (get_functions extractor)
              (∅, ∅, ∅, ∅))
    as (Hfn & Hfn_some & Hbb & Hbb_some & _).
  fold (analyze_functions int_of_function int_of_bb engine_match ruleset
          extractor) in Hfn, Hfn_some, Hbb, Hbb_some.
  fold (analyzed_functions int_of_function extractor)
    in Hfn, Hfn_some, Hbb, Hbb_some.
  fold state in Hfn, Hfn_some, Hbb, Hbb_some.
  fold analyzed in Hfn, Hfn_some, Hbb, Hbb_some.
  cbn [fst snd] in Hfn, Hfn_some, Hbb, Hbb_some.
  assert (matches = in_file ∪ (state.1.1.1 ∪ state.1.1.2)) as Hmatches.
  { unfold matches, find_capabilities, in_file. fold state.
    destruct state as [[[all_fn all_bb] counts] libs]. cbn [fst snd].
    destruct (find_file_capabilities _ _ _ _) as [file_matches file_count].
    cbn [fst snd]. apply merge_matches_scopes. }
  assert (∀ results, state.1.1.1 !! rule_name = Some results →
                     results = in_functions) as Hfn_val.
  { intros results Hr. specialize (Hfn rule_name).
    rewrite lookup_total_alt, Hr, lookup_total_empty in Hfn. exact Hfn. }
  assert (∀ results, state.1.1.2 !! rule_name = Some results →
                     results = in_basic_blocks) as Hbb_val.
  { intros results Hr. specialize (Hbb rule_name).
    rewrite lookup_total_alt, Hr, lookup_total_empty in Hbb. exact Hbb. }
  rewrite Hmatches, !lookup_union.
  split; [| split; [| split]].
  - intros results ->. by destruct (_ !! _ ∪ _ !! _).
  - intros -> Hex.
    destruct (proj2 (Hfn_some rule_name) (or_intror Hex)) as [results Hr].
    rewrite Hr, (Hfn_val _ Hr). by destruct (state.1.1.2 !! rule_name).
  - intros -> Hnone Hex.
    destruct (state.1.1.1 !! rule_name) as [results |] eqn:Hr.
    { destruct (proj1 (Hfn_some rule_name) (mk_is_Some _ _ Hr))
        as [[? [=]] | (f & Hf & [? Hsome])].
      by rewrite (Hnone f Hf) in Hsome. }
    destruct (proj2 (Hbb_some rule_name) (or_intror Hex)) as [results Hr'].
    by rewrite Hr', (Hbb_val _ Hr').
  - intros -> Hnone.
    destruct (state.1.1.1 !! rule_name) as [results |] eqn:Hr.
    { destruct (proj1 (Hfn_some rule_name) (mk_is_Some _ _ Hr))
        as [[? [=]] | (f & Hf & [? Hsome])].
      by rewrite (proj1 (Hnone f Hf)) in Hsome. }
    destruct (state.1.1.2 !! rule_name) as [results |] eqn:Hr'; [| done].
    destruct (proj1 (Hbb_some rule_name) (mk_is_Some _ _ Hr'))
      as [[? [=]] | (f & Hf & [? Hsome])].
    by rewrite (proj2 (Hnone f Hf)) in Hsome.
Qed.

(** ** The counts that [find_capabilities] reports

    [meta] names every library function with its name and gives a
    feature count for every other function, the one that
    [find_function_capabilities] returns for it when no two functions
    share the address; no address is in both dictionaries, and the
    count of the file is the one of [find_file_capabilities]. *)
Theorem find_capabilities_meta ruleset (extractor : Program) :
  let meta :=
    (find_capabilities int_of_function int_of_bb engine_match ruleset
       extractor).2 in
  let state :=
    analyze_functions int_of_function int_of_bb engine_match ruleset
      extractor in
  (∀ a name,
     library_functions meta !! a = Some name
     ↔ (∃ f, f ∈ get_functions extractor ∧ int_of_function f = a)
       ∧ is_library_function extractor a = true
       ∧ name = get_function_name extractor a)
  ∧ (∀ a, is_Some (feature_counts_functions meta !! a)
          ↔ (∃ f, f ∈ get_functions extractor ∧ int_of_function f = a)
            ∧ is_library_function extractor a = false)
  ∧ (∀ a count,
       feature_counts_functions meta !! a = Some count →
       ∃ f, f ∈ analyzed_functions int_of_function extractor
            ∧ int_of_function f = a
            ∧ count = (capabilities_of ruleset extractor f).2)
  ∧ feature_counts_file meta
    = (find_file_capabilities engine_match ruleset (program_features extractor)
         (function_and_lower_features state.1.1.1 state.1.1.2)).2.
Proof.
  intros meta state.
  destruct (function_steps ruleset extractor (get_functions extractor)
              (∅, ∅, ∅, ∅))
    as (_ & _ & _ & _ & Hcount & Hcount_val & Hlib & Hother).
  fold (analyze_functions int_of_function int_of_bb engine_match ruleset
          extractor) in Hcount, Hcount_val, Hlib, Hother.
  fold (analyzed_functions int_of_function extractor) in Hcount, Hcount_val.
  fold state in Hcount, Hcount_val, Hlib, Hother.
  cbn [fst snd] in Hcount, Hcount_val, Hlib, Hother.
  assert (library_functions meta = state.2
          ∧ feature_counts_functions meta = state.1.2
          ∧ feature_counts_file meta
            = (find_file_capabilities engine_match ruleset
                 (program_features extractor)
                 (function_and_lower_features state.1.1.1 state.1.1.2)).2)
    as (-> & -> & ->).
  { unfold meta, find_capabilities. fold state.
    destruct state as [[[all_fn all_bb] counts] libs]. cbn [fst snd].
    by destruct (find_file_capabilities _ _ _ _). }
  split; [| split; [| split; [| done]]].
  - intros a name. split.
    + intros Ha.
      destruct (decide (a ∈ map int_of_function (get_functions extractor)))
        as [Hin | Hout].
      * apply list_elem_of_fmap in Hin as (f & -> & Hf).
        destruct (is_library_function extractor (int_of_function f)) eqn:E.
        -- rewrite (Hlib f Hf E) in Ha. injection Ha as <-.
           split; [by exists f | done].
        -- rewrite Hother in Ha; [by rewrite lookup_empty in Ha |].
           intros f1 Hf1 Heq. by rewrite <- Heq in E |- *.
      * rewrite Hother in Ha; [by rewrite lookup_empty in Ha |].
        intros f1 Hf1 Heq. exfalso. apply Hout.
        apply list_elem_of_fmap. by exists f1.
    + intros ((f & Hf & <-) & E & ->). by apply Hlib.
  - intros a. rewrite Hcount. split.
    + intros [[? Hempty] | (f & Hf & <-)];
        [by rewrite lookup_empty in Hempty |].
      apply list_elem_of_In, filter_In in Hf as [Hf E].
      apply list_elem_of_In in Hf. apply negb_true_iff in E.
      split; [by exists f | done].
    + intros ((f & Hf & <-) & E). right. exists f. split; [| done].
      apply list_elem_of_In, filter_In. split; [by apply list_elem_of_In |].
      by apply negb_true_iff.
  - intros a count Hc.
    destruct (Hcount_val a count Hc) as [Hempty | Hex]; [| done].
    by rewrite lookup_empty in Hempty.
Qed.
End CapabilitiesFacts.


(** * File limitations *)

Lemma is_file_limitation_rule_namespace (rule : Rule) :
  is_file_limitation_rule rule = true
  ↔ meta_namespace rule = YStr "internal/limitation/file".
Proof.
  unfold is_file_limitation_rule.
  destruct (meta_namespace rule) as [| | | | s | | |]; try by split.
  rewrite String.eqb_eq. split; [by intros -> | by intros [= ->]].
Qed.

Lemma file_limitation_is_internal (rule : Rule) :
  is_file_limitation_rule rule = true → is_internal_rule rule = Ok true.
Proof.
  intros Hrule%is_file_limitation_rule_namespace.
  unfold is_internal_rule. by rewrite Hrule.
Qed.

Lemma limitation_warnings_nonempty rule_name description is_standalone :
  limitation_warnings rule_name description is_standalone ≠ [].
Proof. done. Qed.

Section FileLimitation.
Context {V : Type}.
Implicit Types (capabilities : gmap string V).

Lemma file_limitation_loop_spec (l : list Rule) capabilities is_standalone :
  let out := file_limitation_loop l capabilities is_standalone in
  (out.2 = Ok false
   ↔ ∀ rule, rule ∈ l → capabilities !! name rule = None)
  ∧ (out.2 = Ok false ↔ out.1 = [])
  ∧ (out.2 = Ok true →
     ∃ before rule after description,
       l = before ++ rule :: after
       ∧ (∀ r, r ∈ before → capabilities !! name r = None)
       ∧ is_Some (capabilities !! name rule)
       ∧ meta_description rule = YStr description
       ∧ out.1 = limitation_warnings (name rule) description is_standalone)
  ∧ (∀ e, out.2 = Raise e →
          ∃ before rule after,
            l = before ++ rule :: after
            ∧ (∀ r, r ∈ before → capabilities !! name r = None)
            ∧ is_Some (capabilities !! name rule)
            ∧ (∀ description, meta_description rule ≠ YStr description)
            ∧ out.1 = [dashes]).
Proof.
  induction l as [| rule l IH]; cbn zeta.
  - simpl. split; [| split; [| split]]; try done.
    split; [| done]. by intros _ r []%elem_of_nil.
  - cbn [file_limitation_loop].
    destruct (capabilities !! name rule) as [v |] eqn:Hcap.
    + destruct (meta_description rule) as [| | | | description | | |] eqn:Hd;
        cbn [fst snd].
      all: split; [| split; [| split]].
      all: try (split; [done |]; intros Hall;
                specialize (Hall rule (list_elem_of_here _ _)); congruence).
      all: try (split; done).
      all: try done.
      all: try (intros _; exists [], rule, l, description;
                split; [done |]; split; [by intros r []%elem_of_nil |];
                by rewrite Hcap, Hd).
      all: intros e _; exists [], rule, l;
        split; [done |]; split; [by intros r []%elem_of_nil |];
        rewrite Hcap, Hd; split; [done |]; split; [done | done].
    + cbn zeta in IH. destruct IH as (Hfalse & Hlog & Htrue & Hraise).
      split; [| split; [| split]].
      * rewrite Hfalse. split.
        -- intros Hall r [-> | Hr]%elem_of_cons; [done | by apply Hall].
        -- intros Hall r Hr. apply Hall. by apply list_elem_of_further.
      * exact Hlog.
      * intros Hout.
        destruct (Htrue Hout) as (before & r & after & d & -> & Hb & Hrest).
        exists (rule :: before), r, after, d. split; [done |].
        split; [| exact Hrest].
        intros r' [-> | Hr']%elem_of_cons; [done | by apply Hb].
      * intros e Hout.
        destruct (Hraise e Hout) as (before & r & after & -> & Hb & Hrest).
        exists (rule :: before), r, after. split; [done |].
        split; [| exact Hrest].
        intros r' [-> | Hr']%elem_of_cons; [done | by apply Hb].
Qed.

(** ** [has_file_limitation]

    The answer is [False], and nothing is logged, exactly when no rule
    of the rule set with the namespace [internal/limitation/file] is
    among the capabilities. It is [True] for the first such rule in the
    order of the rule set, which is an internal rule, and the warnings
    are those of that rule alone; with a description that is no string
    the call raises after the first line of dashes. *)
Theorem has_file_limitation_spec (rules_ : RuleSet) capabilities
    is_standalone :
  let out := has_file_limitation rules_ capabilities is_standalone in
  let limitations :=
    List.filter is_file_limitation_rule (dict_values (rules rules_)) in
  (out.2 = Ok false
   ↔ ∀ rule, rule ∈ dict_values (rules rules_) →
             meta_namespace rule = YStr "internal/limitation/file" →
             capabilities !! name rule = None)
  ∧ (out.2 = Ok false ↔ out.1 = [])
  ∧ (out.2 = Ok true →
     ∃ before rule after description,
       limitations = before ++ rule :: after
       ∧ (∀ r, r ∈ before → capabilities !! name r = None)
       ∧ is_Some (capabilities !! name rule)
       ∧ is_internal_rule rule = Ok true
       ∧ meta_description rule = YStr description
       ∧ out.1 = limitation_warnings (name rule) description is_standalone)
  ∧ (∀ e, out.2 = Raise e →
          (e = AttributeError ∨ e = TypeError)
          ∧ ∃ before rule after,
              limitations = before ++ rule :: after
              ∧ (∀ r, r ∈ before → capabilities !! name r = None)
              ∧ is_Some (capabilities !! name rule)
              ∧ (∀ description, meta_description rule ≠ YStr description)
              ∧ out.1 = [dashes]).
Proof.
  intros out limitations.
  destruct (file_limitation_loop_spec limitations capabilities is_standalone)
    as (Hfalse & Hlog & Htrue & Hraise).
  cbn zeta in Hfalse, Hlog, Htrue, Hraise.
  change (file_limitation_loop limitations capabilities is_standalone)
    with out in Hfalse, Hlog, Htrue, Hraise.
  split; [| split; [| split]].
  - rewrite Hfalse. split.
    + intros Hall rule Hin Hns. apply Hall.
      apply list_elem_of_In, filter_In. split; [by apply list_elem_of_In |].
      by apply is_file_limitation_rule_namespace.
    + intros Hall rule [Hin E]%list_elem_of_In%filter_In.
      apply Hall; [by apply list_elem_of_In |].
      by apply is_file_limitation_rule_namespace.
  - exact Hlog.
  - intros Hout.
    destruct (Htrue Hout)
      as (before & rule & after & d & Heq & Hb & Hcap & Hd & Hl).
    exists before, rule, after, d. split; [done |]. split; [done |].
    split; [done |]. split; [| done].
    apply file_limitation_is_internal.
    assert (rule ∈ limitations) as Hin.
    { rewrite Heq. apply elem_of_app. right. apply list_elem_of_here. }
    by apply list_elem_of_In, filter_In in Hin as [_ E].
  - intros e Hout. split; [| by apply (Hraise e)].
    unfold out, has_file_limitation in Hout. fold limitations in Hout.
    clear -Hout. induction limitations as [| r l IH]; [done |].
    cbn [file_limitation_loop] in Hout.
    destruct (capabilities !! name r); [| by apply IH].
    destruct (meta_description r); cbn [snd] in Hout; try discriminate;
      injection Hout as <-; by eauto.
Qed.
End FileLimitation.
